(** * RouteController.py: the route controller and its default policy

    A shallow embedding of [controller/RouteController.py]:
    - [compute_local_target] (class [RouteController], lines 49-82),
    - [find_route] (class [RandomPolicy], lines 99-134),
    - [make_decisions] (class [RandomPolicy], lines 139-202).

    Modelling choices.
    - A Python [dict] is an insertion-ordered map: it is an association list
      whose keys are pairwise distinct, with assignment replacing in place or
      appending at the end.  Iteration order matters in [find_route] (the
      stable [sorted] picks the first minimum) and in [make_decisions] (the
      choices are tried in the order of the dict).
    - Lengths, speeds, deadlines and vehicle counts are Python numbers; they
      are exact integers here ([Z]).
    - A loop is a function with fuel; [OutOfFuel] is the only outcome that is
      not an outcome of the Python code.  The exceptions that can leave the
      functions are [KeyError] (a dict indexed at an absent key) and
      [IndexError] (an empty list indexed at 0); [UserWarning] is raised and
      caught inside [compute_local_target].                                 *)

From Stdlib Require Import String List ZArith Bool Lia Arith PeanoNat Permutation.
Import ListNotations.
Local Open Scope Z_scope.

(** ** Decidable equality on dict keys *)

Class EqDec (K : Type) : Type := {
  eqb : K -> K -> bool;
  eqb_spec : forall x y : K, reflect (x = y) (eqb x y)
}.

Arguments eqb : simpl never.

#[export] Instance string_EqDec : EqDec string :=
  {| eqb := String.eqb; eqb_spec := String.eqb_spec |}.

(** ** Python dicts *)

Module Dict.
Section Dict.
Context {K V : Type} `{EqDec K}.

Definition dict := list (K * V).

(** [d[k]], [None] standing for [KeyError]. *)
Fixpoint get (k : K) (d : dict) : option V :=
  match d with
  | [] => None
  | (k', v) :: d' => if eqb k k' then Some v else get k d'
  end.

(** [k in d] *)
Definition mem (k : K) (d : dict) : bool :=
  match get k d with Some _ => true | None => false end.

(** [d[k] = v]: an existing key keeps its position, a new one goes last. *)
Fixpoint set (k : K) (v : V) (d : dict) : dict :=
  match d with
  | [] => [(k, v)]
  | (k', v') :: d' => if eqb k k' then (k, v) :: d' else (k', v') :: set k v d'
  end.

(** [del d[k]] on a dict whose keys are distinct. *)
Fixpoint remove (k : K) (d : dict) : dict :=
  match d with
  | [] => []
  | (k', v') :: d' => if eqb k k' then d' else (k', v') :: remove k d'
  end.

(** [del d[k]], [None] standing for [KeyError]. *)
Definition del (k : K) (d : dict) : option dict :=
  if mem k d then Some (remove k d) else None.

Definition keys (d : dict) : list K := map fst d.
Definition items (d : dict) : list (K * V) := d.

(** [{k: v for k in ks}] *)
Definition from_keys (ks : list K) (v : V) : dict :=
  fold_left (fun d k => set k v d) ks [].

Definition wf (d : dict) : Prop := NoDup (keys d).

End Dict.
Arguments dict : clear implicits.
End Dict.

Abbreviation dict := Dict.dict.

(** ** Outcomes of a call *)

Inductive exn : Type := KeyError | IndexError.

Inductive outcome (A : Type) : Type :=
| Ret (a : A)
| Raise (e : exn)
| OutOfFuel.
Arguments Ret {A} a.
Arguments Raise {A} e.
Arguments OutOfFuel {A}.

Definition bind {A B} (m : outcome A) (k : A -> outcome B) : outcome B :=
  match m with
  | Ret a => k a
  | Raise e => Raise e
  | OutOfFuel => OutOfFuel
  end.

Notation "x <- m ;; k" := (bind m (fun x => k))
  (at level 61, m at next level, right associativity).
Notation "' p <- m ;; k" := (bind m (fun p => k))
  (at level 61, p pattern, m at next level, right associativity).

(** [d[k]] as an expression that may raise. *)
Definition index {K V} `{EqDec K} (d : dict K V) (k : K) : outcome V :=
  match Dict.get k d with
  | Some v => Ret v
  | None => Raise KeyError
  end.

(** ** The data model (lines 16-47) *)

Inductive direction : Type :=
| STRAIGHT | TURN_AROUND | LEFT | RIGHT | SLIGHT_LEFT | SLIGHT_RIGHT.

Definition direction_eqb (a b : direction) : bool :=
  match a, b with
  | STRAIGHT, STRAIGHT | TURN_AROUND, TURN_AROUND | LEFT, LEFT
  | RIGHT, RIGHT | SLIGHT_LEFT, SLIGHT_LEFT | SLIGHT_RIGHT, SLIGHT_RIGHT => true
  | _, _ => false
  end.

Lemma direction_eqb_spec a b : reflect (a = b) (direction_eqb a b).
Proof. destruct a, b; simpl; constructor; congruence. Qed.

#[export] Instance direction_EqDec : EqDec direction :=
  {| eqb := direction_eqb; eqb_spec := direction_eqb_spec |}.

Definition edge := string.
Bind Scope string_scope with edge.

(** [ConnectionInfo] of [core.Util], as the docstring of [RouteController]
    describes it; [edge_index_dict] is not read by this file. *)
Record ConnectionInfo : Type := {
  outgoing_edges_dict : dict edge (dict direction edge);
  edge_length_dict : dict edge Z;
  edge_vehicle_count : dict edge Z;
  edge_list : list edge
}.

Record Vehicle : Type := {
  vehicle_id : string;
  current_edge : edge;
  destination : edge;
  deadline : Z;
  current_speed : Z
}.

(** [self]: the fields set by [__init__] (lines 45-47). *)
Record RouteController : Type := {
  connection_info : ConnectionInfo;
  direction_choices : list direction
}.

Definition init (ci : ConnectionInfo) : RouteController :=
  {| connection_info := ci;
     direction_choices :=
       [STRAIGHT; TURN_AROUND; SLIGHT_RIGHT; RIGHT; SLIGHT_LEFT; LEFT] |}.

(** [l[i]] on a list: [IndexError] out of range. *)
Definition item {A} (l : list A) (i : nat) : outcome A :=
  match nth_error l i with
  | Some a => Ret a
  | None => Raise IndexError
  end.

(** [del d[k]] as a statement that may raise. *)
Definition delete {K V} `{EqDec K} (d : dict K V) (k : K) : outcome (dict K V) :=
  match Dict.del k d with
  | Some d' => Ret d'
  | None => Raise KeyError
  end.

(** [for a in l: s = body(s, a)] *)
Fixpoint for_each {A S} (body : S -> A -> outcome S) (l : list A) (s : S)
  : outcome S :=
  match l with
  | [] => Ret s
  | a :: l' => s' <- body s a ;; for_each body l' s'
  end.

(** ** compute_local_target (lines 49-82) *)

(** How the walk over the decision list ended. *)
Inductive exit_kind : Type :=
| LookaheadReached    (* the condition of the while is false, line 56 *)
| AtDestination       (* break, line 58 *)
| NotEnoughDecisions  (* UserWarning of line 60, caught at line 79 *)
| InvalidDirection    (* UserWarning of line 66, caught at line 79 *)
| TurnaroundLoop.     (* return, line 75 *)

(** The local variables when the function returns. *)
Record resolution : Type := {
  r_target : edge;        (* current_target_edge *)
  r_path_length : Z;      (* path_length *)
  r_i : nat;              (* i *)
  r_exit : exit_kind
}.

(** Line 73, under the guard [i > 0] of line 72. *)
Definition turnaround_twice (decision_list : list direction) (i : nat) : bool :=
  match i with
  | O => false
  | S j =>
    match nth_error decision_list j, nth_error decision_list i with
    | Some a, Some b => eqb a b && eqb b TURN_AROUND
    | _, _ => false
    end
  end.

(** The while loop of lines 56-77. *)
Fixpoint compute_local_target_loop (fuel : nat) (self : RouteController)
  (decision_list : list direction) (vehicle : Vehicle)
  (current_target_edge : edge) (path_length : Z) (i : nat)
  : outcome resolution :=
  match fuel with
  | O => OutOfFuel
  | S fuel =>
    if path_length <=? Z.max (current_speed vehicle) 20 then
      if eqb current_target_edge (destination vehicle) then
        Ret {| r_target := current_target_edge; r_path_length := path_length;
               r_i := i; r_exit := AtDestination |}
      else if (length decision_list <=? i)%nat then
        Ret {| r_target := current_target_edge; r_path_length := path_length;
               r_i := i; r_exit := NotEnoughDecisions |}
      else
        choice <- item decision_list i ;;
        out <- index (outgoing_edges_dict (connection_info self))
                     current_target_edge ;;
        if negb (Dict.mem choice out) then
          Ret {| r_target := current_target_edge; r_path_length := path_length;
                 r_i := i; r_exit := InvalidDirection |}
        else
          next_edge <- index out choice ;;
          edge_length <- index (edge_length_dict (connection_info self))
                               next_edge ;;
          let path_length := path_length + edge_length in
          if turnaround_twice decision_list i then
            Ret {| r_target := next_edge; r_path_length := path_length;
                   r_i := i; r_exit := TurnaroundLoop |}
          else
            compute_local_target_loop fuel self decision_list vehicle
                                      next_edge path_length (S i)
    else
      Ret {| r_target := current_target_edge; r_path_length := path_length;
             r_i := i; r_exit := LookaheadReached |}
  end.

(** The body of [compute_local_target], keeping the local variables.  Every
    iteration that goes on increments [i] and [i] never passes
    [len(decision_list)], so the fuel given here is never used up
    ([resolve_fuel] below). *)
Definition resolve (self : RouteController) (decision_list : list direction)
  (vehicle : Vehicle) : outcome resolution :=
  compute_local_target_loop (S (length decision_list)) self decision_list
                            vehicle (current_edge vehicle) 0 0%nat.

Definition compute_local_target (self : RouteController)
  (decision_list : list direction) (vehicle : Vehicle) : outcome edge :=
  r <- resolve self decision_list vehicle ;; Ret (r_target r).

(** The number of decisions that were applied (line 69 was run for them):
    on the return of line 75 the decision at [i] was applied and [i] was not
    incremented. *)
Definition consumed (r : resolution) : nat :=
  match r_exit r with
  | TurnaroundLoop => S (r_i r)
  | _ => r_i r
  end.

(** ** find_route (lines 99-134) *)

(** The label every edge but the start gets at line 101. *)
Definition unreached : Z := 1000000000.

(** [sorted(l, key=lambda x: x[1])]: a stable sort. *)
Fixpoint insert_by_distance (x : edge * Z) (l : list (edge * Z))
  : list (edge * Z) :=
  match l with
  | [] => [x]
  | y :: l' =>
    if snd x <=? snd y then x :: y :: l' else y :: insert_by_distance x l'
  end.

Definition sorted (l : list (edge * Z)) : list (edge * Z) :=
  fold_right insert_by_distance [] l.

(** Truth value of a number. *)
Definition truthy (z : Z) : bool := negb (z =? 0).

(** The local variables of [find_route] that the loop changes. *)
Record search : Type := {
  s_unvisited : dict edge Z;
  s_visited : dict edge Z;
  s_path_lists : dict edge (list direction);
  s_current_edge : edge;
  s_current_distance : Z
}.

(** The body of the for loop of lines 109-118. *)
Definition relax (ci : ConnectionInfo) (current_edge : edge)
  (current_distance : Z)
  (st : dict edge Z * dict edge (list direction))
  (it : direction * edge)
  : outcome (dict edge Z * dict edge (list direction)) :=
  let '(unvisited, path_lists) := st in
  let '(direction, outgoing_edge) := it in
  if negb (Dict.mem outgoing_edge unvisited) then Ret st
  else
    edge_length <- index (edge_length_dict ci) outgoing_edge ;;
    let new_distance := current_distance + edge_length in
    old_distance <- index unvisited outgoing_edge ;;
    if new_distance <? old_distance then
      current_path <- index path_lists current_edge ;;
      Ret (Dict.set outgoing_edge new_distance unvisited,
           Dict.set outgoing_edge (current_path ++ [direction]) path_lists)
    else Ret st.

(** What one turn of a loop does next. *)
Inductive step (S : Type) : Type :=
| Next (s : S)    (* go to the head of the loop *)
| Done (s : S).   (* leave the loop *)
Arguments Next {S} s.
Arguments Done {S} s.

(** Lines 109-122: the outgoing edges of the current edge are relaxed and
    the current edge moves from [unvisited] to [visited]. *)
Definition settle (ci : ConnectionInfo) (s : search) : outcome search :=
  out <- index (outgoing_edges_dict ci) (s_current_edge s) ;;
  st <- for_each (relax ci (s_current_edge s) (s_current_distance s))
                 (Dict.items out) (s_unvisited s, s_path_lists s) ;;
  let visited :=
    Dict.set (s_current_edge s) (s_current_distance s) (s_visited s) in
  unvisited <- delete (fst st) (s_current_edge s) ;;
  Ret {| s_unvisited := unvisited; s_visited := visited;
         s_path_lists := snd st;
         s_current_edge := s_current_edge s;
         s_current_distance := s_current_distance s |}.

(** The body of the [while True] of lines 106-128. *)
Definition find_route_body (self : RouteController) (destination : edge)
  (s : search) : outcome (step search) :=
  let ci := connection_info self in
  if negb (Dict.mem (s_current_edge s) (outgoing_edges_dict ci)) then
    (* continue, line 108 *)
    Ret (Next s)
  else
    s' <- settle ci s ;;
    match s_unvisited s' with
    | [] => Ret (Done s')
    | _ :: _ =>
      if eqb (s_current_edge s') destination then Ret (Done s')
      else
        let possible_edges :=
          filter (fun e => truthy (snd e)) (Dict.items (s_unvisited s')) in
        nearest <- item (sorted possible_edges) 0 ;;
        Ret (Next {| s_unvisited := s_unvisited s';
                     s_visited := s_visited s';
                     s_path_lists := s_path_lists s';
                     s_current_edge := fst nearest;
                     s_current_distance := snd nearest |})
    end.

(** The [while True] of lines 106-128. *)
Fixpoint find_route_loop (fuel : nat) (self : RouteController)
  (destination : edge) (s : search) : outcome search :=
  match fuel with
  | O => OutOfFuel
  | S fuel =>
    r <- find_route_body self destination s ;;
    match r with
    | Next s' => find_route_loop fuel self destination s'
    | Done s' => Ret s'
    end
  end.

(** The state before the loop (lines 101-105). *)
Definition find_route_init (self : RouteController) (current_edge : edge)
  : outcome search :=
  let ci := connection_info self in
  let unvisited := Dict.from_keys (edge_list ci) unreached in
  current_distance <- index (edge_length_dict ci) current_edge ;;
  let unvisited := Dict.set current_edge current_distance unvisited in
  let path_lists := Dict.from_keys (edge_list ci) (@nil direction) in
  Ret {| s_unvisited := unvisited; s_visited := [];
         s_path_lists := path_lists;
         s_current_edge := current_edge;
         s_current_distance := current_distance |}.

(** The search of [find_route], keeping the local variables at the end of
    the loop. *)
Definition find_route_search (fuel : nat) (self : RouteController)
  (current_edge destination : edge) : outcome search :=
  s0 <- find_route_init self current_edge ;;
  find_route_loop fuel self destination s0.

(** [find_route]; the parameters [connection_info] and [deadline] of the
    source ([conn] and [deadline_arg] here) are not read: the body reads
    [self.connection_info]. *)
Definition find_route (fuel : nat) (self : RouteController)
  (conn : ConnectionInfo) (current_edge destination : edge) (deadline_arg : Z)
  : outcome (list direction * Z) :=
  s <- find_route_search fuel self current_edge destination ;;
  decision_list <- index (s_path_lists s) destination ;;
  Ret (decision_list, s_current_distance s).

(** ** make_decisions (lines 139-202) *)

(** The variables the for loop of lines 177-193 changes. *)
Record working : Type := {
  w_distance : Z;                     (* distance *)
  w_shortest_path : list direction;   (* shortest_path *)
  w_out_edge : edge                   (* out_edge *)
}.

(** The condition of line 181. *)
Definition not_dead_end (self : RouteController) (vehicle : Vehicle)
  (out_edge2 : edge) : outcome bool :=
  if eqb out_edge2 (destination vehicle) then Ret true
  else
    out2 <- index (outgoing_edges_dict (connection_info self)) out_edge2 ;;
    Ret (negb (length (Dict.keys out2) =? 0)%nat).

(** The condition of line 186; [and] evaluates from the left and stops at
    the first false operand. *)
Definition worth_a_route (self : RouteController) (vehicle : Vehicle)
  (edges : list edge) (out_edge out_edge2 : edge) : outcome bool :=
  let count := edge_vehicle_count (connection_info self) in
  if existsb (eqb out_edge2) edges then Ret false
  else
    count2 <- index count out_edge2 ;;
    count1 <- index count out_edge ;;
    if count2 <=? count1 then Ret (negb (eqb out_edge (destination vehicle)))
    else Ret false.

(** The body of the for loop of lines 177-193 for one [choice]; the boolean
    tells whether lines 190-193 were run (the alternative was taken). *)
Definition consider_choice (fuel : nat) (self : RouteController)
  (conn : ConnectionInfo) (vehicle : Vehicle) (current_edge : edge)
  (edges : list edge) (direct : direction) (w : working) (choice : direction)
  : outcome (bool * working) :=
  let ci := connection_info self in
  if negb (eqb choice direct) then
    out <- index (outgoing_edges_dict ci) current_edge ;;
    out_edge2 <- index out choice ;;
    alive <- not_dead_end self vehicle out_edge2 ;;
    if alive : bool then
      worth <- worth_a_route self vehicle edges (w_out_edge w) out_edge2 ;;
      if worth : bool then
        '(shortest_path2, distance2) <-
          find_route fuel self conn out_edge2 (destination vehicle)
                     (deadline vehicle) ;;
        count2 <- index (edge_vehicle_count ci) out_edge2 ;;
        count1 <- index (edge_vehicle_count ci) (w_out_edge w) ;;
        if negb (count2 =? count1) || (distance2 <? w_distance w) then
          Ret (true, {| w_distance := distance2;
                        w_shortest_path := choice :: shortest_path2;
                        w_out_edge := out_edge2 |})
        else Ret (false, w)
      else Ret (false, w)
    else Ret (false, w)
  else Ret (false, w).

(** Lines 176-193. *)
Definition explore_alternatives (fuel : nat) (self : RouteController)
  (conn : ConnectionInfo) (vehicle : Vehicle) (avg_deadline : Z)
  (current_edge : edge) (edges : list edge) (direct : direction) (w : working)
  : outcome working :=
  if deadline vehicle >? avg_deadline then
    out <- index (outgoing_edges_dict (connection_info self)) current_edge ;;
    for_each
      (fun w choice =>
         r <- consider_choice fuel self conn vehicle current_edge edges direct
                              w choice ;;
         Ret (snd r))
      (Dict.keys out) w
  else Ret w.

(** The variables the while loop of lines 165-198 changes. *)
Record planning : Type := {
  p_current_edge : edge;               (* current_edge *)
  p_edges : list edge;                 (* edges *)
  p_decision_list : list direction;    (* decision_list *)
  p_shortest_path : list direction;    (* shortest_path *)
  p_distance : Z                       (* distance *)
}.

(** The body of the while loop of lines 165-198. *)
Definition plan_body (fuel : nat) (self : RouteController)
  (conn : ConnectionInfo) (vehicle : Vehicle) (avg_deadline : Z) (p : planning)
  : outcome (step planning) :=
  if negb (eqb (p_current_edge p) (destination vehicle)) then
    let edges := p_edges p ++ [p_current_edge p] in
    route <-
      match p_shortest_path p with
      | [] => find_route fuel self conn (p_current_edge p)
                         (destination vehicle) (deadline vehicle)
      | _ :: _ => Ret (p_shortest_path p, p_distance p)
      end ;;
    match fst route with
    | [] =>
      (* break, line 171 *)
      Ret (Done {| p_current_edge := p_current_edge p; p_edges := edges;
                   p_decision_list := p_decision_list p;
                   p_shortest_path := []; p_distance := snd route |})
    | direct :: _ =>
      out <- index (outgoing_edges_dict (connection_info self))
                   (p_current_edge p) ;;
      out_edge1 <- index out direct ;;
      w <- explore_alternatives fuel self conn vehicle avg_deadline
             (p_current_edge p) edges direct
             {| w_distance := snd route; w_shortest_path := fst route;
                w_out_edge := out_edge1 |} ;;
      final_choice <- item (w_shortest_path w) 0 ;;
      Ret (Next {| p_current_edge := w_out_edge w; p_edges := edges;
                   p_decision_list := p_decision_list p ++ [final_choice];
                   p_shortest_path := tl (w_shortest_path w);
                   p_distance := w_distance w |})
    end
  else Ret (Done p).

(** The while loop of lines 165-198: [gas] bounds its iterations, [fuel]
    those of each search it starts. *)
Fixpoint plan_loop (gas fuel : nat) (self : RouteController)
  (conn : ConnectionInfo) (vehicle : Vehicle) (avg_deadline : Z) (p : planning)
  : outcome planning :=
  match gas with
  | O => OutOfFuel
  | S gas =>
    r <- plan_body fuel self conn vehicle avg_deadline p ;;
    match r with
    | Next p' => plan_loop gas fuel self conn vehicle avg_deadline p'
    | Done p' => Ret p'
    end
  end.

(** Lines 160-198 for one vehicle: the decision list handed to
    [compute_local_target].  [distance] is not bound before the first search;
    it is read only after one (the first iteration starts with an empty
    [shortest_path]), so its initial value here is never read. *)
Definition plan (fuel : nat) (self : RouteController) (conn : ConnectionInfo)
  (vehicle : Vehicle) (avg_deadline : Z) : outcome (list direction) :=
  p <- plan_loop fuel fuel self conn vehicle avg_deadline
         {| p_current_edge := current_edge vehicle; p_edges := [];
            p_decision_list := []; p_shortest_path := []; p_distance := 0 |} ;;
  Ret (p_decision_list p).

(** The body of the for loop of lines 159-200. *)
Definition decide_vehicle (fuel : nat) (self : RouteController)
  (conn : ConnectionInfo) (avg_deadline : Z)
  (local_targets : dict string edge) (vehicle : Vehicle)
  : outcome (dict string edge) :=
  decision_list <- plan fuel self conn vehicle avg_deadline ;;
  local_target <- compute_local_target self decision_list vehicle ;;
  Ret (Dict.set (vehicle_id vehicle) local_target local_targets).

Definition make_decisions (fuel : nat) (self : RouteController)
  (vehicles : list Vehicle) (conn : ConnectionInfo) (avg_deadline : Z)
  : outcome (dict string edge) :=
  for_each (decide_vehicle fuel self conn avg_deadline) vehicles [].

(** ** Walking a decision list through the outgoing-edges map *)

(** The edge reached from [e] by the directions of [path], and the sum of the
    lengths of the edges entered on the way. *)
Fixpoint walk (ci : ConnectionInfo) (e : edge) (path : list direction)
  : option (edge * Z) :=
  match path with
  | [] => Some (e, 0)
  | d :: path' =>
    match Dict.get e (outgoing_edges_dict ci) with
    | None => None
    | Some out =>
      match Dict.get d out with
      | None => None
      | Some e' =>
        match Dict.get e' (edge_length_dict ci), walk ci e' path' with
        | Some len, Some (e'', c) => Some (e'', len + c)
        | _, _ => None
        end
      end
    end
  end.

(** ** Test topologies *)

Definition diamond (dB dC dBD dCD : direction) (occB occC : Z)
  : ConnectionInfo :=
  {| outgoing_edges_dict :=
       [("A", [(dB, "B"); (dC, "C")]); ("B", [(dBD, "D")]);
        ("C", [(dCD, "D")]); ("D", [])]%string;
     edge_length_dict := [("A", 10); ("B", 10); ("C", 10); ("D", 10)]%string;
     edge_vehicle_count :=
       [("A", 0); ("B", occB); ("C", occC); ("D", 0)]%string;
     edge_list := ["A"; "B"; "C"; "D"]%string |}.

Definition car (cur dst : edge) (dl speed : Z) : Vehicle :=
  {| vehicle_id := "v0"%string; current_edge := cur; destination := dst;
     deadline := dl; current_speed := speed |}.

(** ** Well-formed inputs

    The data model of the topology: every edge of [edge_list] has an
    outgoing map (empty for a dead end) with pairwise distinct directions
    that lead to edges of [edge_list], a length and a vehicle count. *)

Fixpoint distinct {K} `{EqDec K} (l : list K) : bool :=
  match l with
  | [] => true
  | k :: l' => negb (existsb (eqb k) l') && distinct l'
  end.

Definition listed (ci : ConnectionInfo) (e : edge) : bool :=
  existsb (eqb e) (edge_list ci).

Definition edge_ok (ci : ConnectionInfo) (e : edge) : bool :=
  match Dict.get e (outgoing_edges_dict ci) with
  | Some out =>
    distinct (Dict.keys out) && forallb (fun it => listed ci (snd it)) out
  | None => false
  end
  && Dict.mem e (edge_length_dict ci)
  && Dict.mem e (edge_vehicle_count ci).

Definition topology_snapshot (ci : ConnectionInfo) : bool :=
  forallb (edge_ok ci) (edge_list ci).

Definition positive_lengths (ci : ConnectionInfo) : bool :=
  forallb (fun e => match Dict.get e (edge_length_dict ci) with
                    | Some len => 0 <? len
                    | None => false
                    end) (edge_list ci).

(** A vehicle whose current edge and destination are edges of the
    topology. *)
Definition on_the_map (ci : ConnectionInfo) (v : Vehicle) : bool :=
  listed ci (current_edge v) && listed ci (destination v).


(** What each way of leaving [compute_local_target] tells about the local
    variables at that point. *)
Definition exit_justified (self : RouteController)
  (decision_list : list direction) (vehicle : Vehicle) (r : resolution)
  : Prop :=
  match r_exit r with
  | LookaheadReached =>
    Z.max (current_speed vehicle) 20 < r_path_length r
  | AtDestination =>
    r_target r = destination vehicle
  | NotEnoughDecisions =>
    (length decision_list <= r_i r)%nat /\ r_target r <> destination vehicle
  | InvalidDirection =>
    exists choice out,
      nth_error decision_list (r_i r) = Some choice
      /\ Dict.get (r_target r) (outgoing_edges_dict (connection_info self))
         = Some out
      /\ Dict.mem choice out = false
  | TurnaroundLoop =>
    exists j, r_i r = S j
              /\ nth_error decision_list j = Some TURN_AROUND
              /\ nth_error decision_list (S j) = Some TURN_AROUND
  end.


(** Two edges facing each other, [E] and [W], and a side road [F]. *)
Definition two_way : ConnectionInfo :=
  {| outgoing_edges_dict :=
       [("E", [(TURN_AROUND, "W"); (STRAIGHT, "F")]);
        ("W", [(TURN_AROUND, "E")]); ("F", [])]%string;
     edge_length_dict := [("E", 5); ("W", 5); ("F", 5)]%string;
     edge_vehicle_count := [("E", 0); ("W", 0); ("F", 0)]%string;
     edge_list := ["E"; "W"; "F"]%string |}.

Definition named_car (id : string) (cur dst : edge) (dl speed : Z) : Vehicle :=
  {| vehicle_id := id; current_edge := cur; destination := dst;
     deadline := dl; current_speed := speed |}.


(** The diamond with [C] before [B] in the edge list and in the outgoing
    map of [A]. *)
Definition diamond_c_first (dB dC dBD dCD : direction) (occB occC : Z)
  : ConnectionInfo :=
  {| outgoing_edges_dict :=
       [("A", [(dC, "C"); (dB, "B")]); ("C", [(dCD, "D")]);
        ("B", [(dBD, "D")]); ("D", [])]%string;
     edge_length_dict := [("A", 10); ("C", 10); ("B", 10); ("D", 10)]%string;
     edge_vehicle_count :=
       [("A", 0); ("C", occC); ("B", occB); ("D", 0)]%string;
     edge_list := ["A"; "C"; "B"; "D"]%string |}.

Definition all_directions : list direction :=
  [STRAIGHT; TURN_AROUND; LEFT; RIGHT; SLIGHT_LEFT; SLIGHT_RIGHT].

(** The vehicle [v] with another deadline. *)
Definition with_deadline (v : Vehicle) (dl : Z) : Vehicle :=
  {| vehicle_id := vehicle_id v; current_edge := current_edge v;
     destination := destination v; deadline := dl;
     current_speed := current_speed v |}.

(** On the topology [ci], the vehicle of the scenario (on [A], bound for
    [D], speed 5, deadline 1 against an average of 0) gets the decision list
    [dB; dBD] and the local target [D]. *)
Definition goes_through_B (ci : ConnectionInfo) (dB dBD : direction) : bool :=
  match plan 5 (init ci) ci (car "A" "D" 1 5) 0,
        make_decisions 5 (init ci) [car "A" "D" 1 5] ci 0 with
  | Ret [d1; d2], Ret [(id, target)] =>
    eqb d1 dB && eqb d2 dBD && eqb id "v0"%string && eqb target "D"%string
  | _, _ => false
  end.

Definition every_labelling_goes_through_B : bool :=
  forallb (fun dB =>
  forallb (fun dC =>
  forallb (fun dBD =>
  forallb (fun dCD =>
    eqb dB dC
    || (goes_through_B (diamond dB dC dBD dCD 0 5) dB dBD
        && goes_through_B (diamond_c_first dB dC dBD dCD 0 5) dB dBD))
    all_directions) all_directions) all_directions) all_directions.

(** A road [A] that leads to [B], a dead end that has no entry in
    [outgoing_edges_dict]. *)
Definition dead_end_road : ConnectionInfo :=
  {| outgoing_edges_dict := [("A", [(STRAIGHT, "B")])]%string;
     edge_length_dict := [("A", 10); ("B", 10)]%string;
     edge_vehicle_count := [("A", 0); ("B", 0)]%string;
     edge_list := ["A"; "B"]%string |}.

(** ** Following a decision list *)

(** The edge reached from [e] by the directions of [path], whatever the
    lengths. *)
Fixpoint follow (ci : ConnectionInfo) (e : edge) (path : list direction)
  : option edge :=
  match path with
  | [] => Some e
  | d :: path' =>
    match Dict.get e (outgoing_edges_dict ci) with
    | None => None
    | Some out =>
      match Dict.get d out with
      | None => None
      | Some e' => follow ci e' path'
      end
    end
  end.

(** A one-way avenue of four edges of length 15. *)
Definition avenue : ConnectionInfo :=
  {| outgoing_edges_dict :=
       [("R1", [(STRAIGHT, "R2")]); ("R2", [(STRAIGHT, "R3")]);
        ("R3", [(STRAIGHT, "R4")]); ("R4", [])]%string;
     edge_length_dict :=
       [("R1", 15); ("R2", 15); ("R3", 15); ("R4", 15)]%string;
     edge_vehicle_count :=
       [("R1", 0); ("R2", 0); ("R3", 0); ("R4", 0)]%string;
     edge_list := ["R1"; "R2"; "R3"; "R4"]%string |}.

(** The first decision of the working route leads to the working out edge
    through the outgoing map [out]. *)
Definition heads_out (out : dict direction edge) (w : working) : Prop :=
  exists d rest,
    w_shortest_path w = d :: rest /\ Dict.get d out = Some (w_out_edge w).

(** The edges entered when following [path] from [e], in order. *)
Fixpoint trail (ci : ConnectionInfo) (e : edge) (path : list direction)
  : list edge :=
  match path with
  | [] => []
  | d :: path' =>
    match Dict.get e (outgoing_edges_dict ci) with
    | None => []
    | Some out =>
      match Dict.get d out with
      | None => []
      | Some e' => e' :: trail ci e' path'
      end
    end
  end.

(** [route] walks from [e] to [dest] over [c], and no walk from [e] to
    [dest] is shorter. *)
Definition shortest (ci : ConnectionInfo) (e dest : edge)
  (route : list direction) (c : Z) : Prop :=
  walk ci e route = Some (dest, c)
  /\ forall q c', walk ci e q = Some (dest, c') -> c <= c'.

(** [rest] walks from [e] to [dest] and reaches [dest] at its end only. *)
Definition straight_to (ci : ConnectionInfo) (dest e : edge)
  (rest : list direction) : Prop :=
  (exists c, walk ci e rest = Some (dest, c))
  /\ forall q r cq, rest = q ++ r -> r <> [] ->
                    walk ci e q <> Some (dest, cq).

(** The walk along the first [j] decisions stays within the lookahead and
    off the destination. *)
Definition short_of_target (self : RouteController)
  (decision_list : list direction) (vehicle : Vehicle) (j : nat) : Prop :=
  exists e c,
    walk (connection_info self) (current_edge vehicle)
         (firstn j decision_list) = Some (e, c)
    /\ c <= Z.max (current_speed vehicle) 20
    /\ e <> destination vehicle.

(** ** The recorded distance *)





(** * Facts *)

Lemma eqb_refl {K} `{EqDec K} (x : K) : eqb x x = true.
Proof. destruct (eqb_spec x x); congruence. Qed.

Lemma eqb_eq {K} `{EqDec K} (x y : K) : eqb x y = true <-> x = y.
Proof. destruct (eqb_spec x y); split; congruence. Qed.

Lemma eqb_neq {K} `{EqDec K} (x y : K) : eqb x y = false <-> x <> y.
Proof. destruct (eqb_spec x y); split; congruence. Qed.


(** ** Facts about dicts *)

Section DictFacts.
Context {K V : Type} `{EqDec K}.
Implicit Types (d : dict K V) (k : K) (v : V).
Import Dict.

Lemma mem_get k d : mem k d = true <-> exists v, get k d = Some v.
Proof.
  unfold mem. destruct (get k d); split; intros; eauto; try discriminate.
  destruct H0; discriminate.
Qed.

Lemma mem_false_get k d : mem k d = false <-> get k d = None.
Proof. unfold mem. destruct (get k d); split; congruence. Qed.

Lemma mem_In k d : mem k d = true <-> In k (keys d).
Proof.
  unfold mem. induction d as [|[k' v'] d IH]; simpl.
  - split; [discriminate | tauto].
  - destruct (eqb_spec k k'); subst.
    + split; auto.
    + rewrite IH. split; auto. intros [E|E]; congruence.
Qed.

Lemma get_In k v d : get k d = Some v -> In (k, v) d.
Proof.
  induction d as [|[k' v'] d IH]; simpl; [discriminate|].
  destruct (eqb_spec k k'); subst.
  - intros E; inversion E; auto.
  - auto.
Qed.

Lemma In_get k v d : wf d -> In (k, v) d -> get k d = Some v.
Proof.
  unfold wf. induction d as [|[k' v'] d IH]; simpl; [tauto|].
  intros ND [E|I].
  - inversion E; subst. now rewrite eqb_refl.
  - inversion ND; subst. destruct (eqb_spec k k'); subst.
    + exfalso. apply H2. change k' with (fst (k', v)). now apply in_map.
    + auto.
Qed.

Lemma get_set_same k v d : get k (set k v d) = Some v.
Proof.
  induction d as [|[k' v'] d IH]; simpl.
  - now rewrite eqb_refl.
  - destruct (eqb_spec k k'); simpl.
    + now rewrite eqb_refl.
    + destruct (eqb_spec k k'); congruence.
Qed.

Lemma get_set_other k k' v d : k' <> k -> get k' (set k v d) = get k' d.
Proof.
  intros N. induction d as [|[k1 v1] d IH]; simpl.
  - destruct (eqb_spec k' k); congruence.
  - destruct (eqb_spec k k1); simpl; subst.
    + destruct (eqb_spec k' k1); congruence.
    + destruct (eqb_spec k' k1); congruence.
Qed.

Lemma get_set k k' v d :
  get k' (set k v d) = if eqb k' k then Some v else get k' d.
Proof.
  destruct (eqb_spec k' k); subst.
  - apply get_set_same.
  - now apply get_set_other.
Qed.

Lemma mem_set k k' v d : mem k' (set k v d) = eqb k' k || mem k' d.
Proof. unfold mem. rewrite get_set. now destruct (eqb k' k). Qed.

Lemma keys_set_mem k v d : mem k d = true -> keys (set k v d) = keys d.
Proof.
  unfold mem, keys. induction d as [|[k' v'] d IH]; simpl; [discriminate|].
  destruct (eqb_spec k k'); subst; simpl; auto.
  intros E. now rewrite IH.
Qed.

Lemma keys_set_new k v d : mem k d = false -> keys (set k v d) = keys d ++ [k].
Proof.
  unfold mem, keys. induction d as [|[k' v'] d IH]; simpl; auto.
  destruct (eqb_spec k k'); subst; simpl; [discriminate|].
  intros E. now rewrite IH.
Qed.

Lemma wf_set k v d : wf d -> wf (set k v d).
Proof.
  unfold wf. intros W. destruct (mem k d) eqn:M.
  - now rewrite keys_set_mem.
  - rewrite keys_set_new by assumption.
    apply NoDup_app; auto.
    + constructor; [simpl; tauto | constructor].
    + intros x I [E|[]]; subst.
      apply mem_In in I. congruence.
Qed.

Lemma length_set_mem k v d : mem k d = true -> length (set k v d) = length d.
Proof.
  intros M. apply keys_set_mem with (v := v) in M.
  unfold keys in M. apply (f_equal (@length K)) in M.
  now rewrite !length_map in M.
Qed.

Lemma get_remove_other k k' d : k' <> k -> get k' (remove k d) = get k' d.
Proof.
  intros N. induction d as [|[k1 v1] d IH]; simpl; auto.
  destruct (eqb_spec k k1); simpl; subst.
  - destruct (eqb_spec k' k1); congruence.
  - destruct (eqb_spec k' k1); congruence.
Qed.

Lemma In_keys_remove k k' d : In k' (keys (remove k d)) -> In k' (keys d).
Proof.
  unfold keys. induction d as [|[k1 v1] d IH]; simpl; auto.
  destruct (eqb_spec k k1); simpl; subst; tauto.
Qed.

Lemma wf_remove k d : wf d -> wf (remove k d).
Proof.
  unfold wf, keys. induction d as [|[k1 v1] d IH]; simpl; auto.
  intros ND. inversion ND; subst.
  destruct (eqb_spec k k1); simpl; auto.
  constructor; auto.
  intros I. apply H2. now apply In_keys_remove in I.
Qed.

Lemma get_remove_same k d : wf d -> get k (remove k d) = None.
Proof.
  unfold wf, keys. induction d as [|[k1 v1] d IH]; simpl; auto.
  intros ND. inversion ND; subst.
  destruct (eqb_spec k k1); simpl; subst.
  - apply mem_false_get. destruct (mem k1 d) eqn:M; auto.
    apply mem_In in M. contradiction.
  - destruct (eqb_spec k k1); [congruence | auto].
Qed.

Lemma get_remove k k' d :
  wf d -> get k' (remove k d) = if eqb k' k then None else get k' d.
Proof.
  intros W. destruct (eqb_spec k' k); subst.
  - now apply get_remove_same.
  - now apply get_remove_other.
Qed.

Lemma length_remove k d : mem k d = true -> S (length (remove k d)) = length d.
Proof.
  unfold mem. induction d as [|[k1 v1] d IH]; simpl; [discriminate|].
  destruct (eqb_spec k k1); simpl; auto.
Qed.

Lemma del_Some k d d' :
  del k d = Some d' <-> mem k d = true /\ d' = remove k d.
Proof.
  unfold del. destruct (mem k d); split; intros E;
    try discriminate; try (destruct E; discriminate).
  - inversion E; auto.
  - destruct E; subst; auto.
Qed.

Lemma from_keys_acc_get ks v acc k :
  get k (fold_left (fun d k => set k v d) ks acc)
  = if existsb (eqb k) ks then Some v else get k acc.
Proof.
  revert acc. induction ks as [|a ks IH]; intros acc; simpl; auto.
  rewrite IH, get_set.
  destruct (eqb_spec k a); simpl; auto.
  now destruct (existsb (eqb k) ks).
Qed.

Lemma existsb_eqb_In k (ks : list K) : existsb (eqb k) ks = true <-> In k ks.
Proof.
  rewrite existsb_exists. split.
  - intros (x & I & E). apply eqb_eq in E. now subst.
  - intros I. exists k. split; auto. apply eqb_refl.
Qed.

Lemma get_from_keys_In ks v k : In k ks -> get k (from_keys ks v) = Some v.
Proof.
  intros I. unfold from_keys. rewrite from_keys_acc_get.
  apply existsb_eqb_In in I. now rewrite I.
Qed.

Lemma get_from_keys_notin ks v k : ~ In k ks -> get k (from_keys ks v) = None.
Proof.
  intros I. unfold from_keys. rewrite from_keys_acc_get.
  destruct (existsb (eqb k) ks) eqn:E; auto.
  apply existsb_eqb_In in E. contradiction.
Qed.

Lemma mem_from_keys ks v k : mem k (from_keys ks v) = true <-> In k ks.
Proof.
  unfold mem, from_keys. rewrite from_keys_acc_get.
  destruct (existsb (eqb k) ks) eqn:E.
  - apply existsb_eqb_In in E. tauto.
  - simpl. split; [discriminate|]. intros I.
    apply existsb_eqb_In in I. congruence.
Qed.

Lemma wf_from_keys ks v : wf (from_keys ks v).
Proof.
  unfold from_keys.
  assert (G : forall acc, wf acc -> wf (fold_left (fun d k => set k v d) ks acc)).
  { induction ks as [|a ks IH]; intros acc W; simpl; auto.
    apply IH. now apply wf_set. }
  apply G. constructor.
Qed.

End DictFacts.

Lemma bind_Ret_inv {A B} (m : outcome A) (k : A -> outcome B) b :
  bind m k = Ret b -> exists a, m = Ret a /\ k a = Ret b.
Proof. destruct m; simpl; intros E; try discriminate. eauto. Qed.

Lemma index_Ret {K V} `{EqDec K} (d : dict K V) k v :
  index d k = Ret v <-> Dict.get k d = Some v.
Proof. unfold index. destruct (Dict.get k d); split; congruence. Qed.


Lemma bind_Ret {A B} (a : A) (k : A -> outcome B) : bind (Ret a) k = k a.
Proof. reflexivity. Qed.

Lemma item_Ret {A} (l : list A) i a : item l i = Ret a <-> nth_error l i = Some a.
Proof. unfold item. destruct (nth_error l i); split; congruence. Qed.

(** ** Walks *)

Lemma walk_app ci e p q :
  walk ci e (p ++ q) =
  match walk ci e p with
  | Some (e', c) =>
    match walk ci e' q with
    | Some (e'', c') => Some (e'', c + c')
    | None => None
    end
  | None => None
  end.
Proof.
  revert e. induction p as [|d p IH]; intros e; simpl.
  - destruct (walk ci e q) as [[e'' c']|]; auto.
  - destruct (Dict.get e (outgoing_edges_dict ci)) as [out|]; auto.
    destruct (Dict.get d out) as [e1|]; auto.
    destruct (Dict.get e1 (edge_length_dict ci)) as [len|]; auto.
    rewrite IH.
    destruct (walk ci e1 p) as [[e' c]|]; auto.
    destruct (walk ci e' q) as [[e'' c']|]; auto.
    f_equal. f_equal. lia.
Qed.

Lemma walk_one ci e d :
  walk ci e [d] =
  match Dict.get e (outgoing_edges_dict ci) with
  | Some out =>
    match Dict.get d out with
    | Some e' =>
      match Dict.get e' (edge_length_dict ci) with
      | Some len => Some (e', len)
      | None => None
      end
    | None => None
    end
  | None => None
  end.
Proof.
  simpl. destruct (Dict.get e (outgoing_edges_dict ci)) as [out|]; auto.
  destruct (Dict.get d out) as [e1|]; auto.
  destruct (Dict.get e1 (edge_length_dict ci)) as [len|]; auto.
  f_equal. f_equal. lia.
Qed.

Lemma walk_snoc ci e p d x c out y len :
  walk ci e p = Some (x, c) ->
  Dict.get x (outgoing_edges_dict ci) = Some out ->
  Dict.get d out = Some y ->
  Dict.get y (edge_length_dict ci) = Some len ->
  walk ci e (p ++ [d]) = Some (y, c + len).
Proof.
  intros W O D L. rewrite walk_app, W, walk_one, O, D, L. reflexivity.
Qed.

Lemma walk_snoc_inv ci e p d y c :
  walk ci e (p ++ [d]) = Some (y, c) ->
  exists x c' out len,
    walk ci e p = Some (x, c')
    /\ Dict.get x (outgoing_edges_dict ci) = Some out
    /\ Dict.get d out = Some y
    /\ Dict.get y (edge_length_dict ci) = Some len
    /\ c = c' + len.
Proof.
  rewrite walk_app. destruct (walk ci e p) as [[x c']|]; [|discriminate].
  rewrite walk_one.
  destruct (Dict.get x (outgoing_edges_dict ci)) as [out|] eqn:O; [|discriminate].
  destruct (Dict.get d out) as [y'|] eqn:D; [|discriminate].
  destruct (Dict.get y' (edge_length_dict ci)) as [len|] eqn:L; [|discriminate].
  intros E. inversion E; subst. exists x, c', out, len. auto.
Qed.

Lemma firstn_snoc_nth {A} (l : list A) i a :
  nth_error l i = Some a -> firstn (S i) l = firstn i l ++ [a].
Proof.
  revert i. induction l as [|b l IH]; intros [|i]; simpl; try discriminate.
  - intros E. inversion E. reflexivity.
  - intros E. f_equal. now apply IH.
Qed.

(** ** compute_local_target *)

Section Resolver.
Variable self : RouteController.
Variable decision_list : list direction.
Variable vehicle : Vehicle.
Let ci := connection_info self.

Lemma turnaround_twice_spec i :
  turnaround_twice decision_list i = true <->
  exists j, i = S j /\ nth_error decision_list j = Some TURN_AROUND
            /\ nth_error decision_list (S j) = Some TURN_AROUND.
Proof.
  unfold turnaround_twice. destruct i as [|j].
  - split; [discriminate | intros (j & E & _); discriminate].
  - destruct (nth_error decision_list j) as [a|] eqn:A;
      destruct (nth_error decision_list (S j)) as [b|] eqn:B.
    + rewrite andb_true_iff, !eqb_eq. split.
      * intros [E1 E2]. subst. exists j. auto.
      * intros (j' & E & E1 & E2). inversion E; subst j'.
        rewrite A in E1. rewrite B in E2.
        inversion E1; inversion E2; auto.
    + split; [discriminate|]. intros (j' & E & E1 & E2).
      inversion E; subst j'. congruence.
    + split; [discriminate|]. intros (j' & E & E1 & E2).
      inversion E; subst j'. congruence.
    + split; [discriminate|]. intros (j' & E & E1 & E2).
      inversion E; subst j'. congruence.
Qed.

(** The loop keeps [current_target_edge] and [path_length] equal to the end
    and the length of the walk along the decisions applied so far. *)
Lemma compute_local_target_loop_sound fuel : forall cur pl i r,
  walk ci (current_edge vehicle) (firstn i decision_list) = Some (cur, pl) ->
  compute_local_target_loop fuel self decision_list vehicle cur pl i = Ret r ->
  walk ci (current_edge vehicle) (firstn (consumed r) decision_list)
  = Some (r_target r, r_path_length r)
  /\ (i <= r_i r)%nat
  /\ exit_justified self decision_list vehicle r.
Proof.
  induction fuel as [|fuel IH]; intros cur pl i r W E; simpl in E;
    [discriminate|].
  destruct (pl <=? Z.max (current_speed vehicle) 20) eqn:Look.
  2:{ inversion E; subst; clear E. unfold consumed, exit_justified; simpl.
      apply Z.leb_gt in Look. auto. }
  destruct (eqb_spec cur (destination vehicle)) as [Dst|Dst].
  { inversion E; subst; clear E. unfold consumed, exit_justified; simpl. auto. }
  destruct (length decision_list <=? i)%nat eqn:Len.
  { inversion E; subst; clear E. unfold consumed, exit_justified; simpl.
    apply Nat.leb_le in Len. auto. }
  apply bind_Ret_inv in E. destruct E as (choice & C & E).
  apply item_Ret in C.
  apply bind_Ret_inv in E. destruct E as (out & O & E).
  apply index_Ret in O. fold ci in O.
  destruct (Dict.mem choice out) eqn:M; simpl in E.
  2:{ inversion E; subst; clear E. unfold consumed, exit_justified; simpl.
      repeat split; auto. exists choice, out. auto. }
  apply bind_Ret_inv in E. destruct E as (next & Nx & E).
  apply index_Ret in Nx.
  apply bind_Ret_inv in E. destruct E as (len & L & E).
  apply index_Ret in L. fold ci in L.
  assert (W' : walk ci (current_edge vehicle) (firstn (S i) decision_list)
               = Some (next, pl + len)).
  { rewrite (firstn_snoc_nth _ _ _ C). eapply walk_snoc; eauto. }
  destruct (turnaround_twice decision_list i) eqn:T.
  - inversion E; subst; clear E. unfold consumed, exit_justified; simpl.
    repeat split; auto. now apply turnaround_twice_spec.
  - apply IH in E; auto. destruct E as (E1 & E2 & E3).
    repeat split; auto. lia.
Qed.

(** The fuel of [resolve] is enough: the loop is never cut short. *)
Lemma compute_local_target_loop_fuel fuel : forall cur pl i,
  (i <= length decision_list < fuel + i)%nat ->
  compute_local_target_loop fuel self decision_list vehicle cur pl i
  <> OutOfFuel.
Proof.
  induction fuel as [|fuel IH]; intros cur pl i F; simpl.
  - lia.
  - destruct (pl <=? Z.max (current_speed vehicle) 20); [|discriminate].
    destruct (eqb cur (destination vehicle)); [discriminate|].
    destruct (length decision_list <=? i)%nat eqn:Len; [discriminate|].
    apply Nat.leb_gt in Len.
    destruct (item decision_list i) as [choice| |] eqn:C; simpl;
      try discriminate.
    2:{ unfold item in C. destruct (nth_error decision_list i); discriminate. }
    unfold index.
    destruct (Dict.get cur (outgoing_edges_dict (connection_info self)))
      as [out|]; simpl; [|discriminate].
    destruct (Dict.mem choice out); simpl; [|discriminate].
    destruct (Dict.get choice out) as [next|]; simpl; [|discriminate].
    destruct (Dict.get next (edge_length_dict (connection_info self)))
      as [len|]; simpl; [|discriminate].
    destruct (turnaround_twice decision_list i); [discriminate|].
    apply IH. lia.
Qed.

Lemma resolve_fuel : resolve self decision_list vehicle <> OutOfFuel.
Proof. unfold resolve. apply compute_local_target_loop_fuel. lia. Qed.

Lemma resolve_sound r :
  resolve self decision_list vehicle = Ret r ->
  walk ci (current_edge vehicle) (firstn (consumed r) decision_list)
  = Some (r_target r, r_path_length r)
  /\ exit_justified self decision_list vehicle r.
Proof.
  intros E. unfold resolve in E.
  apply compute_local_target_loop_sound in E; [tauto | reflexivity].
Qed.

Lemma compute_local_target_resolve e :
  compute_local_target self decision_list vehicle = Ret e <->
  exists r, resolve self decision_list vehicle = Ret r /\ r_target r = e.
Proof.
  unfold compute_local_target. split.
  - intros E. apply bind_Ret_inv in E. destruct E as (r & R & E).
    inversion E. eauto.
  - intros (r & R & E). rewrite R. simpl. now subst.
Qed.

End Resolver.

(** ** The lookahead of the local target *)

(** C1, as stated, fails: with an empty decision list and a vehicle that is
    not on its destination edge, line 60 raises the warning, line 79 catches
    it, and the current edge is returned at path length 0, below the
    lookahead of 20; it is not the destination either. *)
Lemma C1_counterexample :
  resolve (init (diamond LEFT RIGHT STRAIGHT STRAIGHT 0 5)) []
          (car "A" "D" 0 5)
  = Ret {| r_target := "A"%string; r_path_length := 0; r_i := 0;
           r_exit := NotEnoughDecisions |}
  /\ compute_local_target (init (diamond LEFT RIGHT STRAIGHT STRAIGHT 0 5)) []
                          (car "A" "D" 0 5) = Ret "A"%string
  /\ 0 < Z.max (current_speed (car "A" "D" 0 5)) 20
  /\ "A"%string <> destination (car "A" "D" 0 5).
Proof.
  repeat split; try reflexivity. discriminate.
Qed.

(** C1 (amended): the edge returned by [compute_local_target] is the end of
    the walk along the decisions that were applied, [path_length] is the
    cumulative length of that walk, and either [path_length] is strictly
    greater than [max(vehicle.current_speed, 20)], or the edge is the
    destination, or the walk was cut short by one of the three guards: the
    decision list ran out, the next decision is not in the outgoing map of
    the edge reached, or two consecutive TURN_AROUND were applied. *)
Theorem C1_local_target_lookahead self decision_list vehicle e :
  compute_local_target self decision_list vehicle = Ret e ->
  exists r,
    resolve self decision_list vehicle = Ret r
    /\ r_target r = e
    /\ walk (connection_info self) (current_edge vehicle)
            (firstn (consumed r) decision_list)
       = Some (e, r_path_length r)
    /\ exit_justified self decision_list vehicle r
    /\ (Z.max (current_speed vehicle) 20 < r_path_length r
        \/ e = destination vehicle
        \/ r_exit r = NotEnoughDecisions
        \/ r_exit r = InvalidDirection
        \/ r_exit r = TurnaroundLoop).
Proof.
  intros E. apply compute_local_target_resolve in E.
  destruct E as (r & R & E). exists r.
  destruct (resolve_sound _ _ _ _ R) as [W J]. subst e.
  repeat split; auto.
  unfold exit_justified in J. destruct (r_exit r); auto.
Qed.

Lemma C1_local_target_lookahead_witness :
  compute_local_target (init (diamond LEFT RIGHT STRAIGHT STRAIGHT 0 5))
                       [LEFT; STRAIGHT; STRAIGHT] (car "A" "D" 0 5)
  = Ret "D"%string
  /\ exists r,
    resolve (init (diamond LEFT RIGHT STRAIGHT STRAIGHT 0 5))
            [LEFT; STRAIGHT; STRAIGHT] (car "A" "D" 0 5) = Ret r
    /\ r_target r = "D"%string
    /\ walk (connection_info (init (diamond LEFT RIGHT STRAIGHT STRAIGHT 0 5)))
            (current_edge (car "A" "D" 0 5))
            (firstn (consumed r) [LEFT; STRAIGHT; STRAIGHT])
       = Some ("D"%string, r_path_length r)
    /\ exit_justified (init (diamond LEFT RIGHT STRAIGHT STRAIGHT 0 5))
                      [LEFT; STRAIGHT; STRAIGHT] (car "A" "D" 0 5) r
    /\ (Z.max (current_speed (car "A" "D" 0 5)) 20 < r_path_length r
        \/ "D"%string = destination (car "A" "D" 0 5)
        \/ r_exit r = NotEnoughDecisions
        \/ r_exit r = InvalidDirection
        \/ r_exit r = TurnaroundLoop).
Proof.
  split; [reflexivity|].
  apply (@C1_local_target_lookahead
           (init (diamond LEFT RIGHT STRAIGHT STRAIGHT 0 5))
           [LEFT; STRAIGHT; STRAIGHT] (car "A" "D" 0 5) "D"%string).
  reflexivity.
Defined.

(** ** Two consecutive TURN_AROUND *)

Section TurnaroundLoop.
Variable self : RouteController.
Variable decision_list : list direction.
Variable vehicle : Vehicle.
Variable m : nat.
Hypothesis twice : turnaround_twice decision_list m = true.
Let ci := connection_info self.


Lemma walk_firstn_prefix e0 i j e c :
  (i <= j)%nat ->
  walk ci e0 (firstn j decision_list) = Some (e, c) ->
  exists e' c', walk ci e0 (firstn i decision_list) = Some (e', c').
Proof.
  intros Le W.
  rewrite <- (firstn_skipn i (firstn j decision_list)) in W.
  rewrite firstn_firstn, Nat.min_l in W by lia.
  rewrite walk_app in W.
  destruct (walk ci e0 (firstn i decision_list)) as [[e' c']|];
    [eauto | discriminate].
Qed.


End TurnaroundLoop.



(** ** Loops and sorting *)

(** An invariant indexed by the items already seen carries through a for
    loop whose body returns on every item. *)
Lemma for_each_invariant {A S} (body : S -> A -> outcome S)
  (I : list A -> S -> Prop) (l : list A) (s0 : S) :
  I [] s0 ->
  (forall pre a s, (exists post, l = pre ++ a :: post) -> I pre s ->
                   exists s', body s a = Ret s' /\ I (pre ++ [a]) s') ->
  exists s', for_each body l s0 = Ret s' /\ I l s'.
Proof.
  intros I0 Step.
  assert (G : forall post pre s,
             l = pre ++ post -> I pre s ->
             exists s', for_each body post s = Ret s' /\ I l s').
  { induction post as [|a post IH]; intros pre s E Ipre; simpl.
    - rewrite app_nil_r in E. subst. eauto.
    - destruct (Step pre a s) as (s1 & B & I1); eauto.
      rewrite B. simpl. apply (IH (pre ++ [a])); auto.
      rewrite <- app_assoc. exact E. }
  apply (G l [] s0); auto.
Qed.

Lemma insert_by_distance_In x a l :
  In x (insert_by_distance a l) <-> x = a \/ In x l.
Proof.
  induction l as [|y l IH]; simpl.
  - intuition congruence.
  - destruct (snd a <=? snd y); simpl.
    + intuition congruence.
    + rewrite IH. intuition congruence.
Qed.

Lemma sorted_In x l : In x (sorted l) <-> In x l.
Proof.
  unfold sorted. induction l as [|a l IH]; simpl; [tauto|].
  rewrite insert_by_distance_In, IH. intuition congruence.
Qed.

Definition head_least (l : list (edge * Z)) : Prop :=
  match l with
  | [] => True
  | x :: r => forall y, In y r -> snd x <= snd y
  end.

Lemma insert_by_distance_head_least a l :
  head_least l -> head_least (insert_by_distance a l).
Proof.
  destruct l as [|y l]; simpl.
  - tauto.
  - intros Hy. destruct (snd a <=? snd y) eqn:Le; simpl.
    + apply Z.leb_le in Le. intros z [E|I]; subst; auto.
      specialize (Hy z I). lia.
    + apply Z.leb_gt in Le. intros z I.
      apply insert_by_distance_In in I. destruct I as [E|I]; subst.
      * lia.
      * auto.
Qed.

Lemma sorted_head_least l : head_least (sorted l).
Proof.
  unfold sorted. induction l as [|a l IH]; simpl; auto.
  now apply insert_by_distance_head_least.
Qed.

(** [sorted(l)[0]] exists when [l] is not empty; it is an item of [l] with
    the least distance. *)
Lemma sorted_first l :
  l <> [] ->
  exists x, item (sorted l) 0 = Ret x /\ In x l
            /\ forall y, In y l -> snd x <= snd y.
Proof.
  intros N. pose proof (sorted_head_least l) as HL.
  destruct (sorted l) as [|x r] eqn:E.
  - destruct l as [|a l]; [congruence|].
    assert (I : In a (sorted (a :: l))) by (apply sorted_In; now left).
    rewrite E in I. destruct I.
  - exists x. split; [reflexivity|]. split.
    + apply sorted_In. rewrite E. now left.
    + intros y I. apply sorted_In in I. rewrite E in I.
      destruct I as [Eq|I]; [subst; lia|]. now apply HL.
Qed.

(** ** Well-formed topologies *)

Lemma listed_In ci e : listed ci e = true <-> In e (edge_list ci).
Proof. unfold listed. apply existsb_eqb_In. Qed.

Lemma distinct_NoDup {K} `{EqDec K} (l : list K) :
  distinct l = true -> NoDup l.
Proof.
  induction l as [|k l IH]; simpl; [constructor|].
  rewrite andb_true_iff, negb_true_iff. intros [N D].
  constructor; auto.
  intros I. apply existsb_eqb_In in I. congruence.
Qed.

Lemma topology_snapshot_edge ci e :
  topology_snapshot ci = true -> In e (edge_list ci) ->
  exists out,
    Dict.get e (outgoing_edges_dict ci) = Some out
    /\ Dict.wf out
    /\ (forall d e', In (d, e') out -> In e' (edge_list ci))
    /\ Dict.mem e (edge_length_dict ci) = true
    /\ Dict.mem e (edge_vehicle_count ci) = true.
Proof.
  unfold topology_snapshot. rewrite forallb_forall. intros T I.
  specialize (T e I). unfold edge_ok in T.
  rewrite !andb_true_iff in T. destruct T as [[T1 T2] T3].
  destruct (Dict.get e (outgoing_edges_dict ci)) as [out|]; [|discriminate].
  rewrite andb_true_iff in T1. destruct T1 as [D F].
  exists out. repeat split; auto.
  - now apply distinct_NoDup.
  - intros d e' I'. rewrite forallb_forall in F.
    apply listed_In. apply (F (d, e') I').
Qed.

Lemma topology_snapshot_next ci e out d e' :
  topology_snapshot ci = true -> In e (edge_list ci) ->
  Dict.get e (outgoing_edges_dict ci) = Some out ->
  Dict.get d out = Some e' ->
  In e' (edge_list ci).
Proof.
  intros T I O D.
  destruct (topology_snapshot_edge _ _ T I) as (out' & O' & _ & C & _).
  rewrite O in O'. inversion O'; subst out'.
  apply (C d). now apply get_In.
Qed.

Lemma positive_lengths_edge ci e :
  positive_lengths ci = true -> In e (edge_list ci) ->
  exists len, Dict.get e (edge_length_dict ci) = Some len /\ 0 < len.
Proof.
  unfold positive_lengths. rewrite forallb_forall. intros P I.
  specialize (P e I).
  destruct (Dict.get e (edge_length_dict ci)) as [len|]; [|discriminate].
  exists len. split; auto. now apply Z.ltb_lt.
Qed.

(** A walk on a well-formed topology stays on listed edges; with positive
    lengths its length is not negative. *)
Lemma walk_listed ci :
  topology_snapshot ci = true ->
  forall p e e' c,
    In e (edge_list ci) -> walk ci e p = Some (e', c) -> In e' (edge_list ci).
Proof.
  intros T. induction p as [|d p IH]; intros e e' c I W; simpl in W.
  - inversion W; subst; auto.
  - destruct (Dict.get e (outgoing_edges_dict ci)) as [out|] eqn:O;
      [|discriminate].
    destruct (Dict.get d out) as [e1|] eqn:D; [|discriminate].
    destruct (Dict.get e1 (edge_length_dict ci)) as [len|]; [|discriminate].
    destruct (walk ci e1 p) as [[e2 c2]|] eqn:W1; [|discriminate].
    inversion W; subst. apply (IH e1 e' c2); auto.
    eapply topology_snapshot_next; eauto.
Qed.

Lemma walk_nonneg ci :
  topology_snapshot ci = true -> positive_lengths ci = true ->
  forall p e e' c,
    In e (edge_list ci) -> walk ci e p = Some (e', c) -> 0 <= c.
Proof.
  intros T P. induction p as [|d p IH]; intros e e' c I W; simpl in W.
  - inversion W; subst; lia.
  - destruct (Dict.get e (outgoing_edges_dict ci)) as [out|] eqn:O;
      [|discriminate].
    destruct (Dict.get d out) as [e1|] eqn:D; [|discriminate].
    destruct (Dict.get e1 (edge_length_dict ci)) as [len|] eqn:L;
      [|discriminate].
    destruct (walk ci e1 p) as [[e2 c2]|] eqn:W1; [|discriminate].
    inversion W; subst.
    assert (I1 : In e1 (edge_list ci))
      by (eapply topology_snapshot_next; eauto).
    destruct (positive_lengths_edge _ _ P I1) as (len' & L' & Pos).
    rewrite L in L'. inversion L'; subst len'.
    specialize (IH _ _ _ I1 W1). lia.
Qed.

Lemma mem_keys_eq {K V W} `{EqDec K} (d1 : dict K V) (d2 : dict K W) k :
  Dict.keys d1 = Dict.keys d2 -> Dict.mem k d1 = Dict.mem k d2.
Proof.
  intros E. destruct (Dict.mem k d2) eqn:M.
  - apply mem_In. rewrite E. now apply mem_In.
  - destruct (Dict.mem k d1) eqn:M1; auto.
    apply mem_In in M1. rewrite E in M1. apply mem_In in M1. congruence.
Qed.

Lemma wf_keys_eq {K V W} `{EqDec K} (d1 : dict K V) (d2 : dict K W) :
  Dict.keys d1 = Dict.keys d2 -> Dict.wf d2 -> Dict.wf d1.
Proof. unfold Dict.wf. now intros ->. Qed.

(** ** The search of find_route *)

Section Search.
Variable self : RouteController.
Let ci := connection_info self.
Variable start : edge.
Variable len0 : Z.
Hypothesis Topo : topology_snapshot ci = true.
Hypothesis Pos : positive_lengths ci = true.
Hypothesis start_listed : In start (edge_list ci).
Hypothesis start_length : Dict.get start (edge_length_dict ci) = Some len0.

(** The label [d] of [e] and its recorded path agree: the path walks from
    the start to [e] over [d] less the start's own length, or [e] was never
    relaxed. *)
Definition labelled (P : dict edge (list direction)) (e : edge) (d : Z)
  : Prop :=
  (exists p, Dict.get e P = Some p /\ walk ci start p = Some (e, d - len0))
  \/ (d = unreached /\ Dict.get e P = Some [] /\ e <> start).

Section Relax.
Variable cur : edge.
Variable cd : Z.
Variable U : dict edge Z.
Variable P : dict edge (list direction).
Variable pcur : list direction.
Hypothesis U_listed : forall e, Dict.mem e U = true -> In e (edge_list ci).
Hypothesis cur_label : Dict.get cur U = Some cd.
Hypothesis cur_path : Dict.get cur P = Some pcur.

(** What holds of [unvisited] and [path_lists] after the items [pre] of the
    for loop of lines 109-118. *)
Definition relaxed (pre : list (direction * edge))
  (st : dict edge Z * dict edge (list direction)) : Prop :=
  Dict.keys (fst st) = Dict.keys U
  /\ (forall e, Dict.mem e P = true -> Dict.mem e (snd st) = true)
  /\ (forall y,
         (Dict.get y (fst st) = Dict.get y U
          /\ Dict.get y (snd st) = Dict.get y P)
         \/ exists d ly old,
             In (d, y) pre
             /\ Dict.get y (edge_length_dict ci) = Some ly
             /\ Dict.get y (fst st) = Some (cd + ly)
             /\ Dict.get y (snd st) = Some (pcur ++ [d])
             /\ Dict.get y U = Some old
             /\ cd + ly < old)
  /\ (forall d y ly dy',
         In (d, y) pre ->
         Dict.get y (edge_length_dict ci) = Some ly ->
         Dict.get y (fst st) = Some dy' ->
         dy' <= cd + ly).

Lemma relaxed_cur_path pre st :
  relaxed pre st -> Dict.get cur (snd st) = Some pcur.
Proof.
  intros (_ & _ & R & _). destruct (R cur) as [[_ E]|(d & ly & old & _ & L & _ & _ & O & Lt)].
  - congruence.
  - exfalso. rewrite cur_label in O. inversion O; subst old.
    assert (I : In cur (edge_list ci)).
    { apply U_listed. apply mem_get. eauto. }
    destruct (positive_lengths_edge _ _ Pos I) as (len & L' & Hp).
    rewrite L in L'. inversion L'; subst. lia.
Qed.

Lemma relax_step pre it st :
  relaxed pre st ->
  exists st', relax ci cur cd st it = Ret st' /\ relaxed (pre ++ [it]) st'.
Proof.
  intros R. pose proof (relaxed_cur_path _ _ R) as CP.
  destruct R as (RK & RP & RC & RL).
  destruct st as [U' P']. destruct it as [d y]. simpl in *.
  destruct (Dict.mem y U') eqn:M; simpl.
  - (* the outgoing edge is unvisited *)
    assert (I : In y (edge_list ci)).
    { apply U_listed. rewrite <- (mem_keys_eq U' U y RK). exact M. }
    destruct (positive_lengths_edge _ _ Pos I) as (ly & L & Hp).
    unfold index at 1. rewrite L. simpl.
    apply mem_get in M. destruct M as (old' & O').
    unfold index at 1. rewrite O'. simpl.
    destruct (cd + ly <? old') eqn:Lt.
    + apply Z.ltb_lt in Lt.
      unfold index. rewrite CP. simpl.
      eexists. split; [reflexivity|]. unfold relaxed; simpl.
      split; [|split; [|split]].
      * rewrite keys_set_mem; auto. apply mem_get; eauto.
      * intros e Me. rewrite mem_set. rewrite (RP e Me). apply orb_true_r.
      * intros y'. destruct (eqb_spec y' y) as [->|Ny].
        -- right. exists d, ly.
           destruct (RC y) as [[E1 _]|(d2 & ly2 & old & _ & L2 & E2 & _ & _ & _)].
           ++ exists old'. rewrite !get_set_same.
              repeat split; auto.
              ** apply in_or_app. right. now left.
              ** congruence.
           ++ exfalso. rewrite L in L2. inversion L2; subst ly2.
              rewrite O' in E2. inversion E2. lia.
        -- rewrite !get_set_other by assumption.
           destruct (RC y') as [E|(d2 & ly2 & old & I2 & R2)].
           ++ now left.
           ++ right. exists d2, ly2, old. split; auto.
              apply in_or_app. now left.
      * intros d2 y2 ly2 dy' I2 L2 G2.
        destruct (eqb_spec y2 y) as [->|Ny].
        -- rewrite get_set_same in G2. inversion G2; subst.
           rewrite L in L2. inversion L2; subst. lia.
        -- rewrite get_set_other in G2 by assumption.
           apply in_app_or in I2. destruct I2 as [I2|[E|[]]].
           ++ eapply RL; eauto.
           ++ inversion E; subst. congruence.
    + apply Z.ltb_ge in Lt.
      eexists. split; [reflexivity|]. unfold relaxed; simpl.
      split; [|split; [|split]]; auto.
      * intros y'. destruct (RC y') as [E|(d2 & ly2 & old & I2 & R2)].
        -- now left.
        -- right. exists d2, ly2, old. split; auto.
           apply in_or_app. now left.
      * intros d2 y2 ly2 dy' I2 L2 G2.
        apply in_app_or in I2. destruct I2 as [I2|[E|[]]].
        -- eapply RL; eauto.
        -- inversion E; subst. rewrite L in L2. inversion L2; subst.
           rewrite O' in G2. inversion G2; subst. lia.
  - (* continue, line 111 *)
    eexists. split; [reflexivity|]. unfold relaxed; simpl.
    split; [|split; [|split]]; auto.
    + intros y'. destruct (RC y') as [E|(d2 & ly2 & old & I2 & R2)].
      * now left.
      * right. exists d2, ly2, old. split; auto.
        apply in_or_app. now left.
    + intros d2 y2 ly2 dy' I2 L2 G2.
      apply in_app_or in I2. destruct I2 as [I2|[E|[]]].
      * eapply RL; eauto.
      * inversion E; subst.
        apply mem_false_get in M. congruence.
Qed.

Lemma relax_all (its : list (direction * edge)) :
  exists st,
    for_each (relax ci cur cd) its (U, P) = Ret st /\ relaxed its st.
Proof.
  apply (@for_each_invariant _ _ (relax ci cur cd) relaxed its (U, P)).
  - unfold relaxed; simpl. repeat split; auto.
    intros d y ly dy' [].
  - intros pre a st _ R. now apply relax_step.
Qed.

End Relax.

Lemma labelled_ext P P' e d :
  Dict.get e P' = Dict.get e P -> labelled P e d -> labelled P' e d.
Proof. unfold labelled. intros ->. auto. Qed.

Lemma get_remove_Some {K V} `{EqDec K} (d : dict K V) k k' v :
  Dict.wf d -> Dict.get k' (Dict.remove k d) = Some v ->
  k' <> k /\ Dict.get k' d = Some v.
Proof.
  intros W G. rewrite get_remove in G by assumption.
  destruct (eqb_spec k' k); [discriminate | auto].
Qed.

(** What holds of [unvisited], [visited] and [path_lists] between two
    turns of the loop; the last two hold when the start's length does not
    exceed the initial label of the other edges. *)
Record frozen (U Vd : dict edge Z) (P : dict edge (list direction))
  : Prop := {
  fz_wf : Dict.wf U;
  fz_listed : forall e, Dict.mem e U = true -> In e (edge_list ci);
  fz_paths : forall e, In e (edge_list ci) -> Dict.mem e P = true;
  fz_pos : forall e d, Dict.get e U = Some d -> 0 < d;
  fz_part : forall e, In e (edge_list ci) ->
                      Dict.mem e U = true \/ Dict.mem e Vd = true;
  fz_disj : forall e, Dict.mem e U = true -> Dict.mem e Vd = false;
  fz_cap : forall e d, Dict.get e U = Some d -> d <= unreached \/ e = start;
  fz_label : forall e d, Dict.get e U = Some d -> labelled P e d;
  fz_settled : forall e d, Dict.get e Vd = Some d -> labelled P e d;
  fz_opt_settled :
    len0 <= unreached ->
    forall x dx q c,
      Dict.get x Vd = Some dx -> walk ci start q = Some (x, c) ->
      dx <= len0 + c;
  fz_opt_relaxed :
    len0 <= unreached ->
    forall x dx out d y ly dy,
      Dict.get x Vd = Some dx ->
      Dict.get x (outgoing_edges_dict ci) = Some out ->
      Dict.get d out = Some y ->
      Dict.get y (edge_length_dict ci) = Some ly ->
      Dict.get y U = Some dy ->
      dy <= dx + ly
}.

(** At the head of the loop. *)
Record inv (s : search) : Prop := {
  inv_frozen : frozen (s_unvisited s) (s_visited s) (s_path_lists s);
  inv_cur : Dict.get (s_current_edge s) (s_unvisited s)
            = Some (s_current_distance s);
  inv_start : Dict.mem start (s_visited s) = true
              \/ (s_current_edge s = start /\ s_current_distance s = len0);
  inv_min : len0 <= unreached ->
            forall y dy, Dict.get y (s_unvisited s) = Some dy ->
                         s_current_distance s <= dy
}.

(** After line 122. *)
Record post (s : search) : Prop := {
  post_frozen : frozen (s_unvisited s) (s_visited s) (s_path_lists s);
  post_cur : Dict.get (s_current_edge s) (s_visited s)
             = Some (s_current_distance s);
  post_start : Dict.mem start (s_visited s) = true
}.

Arguments fz_wf [U Vd P] f.
Arguments fz_listed [U Vd P] f e _.
Arguments fz_paths [U Vd P] f e _.
Arguments fz_pos [U Vd P] f e d _.
Arguments fz_part [U Vd P] f e _.
Arguments fz_disj [U Vd P] f e _.
Arguments fz_cap [U Vd P] f e d _.
Arguments fz_label [U Vd P] f e d _.
Arguments fz_settled [U Vd P] f e d _.
Arguments fz_opt_settled [U Vd P] f _ x dx q c _ _.
Arguments fz_opt_relaxed [U Vd P] f _ x dx out d y ly dy _ _ _ _ _.
Arguments inv_frozen [s] i.
Arguments inv_cur [s] i.
Arguments inv_start [s] i.
Arguments inv_min [s] i _ y dy _.
Arguments post_frozen [s] p.
Arguments post_cur [s] p.
Arguments post_start [s] p.

(** A walk from the start that ends on an edge not yet visited costs at
    least the label of some unvisited edge. *)
Lemma frontier U Vd P :
  frozen U Vd P ->
  Dict.mem start Vd = true \/ Dict.get start U = Some len0 ->
  len0 <= unreached ->
  forall q u c,
    walk ci start q = Some (u, c) -> Dict.mem u Vd = false ->
    exists y dy, Dict.get y U = Some dy /\ dy <= len0 + c.
Proof.
  intros F S H. induction q as [|d q IH] using rev_ind; intros u c W NV.
  - simpl in W. inversion W; subst u c.
    destruct S as [S|S]; [congruence|].
    exists start, len0. split; auto. lia.
  - apply walk_snoc_inv in W.
    destruct W as (x & c' & out & len & Wx & O & D & L & ->).
    assert (Ix : In x (edge_list ci)) by (eapply walk_listed; eauto).
    assert (Iu : In u (edge_list ci))
      by (eapply topology_snapshot_next; eauto).
    destruct (positive_lengths_edge _ _ Pos Iu) as (len' & L' & Hp).
    rewrite L in L'. inversion L'; subst len'.
    destruct (Dict.mem x Vd) eqn:Mx.
    + apply mem_get in Mx. destruct Mx as (dx & Gx).
      destruct (fz_part F _ Iu) as [Mu|Mu]; [|congruence].
      apply mem_get in Mu. destruct Mu as (du & Gu).
      exists u, du. split; auto.
      pose proof (fz_opt_settled F H _ _ _ _ Gx Wx).
      pose proof (fz_opt_relaxed F H _ _ _ _ _ _ _ Gx O D L Gu). lia.
    + destruct (IH x c' Wx Mx) as (y & dy & Gy & Le).
      exists y, dy. split; auto. lia.
Qed.

Lemma settle_spec s :
  inv s ->
  exists s1,
    settle ci s = Ret s1 /\ post s1
    /\ s_current_edge s1 = s_current_edge s
    /\ s_current_distance s1 = s_current_distance s
    /\ S (length (s_unvisited s1)) = length (s_unvisited s)
    /\ (forall e, e <> s_current_edge s ->
                  Dict.mem e (s_unvisited s) = true ->
                  Dict.mem e (s_unvisited s1) = true).
Proof.
  intros [F C St Mn].
  destruct s as [U Vd P cur cd]. simpl in *.
  assert (Mc : Dict.mem cur U = true) by (apply mem_get; eauto).
  assert (Ic : In cur (edge_list ci)) by (apply (fz_listed F); auto).
  destruct (topology_snapshot_edge _ _ Topo Ic) as (out & O & Wout & Cl & _).
  pose proof (fz_paths F _ Ic) as Mp. apply mem_get in Mp.
  destruct Mp as (pcur & Gp).
  destruct (@relax_all cur cd U P pcur (fz_listed F) C Gp (Dict.items out))
    as (st & FE & R).
  pose proof (@relaxed_cur_path cur cd U P pcur (fz_listed F) C Gp _ _ R) as CP.
  destruct R as (RK & RP & RC & RL).
  destruct st as [U' P']. simpl in *.
  assert (Mc' : Dict.mem cur U' = true)
    by (rewrite (mem_keys_eq U' U cur RK); exact Mc).
  assert (WU' : Dict.wf U') by (eapply wf_keys_eq; eauto; apply (fz_wf F)).
  assert (Hcd : 0 < cd) by (eapply (fz_pos F); eauto).
  assert (Mono : forall y dy', Dict.get y U' = Some dy' ->
                   exists dy, Dict.get y U = Some dy /\ dy' <= dy /\ 0 < dy').
  { intros y dy' G.
    destruct (RC y) as [[E _]|(d & ly & old & I & L & E & _ & Go & Lt)].
    - exists dy'. rewrite <- E. repeat split; auto; try lia.
      eapply (fz_pos F). rewrite <- E. exact G.
    - exists old. rewrite G in E. inversion E; subst dy'.
      repeat split; auto; try lia.
      assert (Iy : In y (edge_list ci)).
      { apply (fz_listed F). apply mem_get. eauto. }
      destruct (positive_lengths_edge _ _ Pos Iy) as (len & L' & Hp).
      rewrite L in L'. inversion L'; subst. lia. }
  exists {| s_unvisited := Dict.remove cur U';
            s_visited := Dict.set cur cd Vd;
            s_path_lists := P';
            s_current_edge := cur; s_current_distance := cd |}.
  split.
  { unfold settle; simpl. unfold index. fold ci. rewrite O. simpl.
    unfold Dict.items in FE. unfold Dict.items. rewrite FE. simpl.
    unfold delete, Dict.del. rewrite Mc'. reflexivity. }
  simpl. split; [|split; [reflexivity|split; [reflexivity|split]]].
  2:{ rewrite length_remove by assumption.
      apply (f_equal (@length edge)) in RK. unfold Dict.keys in RK.
      now rewrite !length_map in RK. }
  2:{ intros e Ne Me. rewrite <- (mem_keys_eq U' U e RK) in Me.
      unfold Dict.mem in *. now rewrite get_remove_other. }
  constructor; simpl.
  2:{ apply get_set_same. }
  2:{ rewrite mem_set. destruct St as [St|[St _]].
      - rewrite St. apply orb_true_r.
      - subst cur. now rewrite eqb_refl. }
  constructor.
  - now apply wf_remove.
  - intros e Me. apply mem_get in Me. destruct Me as (v & G).
    apply get_remove_Some in G; auto. destruct G as [_ G].
    apply (fz_listed F). rewrite <- (mem_keys_eq U' U e RK).
    apply mem_get. eauto.
  - intros e Ie. apply RP. now apply (fz_paths F).
  - intros e d G. apply get_remove_Some in G; auto. destruct G as [_ G].
    destruct (Mono _ _ G) as (dy & _ & _ & Hp). exact Hp.
  - intros e Ie. rewrite mem_set.
    destruct (eqb_spec e cur) as [->|Ne]; [now right|]. simpl.
    destruct (fz_part F _ Ie) as [Me|Me]; [left|now right].
    rewrite <- (mem_keys_eq U' U e RK) in Me.
    unfold Dict.mem in *. now rewrite get_remove_other.
  - intros e Me. apply mem_get in Me. destruct Me as (v & G).
    apply get_remove_Some in G; auto. destruct G as [Ne G].
    rewrite mem_set. apply eqb_neq in Ne. rewrite Ne. simpl.
    apply (fz_disj F). rewrite <- (mem_keys_eq U' U e RK).
    apply mem_get. eauto.
  - intros e d G. apply get_remove_Some in G; auto. destruct G as [_ G].
    destruct (RC e) as [[E _]|(dr & ly & old & I & L & E & _ & Go & Lt)].
    + apply (fz_cap F). now rewrite <- E.
    + rewrite G in E. inversion E; subst d.
      destruct (fz_cap F _ _ Go) as [Le|Es]; [left; lia | now right].
  - intros e d G. apply get_remove_Some in G; auto. destruct G as [Ne G].
    destruct (RC e) as [[E E']|(dr & ly & old & I & L & E & Ep & Go & Lt)].
    + apply labelled_ext with (P := P); auto.
      apply (fz_label F). now rewrite <- E.
    + rewrite G in E. inversion E; subst d.
      assert (Iy : In e (edge_list ci)).
      { apply (fz_listed F). apply mem_get. eauto. }
      destruct (positive_lengths_edge _ _ Pos Iy) as (len & L' & Hp).
      rewrite L in L'. inversion L'; subst len.
      destruct (fz_label F _ _ C) as [(p & Gp' & Wp)|(Eu & _ & Ns)].
      * left. exists (pcur ++ [dr]). split; auto.
        rewrite Gp in Gp'. inversion Gp'; subst p.
        replace (cd + ly - len0) with (cd - len0 + ly) by lia.
        eapply walk_snoc; eauto. apply In_get; auto.
      * exfalso. destruct St as [St|[St _]]; [|congruence].
        assert (Me : Dict.mem e U = true) by (apply mem_get; eauto).
        pose proof (fz_disj F _ Me) as NV.
        destruct (fz_cap F _ _ Go) as [Le|Es]; [lia | congruence].
  - intros e d G. rewrite get_set in G.
    destruct (eqb_spec e cur) as [->|Ne].
    + inversion G; subst d.
      apply labelled_ext with (P := P); [congruence|].
      now apply (fz_label F).
    + destruct (RC e) as [[_ E']|(dr & ly & old & I & L & E & Ep & Go & Lt)].
      * apply labelled_ext with (P := P); auto. now apply (fz_settled F).
      * exfalso.
        assert (Me : Dict.mem e U = true) by (apply mem_get; eauto).
        pose proof (fz_disj F _ Me) as NV.
        apply mem_false_get in NV. congruence.
  - intros H x dx q c G W. rewrite get_set in G.
    destruct (eqb_spec x cur) as [->|Ne].
    + inversion G; subst dx.
      destruct (@frontier U Vd P F) with (q := q) (u := cur) (c := c)
        as (y & dy & Gy & Le); auto.
      * destruct St as [St|[-> ->]]; auto.
      * now apply (fz_disj F).
      * specialize (Mn H _ _ Gy). lia.
    + eapply (fz_opt_settled F); eauto.
  - intros H x dx out' d y ly dy G O' D L Gy.
    apply get_remove_Some in Gy; auto. destruct Gy as [Ny Gy].
    rewrite get_set in G.
    destruct (eqb_spec x cur) as [->|Ne].
    + inversion G; subst dx. rewrite O in O'. inversion O'; subst out'.
      apply (RL d y ly dy); auto. now apply get_In.
    + destruct (Mono _ _ Gy) as (dy0 & G0 & Le & _).
      pose proof (fz_opt_relaxed F H _ _ _ _ _ _ _ G O' D L G0). lia.
Qed.

Ltac fields :=
  cbn [s_unvisited s_visited s_path_lists s_current_edge s_current_distance].

Lemma filter_all {A} (f : A -> bool) (l : list A) :
  (forall x, In x l -> f x = true) -> filter f l = l.
Proof.
  induction l as [|a l IH]; intros Hf; simpl; auto.
  rewrite (Hf a) by (now left). f_equal. apply IH.
  intros x I. apply Hf. now right.
Qed.

(** One turn of the loop from a state that satisfies the invariant: either
    the loop is left on the destination, or it goes on with one unvisited
    edge less. *)
Lemma find_route_body_spec dest s :
  inv s -> Dict.mem dest (s_unvisited s) = true ->
  (exists s1, find_route_body self dest s = Ret (Done s1)
              /\ post s1 /\ s_current_edge s1 = dest)
  \/ (exists s2, find_route_body self dest s = Ret (Next s2)
                 /\ inv s2 /\ Dict.mem dest (s_unvisited s2) = true
                 /\ (length (s_unvisited s2) < length (s_unvisited s))%nat).
Proof.
  intros I Md.
  destruct (settle_spec s I) as (s1 & St & Po & Ec & Ed & Len & Keep).
  assert (Mc : Dict.mem (s_current_edge s) (s_unvisited s) = true).
  { apply mem_get. exists (s_current_distance s). apply (inv_cur I). }
  assert (Ic : In (s_current_edge s) (edge_list ci))
    by (apply (fz_listed (inv_frozen I)); auto).
  destruct (topology_snapshot_edge _ _ Topo Ic) as (out & O & _).
  unfold find_route_body. fold ci.
  assert (Mo : Dict.mem (s_current_edge s) (outgoing_edges_dict ci) = true)
    by (apply mem_get; eauto).
  rewrite Mo. simpl. rewrite St. simpl.
  destruct (s_unvisited s1) as [|x U1] eqn:EU.
  { left. exists s1. split; [reflexivity|]. split; [exact Po|].
    destruct (eqb_spec dest (s_current_edge s)) as [E|N]; [congruence|].
    specialize (Keep dest N Md). discriminate. }
  rewrite Ec.
  destruct (eqb_spec (s_current_edge s) dest) as [E|N].
  { left. exists s1. split; [reflexivity|]. split; [exact Po|]. congruence. }
  right.
  pose proof (post_frozen Po) as F1. rewrite EU in F1.
  rewrite filter_all.
  2:{ intros [e d] Ix. simpl. unfold truthy.
      assert (0 < d).
      { apply (fz_pos F1 e). apply In_get; auto. apply (fz_wf F1). }
      apply negb_true_iff. apply Z.eqb_neq. lia. }
  destruct (sorted_first (Dict.items (x :: U1))) as (n & Hn & In_n & Least);
    [discriminate|].
  rewrite Hn. simpl bind.
  eexists. split; [reflexivity|]. fields.
  split; [|split].
  - constructor; fields.
    + exact F1.
    + apply In_get; [apply (fz_wf F1)|]. destruct n; exact In_n.
    + left. apply (post_start Po).
    + intros _ y dy G. apply get_In in G.
      apply (Least (y, dy) G).
  - assert (Nd : dest <> s_current_edge s) by congruence.
    exact (Keep dest Nd Md).
  - simpl in Len. simpl length. lia.
Qed.

(** The loop returns once its fuel exceeds the number of unvisited edges. *)
Lemma find_route_loop_spec dest fuel : forall s,
  inv s -> Dict.mem dest (s_unvisited s) = true ->
  (length (s_unvisited s) < fuel)%nat ->
  exists s1, find_route_loop fuel self dest s = Ret s1
             /\ post s1 /\ s_current_edge s1 = dest.
Proof.
  induction fuel as [|fuel IH]; intros s I Md F; [lia|].
  simpl.
  destruct (find_route_body_spec dest s I Md)
    as [(s1 & B & Po & E)|(s2 & B & I2 & Md2 & Len)]; rewrite B; simpl.
  - eauto.
  - apply IH; auto. lia.
Qed.

Lemma get_from_keys_Some {V} (ks : list edge) (v d : V) e :
  Dict.get e (Dict.from_keys ks v) = Some d -> d = v /\ In e ks.
Proof.
  unfold Dict.from_keys. rewrite from_keys_acc_get.
  destruct (existsb (eqb e) ks) eqn:E; simpl; [|discriminate].
  intros G. inversion G. split; auto. now apply existsb_eqb_In.
Qed.

Lemma length_from_keys {V} (ks : list edge) (v : V) :
  (length (Dict.from_keys ks v) <= length ks)%nat.
Proof.
  rewrite <- (length_map fst (Dict.from_keys ks v)).
  apply NoDup_incl_length.
  - apply (wf_from_keys ks v).
  - intros e I. change (In e (Dict.keys (Dict.from_keys ks v))) in I.
    apply mem_In in I. now apply mem_from_keys in I.
Qed.

(** Lines 101-105 establish the invariant. *)
Lemma find_route_init_spec :
  exists s0,
    find_route_init self start = Ret s0 /\ inv s0
    /\ (forall e, In e (edge_list ci) -> Dict.mem e (s_unvisited s0) = true)
    /\ (length (s_unvisited s0) <= length (edge_list ci))%nat.
Proof.
  unfold find_route_init. fold ci. unfold index. rewrite start_length. simpl.
  eexists. split; [reflexivity|]. simpl.
  destruct (positive_lengths_edge _ _ Pos start_listed) as (l0 & L0 & Hp).
  rewrite start_length in L0. inversion L0; subst l0.
  assert (Ms : Dict.mem start (Dict.from_keys (edge_list ci) unreached) = true)
    by (now apply mem_from_keys).
  split; [|split].
  - constructor; simpl.
    + constructor.
      * apply wf_set. apply wf_from_keys.
      * intros e Me. rewrite mem_set in Me. apply orb_true_iff in Me.
        destruct Me as [E|Me].
        -- apply eqb_eq in E. now subst.
        -- now apply mem_from_keys in Me.
      * intros e Ie. now apply mem_from_keys.
      * intros e d G. rewrite get_set in G.
        destruct (eqb_spec e start).
        -- inversion G; subst; lia.
        -- apply get_from_keys_Some in G. destruct G as [-> _].
           unfold unreached. lia.
      * intros e Ie. left. rewrite mem_set.
        apply orb_true_iff. right. now apply mem_from_keys.
      * reflexivity.
      * intros e d G. rewrite get_set in G.
        destruct (eqb_spec e start); [now right|].
        apply get_from_keys_Some in G. destruct G as [-> _]. left. lia.
      * intros e d G. rewrite get_set in G.
        destruct (eqb_spec e start) as [->|Ne].
        -- inversion G; subst d. left. exists []. split.
           ++ now apply get_from_keys_In.
           ++ simpl. f_equal. f_equal. lia.
        -- apply get_from_keys_Some in G. destruct G as [-> Ie].
           right. repeat split; auto. now apply get_from_keys_In.
      * intros e d G. discriminate.
      * intros _ x dx q c G. discriminate.
      * intros _ x dx out d y ly dy G. discriminate.
    + apply get_set_same.
    + now right.
    + intros H y dy G. rewrite get_set in G.
      destruct (eqb_spec y start).
      * inversion G; subst; lia.
      * apply get_from_keys_Some in G. destruct G as [-> _]. exact H.
  - intros e Ie. rewrite mem_set. apply orb_true_iff. right.
    now apply mem_from_keys.
  - rewrite length_set_mem by assumption. apply length_from_keys.
Qed.

(** The search returns on the destination, with the invariant. *)
Lemma find_route_search_spec dest fuel :
  In dest (edge_list ci) -> (length (edge_list ci) < fuel)%nat ->
  exists s1, find_route_search fuel self start dest = Ret s1
             /\ post s1 /\ s_current_edge s1 = dest.
Proof.
  intros Id F.
  destruct find_route_init_spec as (s0 & E0 & I0 & M0 & L0).
  unfold find_route_search. rewrite E0. simpl.
  apply find_route_loop_spec; auto. lia.
Qed.

(** [find_route] returns; its distance and its decision list agree, and
    the distance is a lower bound of the cost of every walk to the
    destination when the start's length does not exceed [unreached]. *)
Lemma find_route_spec conn dest dl fuel :
  In dest (edge_list ci) -> (length (edge_list ci) < fuel)%nat ->
  exists p d s1,
    find_route fuel self conn start dest dl = Ret (p, d)
    /\ find_route_search fuel self start dest = Ret s1
    /\ Dict.get dest (s_visited s1) = Some d
    /\ labelled (Dict.set dest p []) dest d
    /\ (len0 <= unreached ->
        forall q c, walk ci start q = Some (dest, c) -> d <= len0 + c).
Proof.
  intros Id F.
  destruct (find_route_search_spec dest fuel Id F) as (s1 & E & Po & Ec).
  pose proof (post_frozen Po) as F1.
  pose proof (fz_paths F1 dest Id) as Mp. apply mem_get in Mp.
  destruct Mp as (p & Gp).
  exists p, (s_current_distance s1), s1.
  pose proof (post_cur Po) as Gc. rewrite Ec in Gc.
  split; [|split; [|split; [|split]]]; auto.
  - unfold find_route. rewrite E. simpl. unfold index. rewrite Gp. reflexivity.
  - apply labelled_ext with (P := s_path_lists s1).
    + rewrite get_set_same. auto.
    + apply (fz_settled F1 _ _ Gc).
  - intros H q c W. apply (fz_opt_settled F1 H _ _ _ _ Gc W).
Qed.

End Search.

(** ** Fuel *)

(** More fuel does not change an outcome that is not [OutOfFuel]. *)
Lemma find_route_loop_more self dest fuel : forall s o fuel',
  find_route_loop fuel self dest s = o -> o <> OutOfFuel ->
  (fuel <= fuel')%nat ->
  find_route_loop fuel' self dest s = o.
Proof.
  induction fuel as [|fuel IH]; intros s o fuel' E N Le; simpl in E.
  - congruence.
  - destruct fuel' as [|fuel']; [lia|]. simpl.
    destruct (find_route_body self dest s) as [[s'|s']| |]; simpl in *; auto.
    apply IH; auto. lia.
Qed.

Lemma find_route_search_more self start dest fuel fuel' o :
  find_route_search fuel self start dest = o -> o <> OutOfFuel ->
  (fuel <= fuel')%nat ->
  find_route_search fuel' self start dest = o.
Proof.
  unfold find_route_search.
  destruct (find_route_init self start) as [s0| |]; simpl; auto.
  apply find_route_loop_more.
Qed.

Lemma find_route_more self conn start dest dl fuel fuel' o :
  find_route fuel self conn start dest dl = o -> o <> OutOfFuel ->
  (fuel <= fuel')%nat ->
  find_route fuel' self conn start dest dl = o.
Proof.
  unfold find_route. intros E N Le.
  destruct (find_route_search fuel self start dest) as [s| |] eqn:S;
    simpl in E.
  - rewrite (find_route_search_more self start dest fuel fuel' (Ret s));
      auto. discriminate.
  - rewrite (find_route_search_more self start dest fuel fuel' (Raise e));
      auto. discriminate.
  - congruence.
Qed.

(** The guard of lines 107-108 on an edge that has no entry in
    [outgoing_edges_dict]: [continue] goes back to the head of the loop with
    nothing changed, so the loop does not end.  (No edge of a well-formed
    topology is in this case: a dead end has an empty outgoing map.) *)
Lemma find_route_loop_spins self dest s :
  Dict.mem (s_current_edge s) (outgoing_edges_dict (connection_info self))
  = false ->
  forall fuel, find_route_loop fuel self dest s = OutOfFuel.
Proof.
  intros M. induction fuel as [|fuel IH]; simpl; auto.
  unfold find_route_body. rewrite M. simpl. exact IH.
Qed.

(** ** find_route returns *)

(** On a topology snapshot with positive edge lengths, for a start and a
    destination of the edge list, [find_route] returns a pair as soon as the
    fuel exceeds the number of edges; when no walk leads from the start to
    the destination the decision list is empty and the distance is the
    initial label.  Dead ends with an empty outgoing map are edges like the
    others here. *)
Lemma find_route_returns self conn current_edge destination deadline fuel :
  topology_snapshot (connection_info self) = true ->
  positive_lengths (connection_info self) = true ->
  listed (connection_info self) current_edge = true ->
  listed (connection_info self) destination = true ->
  (length (edge_list (connection_info self)) < fuel)%nat ->
  exists decision_list distance,
    find_route fuel self conn current_edge destination deadline
    = Ret (decision_list, distance)
    /\ ((forall q c, walk (connection_info self) current_edge q
                     <> Some (destination, c)) ->
        decision_list = [] /\ distance = unreached).
Proof.
  intros T P Ls Ld F.
  apply listed_In in Ls. apply listed_In in Ld.
  destruct (positive_lengths_edge _ _ P Ls) as (len0 & L0 & _).
  destruct (find_route_spec self current_edge len0 T P Ls L0 conn destination
                            deadline fuel Ld F)
    as (p & d & s1 & E & _ & _ & Lab & _).
  exists p, d. split; [exact E|].
  intros Unreach.
  destruct Lab as [(p' & Gp & W)|(Ed & Gp & _)];
    rewrite get_set_same in Gp; inversion Gp; subst.
  - exfalso. apply (Unreach _ _ W).
  - auto.
Qed.

(** Outside the topology snapshots: [dead_end_road] has positive lengths
    and [A] and [B] are in its edge list, but [B], a dead end, has no entry
    in [outgoing_edges_dict] (a snapshot gives a dead end an empty outgoing
    map).  The search from [A] to [B] settles [A], selects [B], and then the
    guard of lines 107-108 sends it back to the head of the loop for ever:
    no amount of fuel gives a result. *)
Lemma find_route_spins_without_entry :
  positive_lengths dead_end_road = true
  /\ listed dead_end_road "A" = true
  /\ listed dead_end_road "B" = true
  /\ Dict.mem "B"%string (outgoing_edges_dict dead_end_road) = false
  /\ forall fuel,
      find_route fuel (init dead_end_road) dead_end_road "A" "B" 0
      = OutOfFuel.
Proof.
  repeat split.
  intros fuel. unfold find_route, find_route_search.
  destruct fuel as [|fuel]; [reflexivity|].
  cbn [find_route_init connection_info init index bind].
  change (find_route_init (init dead_end_road) "A")
    with (Ret {| s_unvisited := [("A"%string, 10); ("B"%string, unreached)];
                 s_visited := [];
                 s_path_lists := [("A"%string, []); ("B"%string, [])];
                 s_current_edge := "A"%string;
                 s_current_distance := 10 |}).
  cbn [bind find_route_loop].
  change (find_route_body (init dead_end_road) "B"
            {| s_unvisited := [("A"%string, 10); ("B"%string, unreached)];
               s_visited := [];
               s_path_lists := [("A"%string, []); ("B"%string, [])];
               s_current_edge := "A"%string;
               s_current_distance := 10 |})
    with (Ret (Next {| s_unvisited := [("B"%string, 20)];
                       s_visited := [("A"%string, 10)];
                       s_path_lists :=
                         [("A"%string, []); ("B"%string, [STRAIGHT])];
                       s_current_edge := "B"%string;
                       s_current_distance := 20 |})).
  cbn [bind].
  rewrite find_route_loop_spins; reflexivity.
Qed.

Lemma walk_dead_end ci e q x c :
  Dict.get e (outgoing_edges_dict ci) = Some [] ->
  walk ci e q = Some (x, c) -> q = [] /\ x = e.
Proof.
  intros O W. destruct q as [|d q]; simpl in W.
  - inversion W. auto.
  - rewrite O in W. simpl in W. discriminate.
Qed.

(** C6: on a topology snapshot (every edge of the edge list has an outgoing
    map, empty for a dead end, that leads to edges of the list, a length and
    a vehicle count) with positive edge lengths, for a start and a
    destination of the edge list, [find_route] ends and returns a pair as
    soon as the bound on the turns of its loop exceeds the number of edges.
    When no walk leads from the start to the destination, the decision list
    is empty and the distance is the initial label; this is the case, in
    particular, when the start is a dead end and the destination another
    edge.  Dead ends are edges like the others: they are settled and never
    extended. *)
Theorem C6_find_route_returns self conn current_edge destination deadline
  fuel :
  topology_snapshot (connection_info self) = true ->
  positive_lengths (connection_info self) = true ->
  listed (connection_info self) current_edge = true ->
  listed (connection_info self) destination = true ->
  (length (edge_list (connection_info self)) < fuel)%nat ->
  exists decision_list distance,
    find_route fuel self conn current_edge destination deadline
    = Ret (decision_list, distance)
    /\ ((forall q c, walk (connection_info self) current_edge q
                     <> Some (destination, c)) ->
        decision_list = [] /\ distance = unreached)
    /\ (Dict.get current_edge (outgoing_edges_dict (connection_info self))
        = Some [] ->
        destination <> current_edge ->
        decision_list = [] /\ distance = unreached).
Proof.
  intros T P Ls Ld F.
  destruct (find_route_returns self conn current_edge destination deadline
              fuel T P Ls Ld F) as (p & d & E & No).
  exists p, d. split; [exact E|]. split; [exact No|].
  intros O Ne. apply No. intros q c W.
  destruct (walk_dead_end _ _ _ _ _ O W) as [_ Ex]. congruence.
Qed.

Lemma C6_find_route_returns_witness :
  (topology_snapshot
     (connection_info (init (diamond LEFT RIGHT STRAIGHT STRAIGHT 0 5))) = true
   /\ positive_lengths
        (connection_info (init (diamond LEFT RIGHT STRAIGHT STRAIGHT 0 5)))
      = true
   /\ Dict.get "D"%string
        (outgoing_edges_dict
           (connection_info (init (diamond LEFT RIGHT STRAIGHT STRAIGHT 0 5))))
      = Some []
   /\ find_route 5 (init (diamond LEFT RIGHT STRAIGHT STRAIGHT 0 5))
                 (diamond LEFT RIGHT STRAIGHT STRAIGHT 0 5) "D" "A" 0
      = Ret ([], 1000000000)
   /\ find_route 5 (init (diamond LEFT RIGHT STRAIGHT STRAIGHT 0 5))
                 (diamond LEFT RIGHT STRAIGHT STRAIGHT 0 5) "A" "D" 0
      = Ret ([LEFT; STRAIGHT], 30))
  /\ exists decision_list distance,
      find_route 5 (init (diamond LEFT RIGHT STRAIGHT STRAIGHT 0 5))
                 (diamond LEFT RIGHT STRAIGHT STRAIGHT 0 5) "D" "A" 0
      = Ret (decision_list, distance)
      /\ ((forall q c,
              walk (connection_info
                      (init (diamond LEFT RIGHT STRAIGHT STRAIGHT 0 5)))
                   "D" q <> Some ("A"%string, c)) ->
          decision_list = [] /\ distance = unreached)
      /\ (Dict.get "D"%string
            (outgoing_edges_dict
               (connection_info
                  (init (diamond LEFT RIGHT STRAIGHT STRAIGHT 0 5))))
          = Some [] ->
          "A"%string <> "D"%string ->
          decision_list = [] /\ distance = unreached).
Proof.
  split.
  - repeat split; reflexivity.
  - apply (C6_find_route_returns
             (init (diamond LEFT RIGHT STRAIGHT STRAIGHT 0 5))
             (diamond LEFT RIGHT STRAIGHT STRAIGHT 0 5) "D" "A" 0 5);
      try reflexivity.
    simpl. lia.
Defined.

(** ** The distance and the route of find_route *)

(** C2, as stated, fails when no walk leads from the start to the
    destination: on the diamond, from [B] to [C], the search settles the
    destination with the initial label and [find_route] returns an empty
    decision list, which walks from [B] to [B], with distance 1000000000,
    which is the cost of no walk. *)
Lemma C2_counterexample :
  topology_snapshot (diamond LEFT RIGHT STRAIGHT STRAIGHT 0 5) = true
  /\ positive_lengths (diamond LEFT RIGHT STRAIGHT STRAIGHT 0 5) = true
  /\ find_route 5 (init (diamond LEFT RIGHT STRAIGHT STRAIGHT 0 5))
                (diamond LEFT RIGHT STRAIGHT STRAIGHT 0 5) "B" "C" 0
     = Ret ([], 1000000000)
  /\ walk (diamond LEFT RIGHT STRAIGHT STRAIGHT 0 5) "B" []
     = Some ("B"%string, 0)
  /\ "B"%string <> "C"%string.
Proof.
  repeat split; try reflexivity. discriminate.
Qed.

(** C2 (amended): on a topology snapshot with positive edge lengths, when
    some walk leads from the start to the destination at a cost (the
    start's own length plus the lengths of the edges entered) below the
    initial label 1000000000, the returned decision list walks from the
    start to the destination, the returned distance is the cost of that
    walk, and no walk from the start to the destination costs less. *)
Theorem C2_find_route_shortest self conn current_edge destination deadline
  fuel len0 q0 c0 :
  topology_snapshot (connection_info self) = true ->
  positive_lengths (connection_info self) = true ->
  listed (connection_info self) current_edge = true ->
  listed (connection_info self) destination = true ->
  (length (edge_list (connection_info self)) < fuel)%nat ->
  Dict.get current_edge (edge_length_dict (connection_info self))
  = Some len0 ->
  walk (connection_info self) current_edge q0 = Some (destination, c0) ->
  len0 + c0 < unreached ->
  exists decision_list distance c,
    find_route fuel self conn current_edge destination deadline
    = Ret (decision_list, distance)
    /\ walk (connection_info self) current_edge decision_list
       = Some (destination, c)
    /\ distance = len0 + c
    /\ forall q c',
        walk (connection_info self) current_edge q = Some (destination, c') ->
        distance <= len0 + c'.
Proof.
  intros T P Ls Ld F L0 W0 Below.
  apply listed_In in Ls. apply listed_In in Ld.
  destruct (find_route_spec self current_edge len0 T P Ls L0 conn destination
                            deadline fuel Ld F)
    as (p & d & s1 & E & _ & _ & Lab & Opt).
  pose proof (walk_nonneg _ T P _ _ _ _ Ls W0) as Hc0.
  assert (H : len0 <= unreached) by lia.
  specialize (Opt H).
  pose proof (Opt _ _ W0) as Hd.
  destruct Lab as [(p' & Gp & W)|(Ed & _)].
  - rewrite get_set_same in Gp. inversion Gp; subst p'.
    exists p, d, (d - len0). repeat split; auto. lia.
  - lia.
Qed.

Lemma C2_find_route_shortest_witness :
  (topology_snapshot
     (connection_info (init (diamond LEFT RIGHT STRAIGHT STRAIGHT 0 5))) = true
   /\ positive_lengths
        (connection_info (init (diamond LEFT RIGHT STRAIGHT STRAIGHT 0 5)))
      = true
   /\ listed (connection_info (init (diamond LEFT RIGHT STRAIGHT STRAIGHT 0 5)))
             "A" = true
   /\ listed (connection_info (init (diamond LEFT RIGHT STRAIGHT STRAIGHT 0 5)))
             "D" = true
   /\ (length (edge_list
         (connection_info (init (diamond LEFT RIGHT STRAIGHT STRAIGHT 0 5))))
       < 5)%nat
   /\ Dict.get "A"%string
        (edge_length_dict
           (connection_info (init (diamond LEFT RIGHT STRAIGHT STRAIGHT 0 5))))
      = Some 10
   /\ walk (connection_info (init (diamond LEFT RIGHT STRAIGHT STRAIGHT 0 5)))
           "A" [RIGHT; STRAIGHT] = Some ("D"%string, 20)
   /\ 10 + 20 < unreached)
  /\ exists decision_list distance c,
    find_route 5 (init (diamond LEFT RIGHT STRAIGHT STRAIGHT 0 5))
               (diamond LEFT RIGHT STRAIGHT STRAIGHT 0 5) "A" "D" 0
    = Ret (decision_list, distance)
    /\ walk (connection_info (init (diamond LEFT RIGHT STRAIGHT STRAIGHT 0 5)))
            "A" decision_list = Some ("D"%string, c)
    /\ distance = 10 + c
    /\ forall q c',
        walk (connection_info (init (diamond LEFT RIGHT STRAIGHT STRAIGHT 0 5)))
             "A" q = Some ("D"%string, c') ->
        distance <= 10 + c'.
Proof.
  split.
  - repeat split; try reflexivity. simpl. lia.
  - apply (C2_find_route_shortest
             (init (diamond LEFT RIGHT STRAIGHT STRAIGHT 0 5))
             (diamond LEFT RIGHT STRAIGHT STRAIGHT 0 5) "A" "D" 0 5 10
             [RIGHT; STRAIGHT] 20); try reflexivity.
    simpl. lia.
Defined.




(** ** Outcomes that do not depend on the fuel *)

(** A computation is stable when more fuel does not change an outcome that
    is not [OutOfFuel]. *)
Definition stable {A} (f : nat -> outcome A) : Prop :=
  forall n n' o, f n = o -> o <> OutOfFuel -> (n <= n')%nat -> f n' = o.

Lemma stable_const {A} (o : outcome A) : stable (fun _ => o).
Proof. intros n n' o' E _ _. exact E. Qed.

Lemma stable_bind {A B} (f : nat -> outcome A) (k : nat -> A -> outcome B) :
  stable f -> (forall a, stable (fun n => k n a)) ->
  stable (fun n => bind (f n) (k n)).
Proof.
  intros Sf Sk n n' o E N Le.
  destruct (f n) as [a|e|] eqn:F; simpl in E.
  - rewrite (Sf n n' (Ret a)); auto; [|discriminate]. simpl.
    apply (Sk a n n' o); auto.
  - rewrite (Sf n n' (Raise e)); auto. discriminate.
  - congruence.
Qed.

Lemma stable_if {A} (b : bool) (f g : nat -> outcome A) :
  stable f -> stable g -> stable (fun n => if b then f n else g n).
Proof. destruct b; auto. Qed.

Lemma stable_for_each {A S} (body : nat -> S -> A -> outcome S) (l : list A) :
  (forall s a, stable (fun n => body n s a)) ->
  forall s, stable (fun n => for_each (body n) l s).
Proof.
  intros Sb. induction l as [|a l IH]; intros s; simpl.
  - apply stable_const.
  - apply stable_bind; auto.
Qed.

Lemma stable_find_route self conn start dest dl :
  stable (fun n => find_route n self conn start dest dl).
Proof. intros n n' o E N Le. eapply find_route_more; eauto. Qed.

Ltac stable_step :=
  first [ apply stable_const
        | apply stable_find_route
        | apply stable_if
        | apply stable_bind; [|intros ?] ].

Lemma stable_consider_choice self conn vehicle cur edges direct w choice :
  stable (fun n => consider_choice n self conn vehicle cur edges direct w
                                   choice).
Proof.
  unfold consider_choice.
  apply stable_if; [|apply stable_const].
  do 3 (apply stable_bind; [apply stable_const|intros ?]).
  apply stable_if; [|apply stable_const].
  apply stable_bind; [apply stable_const|intros ?].
  apply stable_if; [|apply stable_const].
  apply stable_bind; [apply stable_find_route|intros [sp2 d2]].
  repeat stable_step.
Qed.

Lemma stable_explore_alternatives self conn vehicle avg cur edges direct w :
  stable (fun n => explore_alternatives n self conn vehicle avg cur edges
                                        direct w).
Proof.
  unfold explore_alternatives.
  apply stable_if; [|apply stable_const].
  apply stable_bind; [apply stable_const|intros out].
  apply (stable_for_each
           (fun n w choice =>
              r <- consider_choice n self conn vehicle cur edges direct w
                                   choice ;;
              Ret (snd r))).
  intros w' c. apply stable_bind; [apply stable_consider_choice|intros r].
  apply stable_const.
Qed.

Lemma stable_plan_body self conn vehicle avg p :
  stable (fun n => plan_body n self conn vehicle avg p).
Proof.
  unfold plan_body.
  apply stable_if; [|apply stable_const].
  apply stable_bind.
  - destruct (p_shortest_path p); [apply stable_find_route|apply stable_const].
  - intros route. destruct (fst route); [apply stable_const|].
    do 2 (apply stable_bind; [apply stable_const|intros ?]).
    apply stable_bind; [apply stable_explore_alternatives|intros ?].
    repeat stable_step.
Qed.

Lemma plan_loop_more self conn vehicle avg gas : forall fuel gas' fuel' p o,
  plan_loop gas fuel self conn vehicle avg p = o -> o <> OutOfFuel ->
  (gas <= gas')%nat -> (fuel <= fuel')%nat ->
  plan_loop gas' fuel' self conn vehicle avg p = o.
Proof.
  induction gas as [|gas IH]; intros fuel gas' fuel' p o E N Lg Lf;
    simpl in E; [congruence|].
  destruct gas' as [|gas']; [lia|]. simpl.
  destruct (plan_body fuel self conn vehicle avg p) as [r|e|] eqn:B;
    simpl in E.
  - rewrite (stable_plan_body self conn vehicle avg p fuel fuel' (Ret r));
      auto; [|discriminate]. simpl.
    destruct r as [p'|p']; auto.
    apply (IH fuel); auto. lia.
  - rewrite (stable_plan_body self conn vehicle avg p fuel fuel' (Raise e));
      auto. discriminate.
  - congruence.
Qed.

Lemma stable_plan self conn vehicle avg :
  stable (fun n => plan n self conn vehicle avg).
Proof.
  unfold plan. apply stable_bind; [|intros p; apply stable_const].
  intros n n' o E N Le. eapply plan_loop_more; eauto.
Qed.

Lemma stable_decide_vehicle self conn avg local_targets vehicle :
  stable (fun n => decide_vehicle n self conn avg local_targets vehicle).
Proof.
  unfold decide_vehicle.
  apply stable_bind; [apply stable_plan|intros dl].
  apply stable_const.
Qed.

Lemma stable_make_decisions self vehicles conn avg :
  stable (fun n => make_decisions n self vehicles conn avg).
Proof.
  unfold make_decisions.
  apply (stable_for_each (fun n => decide_vehicle n self conn avg)).
  intros s a. apply stable_decide_vehicle.
Qed.

(** ** What make_decisions reads *)

Lemma for_each_ext {A S} (body1 body2 : S -> A -> outcome S) (l : list A) :
  (forall s a, body1 s a = body2 s a) ->
  forall s, for_each body1 l s = for_each body2 l s.
Proof.
  intros E. induction l as [|a l IH]; intros s; simpl; auto.
  rewrite E. destruct (body2 s a); simpl; auto.
Qed.

Section Reads.
Variables self1 self2 : RouteController.
Variables conn1 conn2 : ConnectionInfo.
Hypothesis same_topology : connection_info self1 = connection_info self2.

Lemma compute_local_target_loop_self decision_list v fuel :
  forall cur pl i,
    compute_local_target_loop fuel self1 decision_list v cur pl i
    = compute_local_target_loop fuel self2 decision_list v cur pl i.
Proof.
  induction fuel as [|fuel IH]; intros cur pl i; simpl; auto.
  rewrite same_topology.
  destruct (pl <=? Z.max (current_speed v) 20); auto.
  destruct (eqb cur (destination v)); auto.
  destruct (length decision_list <=? i)%nat; auto.
  destruct (item decision_list i); simpl; auto.
  destruct (index (outgoing_edges_dict (connection_info self2)) cur);
    simpl; auto.
  destruct (Dict.mem a a0); simpl; auto.
  destruct (index a0 a); simpl; auto.
  destruct (index (edge_length_dict (connection_info self2)) a1); simpl; auto.
  destruct (turnaround_twice decision_list i); auto.
Qed.

Lemma compute_local_target_self decision_list v :
  compute_local_target self1 decision_list v
  = compute_local_target self2 decision_list v.
Proof.
  unfold compute_local_target, resolve.
  now rewrite compute_local_target_loop_self.
Qed.

Lemma find_route_body_self : find_route_body self1 = find_route_body self2.
Proof. unfold find_route_body. now rewrite same_topology. Qed.

Lemma find_route_loop_self dest fuel : forall s,
  find_route_loop fuel self1 dest s = find_route_loop fuel self2 dest s.
Proof.
  induction fuel as [|fuel IH]; intros s; simpl; auto.
  rewrite find_route_body_self.
  destruct (find_route_body self2 dest s) as [[s'|s']| |]; simpl; auto.
Qed.

Lemma find_route_self fuel start dest dl dl' :
  find_route fuel self1 conn1 start dest dl
  = find_route fuel self2 conn2 start dest dl'.
Proof.
  unfold find_route, find_route_search, find_route_init.
  rewrite same_topology.
  destruct (index (edge_length_dict (connection_info self2)) start);
    simpl; auto.
  now rewrite find_route_loop_self.
Qed.

Lemma consider_choice_self fuel v cur edges direct w choice :
  consider_choice fuel self1 conn1 v cur edges direct w choice
  = consider_choice fuel self2 conn2 v cur edges direct w choice.
Proof.
  unfold consider_choice, not_dead_end, worth_a_route.
  rewrite same_topology.
  destruct (negb (eqb choice direct)); auto.
  destruct (index (outgoing_edges_dict (connection_info self2)) cur)
    as [out| |]; simpl; auto.
  destruct (index out choice) as [e2| |]; simpl; auto.
  destruct (if eqb e2 (destination v) then Ret true
            else out2 <- index (outgoing_edges_dict (connection_info self2))
                               e2 ;;
                 Ret (negb (length (Dict.keys out2) =? 0)%nat))
    as [[|]| |]; simpl; auto.
  destruct (if existsb (eqb e2) edges then Ret false
            else count2 <- index (edge_vehicle_count (connection_info self2))
                                 e2 ;;
                 count1 <- index (edge_vehicle_count (connection_info self2))
                                 (w_out_edge w) ;;
                 if count2 <=? count1
                 then Ret (negb (eqb (w_out_edge w) (destination v)))
                 else Ret false)
    as [[|]| |]; simpl; auto.
  now rewrite (find_route_self fuel e2 (destination v) (deadline v)
                               (deadline v)).
Qed.

Lemma plan_body_self fuel v avg p :
  plan_body fuel self1 conn1 v avg p = plan_body fuel self2 conn2 v avg p.
Proof.
  unfold plan_body, explore_alternatives.
  rewrite same_topology.
  destruct (negb (eqb (p_current_edge p) (destination v))); auto.
  rewrite (find_route_self fuel (p_current_edge p) (destination v)
                           (deadline v) (deadline v)).
  destruct (match p_shortest_path p with
            | [] => find_route fuel self2 conn2 (p_current_edge p)
                               (destination v) (deadline v)
            | _ :: _ => Ret (p_shortest_path p, p_distance p)
            end) as [route| |]; simpl; auto.
  destruct (fst route) as [|direct rest]; auto.
  destruct (index (outgoing_edges_dict (connection_info self2))
                  (p_current_edge p)) as [out| |]; simpl; auto.
  destruct (index out direct) as [e1| |]; simpl; auto.
  destruct (deadline v >? avg); auto.
  rewrite (for_each_ext
             (fun w choice =>
                r <- consider_choice fuel self1 conn1 v (p_current_edge p)
                       (p_edges p ++ [p_current_edge p]) direct w choice ;;
                Ret (snd r))
             (fun w choice =>
                r <- consider_choice fuel self2 conn2 v (p_current_edge p)
                       (p_edges p ++ [p_current_edge p]) direct w choice ;;
                Ret (snd r))); auto.
  intros w c. now rewrite consider_choice_self.
Qed.

Lemma plan_loop_self fuel v avg gas : forall p,
  plan_loop gas fuel self1 conn1 v avg p
  = plan_loop gas fuel self2 conn2 v avg p.
Proof.
  induction gas as [|gas IH]; intros p; simpl; auto.
  rewrite plan_body_self.
  destruct (plan_body fuel self2 conn2 v avg p) as [[p'|p']| |]; simpl; auto.
Qed.

(** The controller is read through [self.connection_info] alone, and the
    parameter [connection_info] is not read at all. *)
Lemma make_decisions_self fuel vehicles avg_deadline :
  make_decisions fuel self1 vehicles conn1 avg_deadline
  = make_decisions fuel self2 vehicles conn2 avg_deadline.
Proof.
  unfold make_decisions. apply for_each_ext.
  intros m v. unfold decide_vehicle, plan.
  rewrite plan_loop_self.
  destruct (plan_loop fuel fuel self2 conn2 v avg_deadline _) as [p| |];
    simpl; auto.
  now rewrite compute_local_target_self.
Qed.

End Reads.

(** ** Determinism *)

(** C7: two invocations of [make_decisions] on the same vehicles, the same
    topology (the [connection_info] of the controller) and the same
    [avg_deadline] that both complete have the same outcome, the same
    mapping or the same exception.  Nothing else has an influence: not the
    other field of the controller, not the parameter [connection_info]
    (the code reads [self.connection_info]), and not the fuel, the one
    input the model adds to those of the code. *)
Theorem C7_make_decisions_deterministic self1 self2 vehicles conn1 conn2
  avg_deadline fuel1 fuel2 o1 o2 :
  connection_info self1 = connection_info self2 ->
  make_decisions fuel1 self1 vehicles conn1 avg_deadline = o1 ->
  make_decisions fuel2 self2 vehicles conn2 avg_deadline = o2 ->
  o1 <> OutOfFuel -> o2 <> OutOfFuel ->
  o1 = o2.
Proof.
  intros Same E1 E2 N1 N2.
  pose proof (stable_make_decisions self1 vehicles conn1 avg_deadline
                fuel1 (Nat.max fuel1 fuel2) o1 E1 N1 (Nat.le_max_l _ _)) as M1.
  pose proof (stable_make_decisions self2 vehicles conn2 avg_deadline
                fuel2 (Nat.max fuel1 fuel2) o2 E2 N2 (Nat.le_max_r _ _)) as M2.
  cbv beta in M1, M2.
  pose proof (make_decisions_self self1 self2 conn1 conn2 Same
                (Nat.max fuel1 fuel2) vehicles avg_deadline) as M.
  congruence.
Qed.

Lemma C7_make_decisions_deterministic_witness :
  (make_decisions 5 (init (diamond LEFT RIGHT STRAIGHT STRAIGHT 0 5))
                  [car "A" "D" 10 5]
                  (diamond LEFT RIGHT STRAIGHT STRAIGHT 0 5) 5
   = Ret [("v0"%string, "D"%string)]
   /\ make_decisions 9 (init (diamond LEFT RIGHT STRAIGHT STRAIGHT 0 5))
                     [car "A" "D" 10 5]
                     (diamond LEFT RIGHT STRAIGHT STRAIGHT 0 5) 5
      = Ret [("v0"%string, "D"%string)]
   /\ Ret [("v0"%string, "D"%string)] <> OutOfFuel)
  /\ @Ret (dict string edge) [("v0"%string, "D"%string)]
     = Ret [("v0"%string, "D"%string)].
Proof.
  split.
  - repeat split; try reflexivity. discriminate.
  - apply (C7_make_decisions_deterministic
             (init (diamond LEFT RIGHT STRAIGHT STRAIGHT 0 5))
             (init (diamond LEFT RIGHT STRAIGHT STRAIGHT 0 5))
             [car "A" "D" 10 5]
             (diamond LEFT RIGHT STRAIGHT STRAIGHT 0 5)
             (diamond LEFT RIGHT STRAIGHT STRAIGHT 0 5) 5 5 9);
      try reflexivity; discriminate.
Defined.

(** ** The resolver returns *)

Lemma topology_snapshot_count ci e :
  topology_snapshot ci = true -> In e (edge_list ci) ->
  exists n, Dict.get e (edge_vehicle_count ci) = Some n.
Proof.
  intros T I.
  destruct (topology_snapshot_edge _ _ T I) as (_ & _ & _ & _ & _ & M).
  now apply mem_get.
Qed.

(** On a well-formed topology, from a listed edge, no dict is indexed at an
    absent key: the loop of [compute_local_target] raises nothing. *)
Lemma compute_local_target_loop_no_raise self decision_list vehicle :
  topology_snapshot (connection_info self) = true ->
  positive_lengths (connection_info self) = true ->
  forall fuel cur pl i e,
    In cur (edge_list (connection_info self)) ->
    compute_local_target_loop fuel self decision_list vehicle cur pl i
    <> Raise e.
Proof.
  intros T P. induction fuel as [|fuel IH]; intros cur pl i e I; simpl;
    [discriminate|].
  destruct (pl <=? Z.max (current_speed vehicle) 20); [|discriminate].
  destruct (eqb cur (destination vehicle)); [discriminate|].
  destruct (length decision_list <=? i)%nat eqn:Len; [discriminate|].
  apply Nat.leb_gt in Len.
  destruct (nth_error decision_list i) as [choice|] eqn:C.
  2:{ apply nth_error_None in C. lia. }
  unfold item. rewrite C. simpl.
  destruct (topology_snapshot_edge _ _ T I) as (out & O & _ & Cl & _).
  unfold index. rewrite O. simpl.
  destruct (Dict.mem choice out) eqn:M; simpl; [|discriminate].
  apply mem_get in M. destruct M as (next & Nx). rewrite Nx. simpl.
  assert (In' : In next (edge_list (connection_info self))).
  { apply (Cl choice). now apply get_In. }
  destruct (positive_lengths_edge _ _ P In') as (len & L & _).
  rewrite L. simpl.
  destruct (turnaround_twice decision_list i); [discriminate|].
  now apply IH.
Qed.

Lemma resolve_returns self decision_list vehicle :
  topology_snapshot (connection_info self) = true ->
  positive_lengths (connection_info self) = true ->
  In (current_edge vehicle) (edge_list (connection_info self)) ->
  exists r, resolve self decision_list vehicle = Ret r.
Proof.
  intros T P I.
  destruct (resolve self decision_list vehicle) as [r|e|] eqn:R.
  - eauto.
  - exfalso. unfold resolve in R.
    eapply compute_local_target_loop_no_raise in R; eauto.
  - exfalso. now apply resolve_fuel in R.
Qed.

(** With no decision the vehicle stays where it is. *)
Lemma compute_local_target_nil self vehicle :
  compute_local_target self [] vehicle = Ret (current_edge vehicle).
Proof.
  unfold compute_local_target, resolve. simpl.
  assert (L : (0 <=? Z.max (current_speed vehicle) 20) = true)
    by (apply Z.leb_le; lia).
  rewrite L.
  destruct (eqb (current_edge vehicle) (destination vehicle)); reflexivity.
Qed.

(** ** Planning ends *)

Section Planning.
Variable self : RouteController.
Variable conn : ConnectionInfo.
Variable vehicle : Vehicle.
Variable avg_deadline : Z.
Variable fuel : nat.
Let ci := connection_info self.
Let dest := destination vehicle.
Hypothesis Topo : topology_snapshot ci = true.
Hypothesis Pos : positive_lengths ci = true.
Hypothesis dest_listed : In dest (edge_list ci).
Hypothesis enough : (length (edge_list ci) < fuel)%nat.

(** [sp] leads from [e] to the destination. *)
Definition on_track (e : edge) (sp : list direction) : Prop :=
  exists c, walk ci e sp = Some (dest, c).

Definition route_ok (e : edge) (sp : list direction) : Prop :=
  sp = [] \/ on_track e sp.

Lemma find_route_route e :
  In e (edge_list ci) ->
  exists p d,
    find_route fuel self conn e dest (deadline vehicle) = Ret (p, d)
    /\ route_ok e p.
Proof.
  intros I.
  destruct (positive_lengths_edge _ _ Pos I) as (len0 & L0 & _).
  destruct (find_route_spec self e len0 Topo Pos I L0 conn dest
                            (deadline vehicle) fuel dest_listed enough)
    as (p & d & s1 & E & _ & _ & Lab & _).
  exists p, d. split; [exact E|].
  destruct Lab as [(p' & Gp & W)|(_ & Gp & _)];
    rewrite get_set_same in Gp; inversion Gp; subst.
  - right. eexists. exact W.
  - now left.
Qed.

(** One choice of the for loop of lines 177-193 on a well-formed topology:
    the body returns; when it takes the alternative, the new out edge was
    not visited before and the new route is empty or leads to the
    destination. *)
Lemma consider_choice_spec cur edges direct out w choice e2 :
  Dict.get cur (outgoing_edges_dict ci) = Some out ->
  Dict.get choice out = Some e2 ->
  In e2 (edge_list ci) ->
  In (w_out_edge w) (edge_list ci) ->
  exists acc w',
    consider_choice fuel self conn vehicle cur edges direct w choice
    = Ret (acc, w')
    /\ (acc = false -> w' = w)
    /\ (acc = true ->
        ~ In e2 edges
        /\ exists p2 d2,
            route_ok e2 p2
            /\ w' = {| w_distance := d2; w_shortest_path := choice :: p2;
                       w_out_edge := e2 |}).
Proof.
  intros O C I2 Iw.
  unfold consider_choice. fold ci.
  destruct (eqb choice direct); cbn [negb].
  { exists false, w. split; [reflexivity|]. split; [auto|discriminate]. }
  unfold index at 1. rewrite O. cbn [bind].
  unfold index at 1. rewrite C. cbn [bind].
  assert (A : exists alive, not_dead_end self vehicle e2 = Ret alive).
  { unfold not_dead_end. destruct (eqb e2 (destination vehicle)); eauto.
    destruct (topology_snapshot_edge _ _ Topo I2) as (out2 & O2 & _).
    fold ci. unfold index. rewrite O2. cbn [bind]. eauto. }
  destruct A as (alive & A). rewrite A. cbn [bind].
  destruct alive.
  2:{ exists false, w. split; [reflexivity|]. split; [auto|discriminate]. }
  destruct (topology_snapshot_count _ _ Topo I2) as (c2 & G2).
  destruct (topology_snapshot_count _ _ Topo Iw) as (c1 & G1).
  assert (B : exists worth,
             worth_a_route self vehicle edges (w_out_edge w) e2 = Ret worth
             /\ (worth = true -> ~ In e2 edges)).
  { unfold worth_a_route. fold ci.
    destruct (existsb (eqb e2) edges) eqn:Ex.
    - exists false. split; [reflexivity|discriminate].
    - unfold index. rewrite G2, G1. cbn [bind].
      assert (NI : ~ In e2 edges).
      { intros In2. apply existsb_eqb_In in In2. congruence. }
      destruct (c2 <=? c1); eauto. }
  destruct B as (worth & B & NI). rewrite B. cbn [bind].
  destruct worth.
  2:{ exists false, w. split; [reflexivity|]. split; [auto|discriminate]. }
  destruct (find_route_route e2 I2) as (p2 & d2 & E & R).
  fold dest. rewrite E. cbn [bind].
  unfold index. rewrite G2, G1. cbn [bind].
  destruct (negb (c2 =? c1) || (d2 <? w_distance w)).
  - eexists true, _. split; [reflexivity|]. split; [discriminate|].
    intros _. split; [auto|]. exists p2, d2. auto.
  - exists false, w. split; [reflexivity|]. split; [auto|discriminate].
Qed.

(** The working route after the for loop: the one it started with, or an
    alternative to an edge not visited before. *)
Definition explored (out : dict direction edge) (edges : list edge)
  (w0 w : working) : Prop :=
  w = w0
  \/ exists choice e2 p2 d2,
      Dict.get choice out = Some e2
      /\ In e2 (edge_list ci)
      /\ ~ In e2 edges
      /\ route_ok e2 p2
      /\ w = {| w_distance := d2; w_shortest_path := choice :: p2;
                w_out_edge := e2 |}.

Lemma explore_alternatives_spec cur edges direct out w0 :
  In cur (edge_list ci) ->
  Dict.get cur (outgoing_edges_dict ci) = Some out ->
  In (w_out_edge w0) (edge_list ci) ->
  exists w,
    explore_alternatives fuel self conn vehicle avg_deadline cur edges direct
                         w0 = Ret w
    /\ explored out edges w0 w.
Proof.
  intros Ic O Iw.
  unfold explore_alternatives. fold ci.
  destruct (deadline vehicle >? avg_deadline).
  2:{ exists w0. split; [reflexivity|now left]. }
  unfold index. rewrite O. cbn [bind].
  destruct (topology_snapshot_edge _ _ Topo Ic) as (out' & O' & _ & Cl & _).
  rewrite O in O'. inversion O'; subst out'. clear O'.
  destruct (@for_each_invariant direction working
              (fun w choice =>
                 r <- consider_choice fuel self conn vehicle cur edges direct
                                      w choice ;;
                 Ret (snd r))
              (fun _ w => explored out edges w0 w
                          /\ In (w_out_edge w) (edge_list ci))
              (Dict.keys out) w0) as (w & E & Ex & _).
  - split; [now left|exact Iw].
  - intros pre choice w (post & Epost) (Ex & Iw').
    assert (Mc : In choice (Dict.keys out)).
    { rewrite Epost. apply in_or_app. right. now left. }
    apply mem_In in Mc. apply mem_get in Mc. destruct Mc as (e2 & C).
    assert (I2 : In e2 (edge_list ci)).
    { apply (Cl choice). now apply get_In. }
    destruct (consider_choice_spec cur edges direct out w choice e2 O C I2 Iw')
      as (acc & w' & E & Rej & Acc).
    rewrite E. cbn [bind snd]. exists w'. split; [reflexivity|].
    destruct acc.
    + destruct (Acc eq_refl) as (NI & p2 & d2 & R & ->).
      split; [|exact I2].
      right. exists choice, e2, p2, d2. auto.
    + rewrite (Rej eq_refl). auto.
  - exists w. split; [exact E|exact Ex].
Qed.

(** The listed edges that are not in [seen]. *)
Definition unseen (seen : list edge) : nat :=
  length (filter (fun e => negb (existsb (eqb e) seen)) (edge_list ci)).

Lemma filter_length_le {A} (f g : A -> bool) (l : list A) :
  (forall x, f x = true -> g x = true) ->
  (length (filter f l) <= length (filter g l))%nat.
Proof.
  intros Imp. induction l as [|a l IH]; simpl; auto.
  destruct (f a) eqn:F.
  - rewrite (Imp a F). simpl. lia.
  - destruct (g a); simpl; lia.
Qed.

Lemma filter_length_lt {A} (f g : A -> bool) (l : list A) x :
  (forall x, f x = true -> g x = true) ->
  In x l -> f x = false -> g x = true ->
  (length (filter f l) < length (filter g l))%nat.
Proof.
  intros Imp. induction l as [|a l IH]; simpl; [tauto|].
  intros [->|I] F G.
  - rewrite F, G. simpl.
    pose proof (filter_length_le f g l Imp). lia.
  - specialize (IH I F G). destruct (f a) eqn:Fa.
    + rewrite (Imp a Fa). simpl. lia.
    + destruct (g a); simpl; lia.
Qed.

Lemma existsb_eqb_app (e : edge) l1 l2 :
  existsb (eqb e) (l1 ++ l2) = existsb (eqb e) l1 || existsb (eqb e) l2.
Proof. apply existsb_app. Qed.

Lemma unseen_le seen x : (unseen (seen ++ [x]) <= unseen seen)%nat.
Proof.
  unfold unseen. apply filter_length_le.
  intros e. rewrite existsb_eqb_app, negb_orb, andb_true_iff. tauto.
Qed.

Lemma unseen_lt seen x :
  In x (edge_list ci) -> ~ In x seen ->
  (unseen (seen ++ [x]) < unseen seen)%nat.
Proof.
  intros I NI. unfold unseen. apply filter_length_lt with (x := x); auto.
  - intros e. rewrite existsb_eqb_app, negb_orb, andb_true_iff. tauto.
  - rewrite existsb_eqb_app. simpl. rewrite eqb_refl.
    now rewrite orb_true_r.
  - apply negb_true_iff. destruct (existsb (eqb x) seen) eqn:E; auto.
    apply existsb_eqb_In in E. contradiction.
Qed.

(** One turn of the while loop of lines 165-198 away from the destination:
    the loop is left (no route), or it goes on from a listed edge, either
    on an alternative to an edge not visited before, or one step further
    along a route that leads to the destination. *)
Lemma plan_body_step p :
  In (p_current_edge p) (edge_list ci) ->
  route_ok (p_current_edge p) (p_shortest_path p) ->
  p_current_edge p <> dest ->
  (exists p', plan_body fuel self conn vehicle avg_deadline p = Ret (Done p'))
  \/ (exists p',
         plan_body fuel self conn vehicle avg_deadline p = Ret (Next p')
         /\ In (p_current_edge p') (edge_list ci)
         /\ p_edges p' = p_edges p ++ [p_current_edge p]
         /\ ((~ In (p_current_edge p') (p_edges p')
              /\ route_ok (p_current_edge p') (p_shortest_path p'))
             \/ (on_track (p_current_edge p') (p_shortest_path p')
                 /\ (p_shortest_path p <> [] ->
                     S (length (p_shortest_path p'))
                     = length (p_shortest_path p))))).
Proof.
  intros Ic R Nd.
  unfold plan_body. fold dest. apply eqb_neq in Nd. rewrite Nd. cbn [negb].
  assert (Rt : exists rp rd,
             match p_shortest_path p with
             | [] => find_route fuel self conn (p_current_edge p) dest
                                (deadline vehicle)
             | _ :: _ => Ret (p_shortest_path p, p_distance p)
             end = Ret (rp, rd)
             /\ route_ok (p_current_edge p) rp
             /\ (p_shortest_path p <> [] -> rp = p_shortest_path p)).
  { destruct (p_shortest_path p) as [|d sp] eqn:Sp.
    - destruct (find_route_route _ Ic) as (rp & rd & E & Rk).
      exists rp, rd. split; [exact E|]. split; [exact Rk|congruence].
    - exists (d :: sp), (p_distance p). split; [reflexivity|]. split; auto. }
  destruct Rt as (rp & rd & E & Rk & Same). rewrite E. cbn [bind fst snd].
  destruct rp as [|direct rest].
  { left. eauto. }
  right.
  destruct Rk as [Rk|(c & W)]; [discriminate|].
  simpl in W. fold ci in W.
  destruct (Dict.get (p_current_edge p) (outgoing_edges_dict ci))
    as [out|] eqn:O; [|discriminate].
  destruct (Dict.get direct out) as [e1|] eqn:D; [|discriminate].
  destruct (Dict.get e1 (edge_length_dict ci)) as [len|]; [|discriminate].
  destruct (walk ci e1 rest) as [[e' c']|] eqn:W1; [|discriminate].
  inversion W; subst e' c. clear W.
  assert (I1 : In e1 (edge_list ci))
    by (eapply topology_snapshot_next; eauto).
  fold ci. unfold index. rewrite O. cbn [bind]. rewrite D. cbn [bind].
  destruct (explore_alternatives_spec (p_current_edge p)
              (p_edges p ++ [p_current_edge p]) direct out
              {| w_distance := rd; w_shortest_path := direct :: rest;
                 w_out_edge := e1 |} Ic O I1) as (w & Ew & Ex).
  rewrite Ew. cbn [bind].
  destruct Ex as [->|(choice & e2 & p2 & d2 & C & I2 & NI & R2 & ->)];
    cbn [w_shortest_path w_out_edge w_distance item nth_error bind tl].
  - eexists. split; [reflexivity|].
    cbn [p_current_edge p_edges p_shortest_path].
    split; [exact I1|]. split; [reflexivity|]. right. split.
    + exists c'. exact W1.
    + intros Ne. rewrite <- (Same Ne). reflexivity.
  - eexists. split; [reflexivity|].
    cbn [p_current_edge p_edges p_shortest_path].
    split; [exact I2|]. split; [reflexivity|]. left. auto.
Qed.

(** The loop ends, from every state it can be in. *)
Definition ends (p : planning) : Prop :=
  exists gas p', plan_loop gas fuel self conn vehicle avg_deadline p = Ret p'.

Lemma ends_Done p p' :
  plan_body fuel self conn vehicle avg_deadline p = Ret (Done p') -> ends p.
Proof.
  intros B. exists 1%nat, p'. simpl. rewrite B. reflexivity.
Qed.

Lemma ends_Next p p' :
  plan_body fuel self conn vehicle avg_deadline p = Ret (Next p') ->
  ends p' -> ends p.
Proof.
  intros B (gas & p'' & E). exists (S gas), p''. simpl. rewrite B. exact E.
Qed.

Lemma ends_at_destination p : p_current_edge p = dest -> ends p.
Proof.
  intros E. apply ends_Done with (p' := p).
  unfold plan_body. fold dest. rewrite E, eqb_refl. reflexivity.
Qed.

Definition seen (p : planning) : list edge := p_edges p ++ [p_current_edge p].

Lemma plan_loop_on_track n :
  (forall p, In (p_current_edge p) (edge_list ci) ->
             route_ok (p_current_edge p) (p_shortest_path p) ->
             (unseen (seen p) < n)%nat -> ends p) ->
  forall k p,
    length (p_shortest_path p) = k ->
    In (p_current_edge p) (edge_list ci) ->
    on_track (p_current_edge p) (p_shortest_path p) ->
    (unseen (seen p) <= n)%nat ->
    ends p.
Proof.
  intros Outer. induction k as [k IH] using lt_wf_ind.
  intros p Lk Ic Tr Un.
  destruct (eqb_spec (p_current_edge p) dest) as [E|Nd].
  { now apply ends_at_destination. }
  assert (Ne : p_shortest_path p <> []).
  { intros Sp. destruct Tr as (c & W). rewrite Sp in W. simpl in W.
    inversion W. contradiction. }
  destruct (plan_body_step p Ic (or_intror Tr) Nd)
    as [(p' & B)|(p' & B & I' & Ed & [[NI R']|[Tr' Len]])].
  - eapply ends_Done; eauto.
  - eapply ends_Next; eauto. apply Outer; auto.
    unfold seen. rewrite Ed.
    pose proof (unseen_lt (p_edges p ++ [p_current_edge p])
                          (p_current_edge p') I') as Lt.
    rewrite Ed in NI. specialize (Lt NI). unfold seen in Un. lia.
  - eapply ends_Next; eauto.
    apply (IH (length (p_shortest_path p'))); auto.
    + specialize (Len Ne). lia.
    + unfold seen. rewrite Ed.
      pose proof (unseen_le (p_edges p ++ [p_current_edge p])
                            (p_current_edge p')).
      unfold seen in Un. lia.
Qed.

Lemma plan_loop_ends n : forall p,
  In (p_current_edge p) (edge_list ci) ->
  route_ok (p_current_edge p) (p_shortest_path p) ->
  (unseen (seen p) < n)%nat -> ends p.
Proof.
  induction n as [|n IH]; intros p Ic R Un; [lia|].
  destruct (eqb_spec (p_current_edge p) dest) as [E|Nd].
  { now apply ends_at_destination. }
  destruct R as [Sp|Tr].
  2:{ apply (plan_loop_on_track n IH (length (p_shortest_path p))); auto.
      lia. }
  destruct (plan_body_step p Ic (or_introl Sp) Nd)
    as [(p' & B)|(p' & B & I' & Ed & [[NI R']|[Tr' Len]])].
  - eapply ends_Done; eauto.
  - eapply ends_Next; eauto. apply IH; auto.
    unfold seen. rewrite Ed.
    pose proof (unseen_lt (p_edges p ++ [p_current_edge p])
                          (p_current_edge p') I') as Lt.
    rewrite Ed in NI. specialize (Lt NI). unfold seen in Un. lia.
  - eapply ends_Next; eauto.
    apply (plan_loop_on_track n IH (length (p_shortest_path p'))); auto.
    unfold seen. rewrite Ed.
    pose proof (unseen_le (p_edges p ++ [p_current_edge p])
                          (p_current_edge p')).
    unfold seen in Un. lia.
Qed.

End Planning.

(** ** make_decisions returns *)

Lemma on_the_map_listed ci v :
  on_the_map ci v = true ->
  In (current_edge v) (edge_list ci) /\ In (destination v) (edge_list ci).
Proof.
  unfold on_the_map. rewrite andb_true_iff, !listed_In. tauto.
Qed.

Lemma plan_returns self conn vehicle avg_deadline :
  topology_snapshot (connection_info self) = true ->
  positive_lengths (connection_info self) = true ->
  on_the_map (connection_info self) vehicle = true ->
  exists N, forall fuel, (N <= fuel)%nat ->
    exists decision_list,
      plan fuel self conn vehicle avg_deadline = Ret decision_list.
Proof.
  intros T P M. apply on_the_map_listed in M. destruct M as [Ic Id].
  set (fuel0 := S (length (edge_list (connection_info self)))).
  set (p0 := {| p_current_edge := current_edge vehicle; p_edges := [];
                p_decision_list := []; p_shortest_path := [];
                p_distance := 0 |}).
  destruct (plan_loop_ends self conn vehicle avg_deadline fuel0 T P Id
              (Nat.lt_succ_diag_r _)
              (S (unseen self (seen p0))) p0) as (gas & p' & E).
  - exact Ic.
  - now left.
  - lia.
  - exists (Nat.max gas fuel0). intros fuel Le.
    exists (p_decision_list p'). unfold plan. fold p0.
    rewrite (plan_loop_more self conn vehicle avg_deadline gas fuel0 fuel fuel
                            p0 (Ret p') E); try lia; [reflexivity|discriminate].
Qed.

(** Without a route the plan is empty. *)
Lemma plan_no_route self conn vehicle avg_deadline fuel :
  topology_snapshot (connection_info self) = true ->
  positive_lengths (connection_info self) = true ->
  on_the_map (connection_info self) vehicle = true ->
  (length (edge_list (connection_info self)) < fuel)%nat ->
  (forall q c, walk (connection_info self) (current_edge vehicle) q
               <> Some (destination vehicle, c)) ->
  plan fuel self conn vehicle avg_deadline = Ret [].
Proof.
  intros T P M F No. apply on_the_map_listed in M. destruct M as [Ic Id].
  unfold plan. destruct fuel as [|gas]; [lia|].
  cbn [plan_loop]. unfold plan_body. cbn [p_current_edge p_shortest_path].
  assert (Nd : eqb (current_edge vehicle) (destination vehicle) = false).
  { apply eqb_neq. intros E. apply (No [] 0). simpl. now rewrite E. }
  rewrite Nd. cbn [negb].
  destruct (find_route_route self conn vehicle (S gas) T P Id F
                             (current_edge vehicle) Ic)
    as (p & d & E & [->|(c & W)]).
  - rewrite E. reflexivity.
  - exfalso. apply (No _ _ W).
Qed.

(** The for loop of lines 159-200 on vehicles that each get a plan and a
    local target. *)
Lemma decide_all fuel self conn avg_deadline : forall vehicles acc,
  (forall v, In v vehicles ->
             exists dl t, plan fuel self conn v avg_deadline = Ret dl
                          /\ compute_local_target self dl v = Ret t) ->
  exists m,
    for_each (decide_vehicle fuel self conn avg_deadline) vehicles acc = Ret m
    /\ (forall k, ~ In k (map vehicle_id vehicles) ->
                  Dict.get k m = Dict.get k acc)
    /\ (NoDup (map vehicle_id vehicles) ->
        forall v, In v vehicles ->
          exists dl t, plan fuel self conn v avg_deadline = Ret dl
                       /\ compute_local_target self dl v = Ret t
                       /\ Dict.get (vehicle_id v) m = Some t)
    /\ (NoDup (Dict.keys acc ++ map vehicle_id vehicles) ->
        Dict.keys m = Dict.keys acc ++ map vehicle_id vehicles).
Proof.
  induction vehicles as [|v vs IH]; intros acc All.
  - exists acc. simpl. split; [reflexivity|]. split; [auto|].
    split; [intros _ v []|]. intros _. now rewrite app_nil_r.
  - destruct (All v (or_introl eq_refl)) as (dl & t & Pl & Ct).
    destruct (IH (Dict.set (vehicle_id v) t acc)) as (m & E & Out & Each & Keys).
    { intros v' I'. apply All. now right. }
    exists m. cbn [for_each]. unfold decide_vehicle at 1.
    rewrite Pl. cbn [bind]. rewrite Ct. cbn [bind].
    split; [exact E|]. split; [|split].
    + intros k NI. rewrite Out.
      * apply get_set_other. intros Ek. apply NI. subst. now left.
      * intros I. apply NI. now right.
    + intros ND v' [->|I'].
      * exists dl, t. split; [exact Pl|]. split; [exact Ct|].
        rewrite Out; [apply get_set_same|].
        simpl in ND. inversion ND; auto.
      * apply Each; auto. simpl in ND. now inversion ND.
    + intros ND. cbn [map].
      assert (Mv : Dict.mem (vehicle_id v) acc = false).
      { destruct (Dict.mem (vehicle_id v) acc) eqn:Mv; auto.
        apply mem_In in Mv. exfalso.
        apply NoDup_remove_2 in ND. apply ND.
        apply in_or_app. now left. }
      rewrite Keys; rewrite (keys_set_new _ _ _ Mv).
      * now rewrite <- app_assoc.
      * rewrite <- app_assoc. exact ND.
Qed.

Lemma make_decisions_returns self vehicles conn avg_deadline :
  topology_snapshot (connection_info self) = true ->
  positive_lengths (connection_info self) = true ->
  forallb (on_the_map (connection_info self)) vehicles = true ->
  exists N, forall fuel, (N <= fuel)%nat ->
    forall v, In v vehicles ->
      exists dl t, plan fuel self conn v avg_deadline = Ret dl
                   /\ compute_local_target self dl v = Ret t.
Proof.
  intros T P. induction vehicles as [|v vs IH]; intros M.
  - exists 0%nat. intros fuel _ v [].
  - simpl in M. apply andb_true_iff in M. destruct M as [Mv Ms].
    destruct (IH Ms) as (N1 & H1).
    destruct (plan_returns self conn v avg_deadline T P Mv) as (N2 & H2).
    exists (Nat.max N1 N2). intros fuel Le v' [<-|I'].
    + destruct (H2 fuel) as (dl & Pl); [lia|].
      apply on_the_map_listed in Mv. destruct Mv as [Ic _].
      destruct (resolve_returns self dl v T P Ic) as (r & R).
      exists dl, (r_target r). split; [exact Pl|].
      unfold compute_local_target. rewrite R. reflexivity.
    + apply H1; auto. lia.
Qed.

Lemma decide_all_inv fuel self conn avg_deadline : forall vehicles acc m,
  for_each (decide_vehicle fuel self conn avg_deadline) vehicles acc = Ret m ->
  forall v, In v vehicles ->
    exists dl t, plan fuel self conn v avg_deadline = Ret dl
                 /\ compute_local_target self dl v = Ret t.
Proof.
  induction vehicles as [|v vs IH]; intros acc m E v' I; [destruct I|].
  cbn [for_each] in E. apply bind_Ret_inv in E. destruct E as (acc' & D & E).
  destruct I as [<-|I].
  - unfold decide_vehicle in D.
    apply bind_Ret_inv in D. destruct D as (dl & Pl & D).
    apply bind_Ret_inv in D. destruct D as (t & Ct & _).
    eauto.
  - eapply IH; eauto.
Qed.

(** C8: for a batch of vehicles with pairwise distinct identifiers, a
    mapping returned by [make_decisions] has exactly the identifiers of the
    batch as its keys, each once, in the order of the batch; the entry of a
    vehicle is the local target of its decision list, and it is the
    vehicle's current edge when the decision list is empty.  On a topology
    snapshot with positive edge lengths and vehicles whose edges are on the
    map, [make_decisions] does return a mapping. *)
Theorem C8_one_entry_per_vehicle self vehicles conn avg_deadline :
  distinct (map vehicle_id vehicles) = true ->
  (forall fuel local_targets,
      make_decisions fuel self vehicles conn avg_deadline = Ret local_targets ->
      Dict.keys local_targets = map vehicle_id vehicles
      /\ forall v, In v vehicles ->
           exists decision_list target,
             plan fuel self conn v avg_deadline = Ret decision_list
             /\ compute_local_target self decision_list v = Ret target
             /\ Dict.get (vehicle_id v) local_targets = Some target
             /\ (decision_list = [] -> target = current_edge v))
  /\ (topology_snapshot (connection_info self) = true ->
      positive_lengths (connection_info self) = true ->
      forallb (on_the_map (connection_info self)) vehicles = true ->
      exists N, forall fuel, (N <= fuel)%nat ->
        exists local_targets,
          make_decisions fuel self vehicles conn avg_deadline
          = Ret local_targets).
Proof.
  intros D. apply distinct_NoDup in D. split.
  - intros fuel m E.
    pose proof (decide_all_inv fuel self conn avg_deadline vehicles [] m E)
      as All.
    destruct (decide_all fuel self conn avg_deadline vehicles [] All)
      as (m' & E' & _ & Each & Keys).
    unfold make_decisions in E. rewrite E in E'. inversion E'; subst m'.
    split; [now apply Keys|].
    intros v I. destruct (Each D v I) as (dl & t & Pl & Ct & G).
    exists dl, t. repeat split; auto.
    intros ->. rewrite compute_local_target_nil in Ct. now inversion Ct.
  - intros T P M.
    destruct (make_decisions_returns self vehicles conn avg_deadline T P M)
      as (N & H).
    exists N. intros fuel Le.
    destruct (decide_all fuel self conn avg_deadline vehicles [] (H fuel Le))
      as (m & E & _).
    exists m. exact E.
Qed.

Lemma C8_one_entry_per_vehicle_witness :
  distinct (map vehicle_id
                [named_car "v1" "A" "D" 10 5; named_car "v2" "B" "C" 0 5])
  = true
  /\ make_decisions 5 (init (diamond LEFT RIGHT STRAIGHT STRAIGHT 0 5))
       [named_car "v1" "A" "D" 10 5; named_car "v2" "B" "C" 0 5]
       (diamond LEFT RIGHT STRAIGHT STRAIGHT 0 5) 5
     = Ret [("v1"%string, "D"%string); ("v2"%string, "B"%string)]
  /\ Dict.keys [("v1"%string, "D"%string); ("v2"%string, "B"%string)]
     = map vehicle_id
           [named_car "v1" "A" "D" 10 5; named_car "v2" "B" "C" 0 5]
  /\ forall v,
      In v [named_car "v1" "A" "D" 10 5; named_car "v2" "B" "C" 0 5] ->
      exists decision_list target,
        plan 5 (init (diamond LEFT RIGHT STRAIGHT STRAIGHT 0 5))
             (diamond LEFT RIGHT STRAIGHT STRAIGHT 0 5) v 5
        = Ret decision_list
        /\ compute_local_target
             (init (diamond LEFT RIGHT STRAIGHT STRAIGHT 0 5))
             decision_list v = Ret target
        /\ Dict.get (vehicle_id v)
                    [("v1"%string, "D"%string); ("v2"%string, "B"%string)]
           = Some target
        /\ (decision_list = [] -> target = current_edge v).
Proof.
  split; [reflexivity|]. split; [reflexivity|].
  apply (proj1 (C8_one_entry_per_vehicle
                  (init (diamond LEFT RIGHT STRAIGHT STRAIGHT 0 5))
                  [named_car "v1" "A" "D" 10 5; named_car "v2" "B" "C" 0 5]
                  (diamond LEFT RIGHT STRAIGHT STRAIGHT 0 5) 5 eq_refl) 5%nat).
  reflexivity.
Defined.

(** ** The failure modes *)

(** C4, as stated for every input, fails: only [UserWarning] is caught
    (line 79).  For a vehicle on an edge that the topology does not hold,
    line 103 indexes [edge_length_dict] at that edge and the [KeyError]
    leaves [make_decisions]; handed a decision list for such a vehicle,
    [compute_local_target] raises it at line 65. *)
Lemma C4_counterexample :
  make_decisions 5 (init two_way) [car "J" "E" 0 0] two_way 0
  = Raise KeyError
  /\ compute_local_target (init two_way) [STRAIGHT] (car "J" "E" 0 0)
     = Raise KeyError.
Proof. split; reflexivity. Qed.

(** C4 (amended): on a topology snapshot (every listed edge has an outgoing
    map to listed edges, a length and a vehicle count) with positive edge
    lengths,
    - [compute_local_target] returns for every decision list and every
      vehicle on a listed edge, whichever way the walk ends (lookahead
      reached, destination, decisions exhausted, invalid direction, two
      turn-arounds in a row): the edge returned is the end of the walk along
      the decisions applied, the last edge reached;
    - [make_decisions] returns a mapping for every batch of vehicles on the
      map: no exception leaves it and it does not run forever;
    - a vehicle with no route to its destination gets an empty plan, and
      the resolver then returns its current edge. *)
Theorem C4_failures_recovered self conn avg_deadline :
  topology_snapshot (connection_info self) = true ->
  positive_lengths (connection_info self) = true ->
  (forall decision_list vehicle,
      listed (connection_info self) (current_edge vehicle) = true ->
      exists r,
        resolve self decision_list vehicle = Ret r
        /\ compute_local_target self decision_list vehicle
           = Ret (r_target r)
        /\ walk (connection_info self) (current_edge vehicle)
                (firstn (consumed r) decision_list)
           = Some (r_target r, r_path_length r)
        /\ exit_justified self decision_list vehicle r)
  /\ (forall vehicles,
         forallb (on_the_map (connection_info self)) vehicles = true ->
         exists N, forall fuel, (N <= fuel)%nat ->
           exists local_targets,
             make_decisions fuel self vehicles conn avg_deadline
             = Ret local_targets)
  /\ (forall vehicle fuel,
         on_the_map (connection_info self) vehicle = true ->
         (length (edge_list (connection_info self)) < fuel)%nat ->
         (forall q c,
             walk (connection_info self) (current_edge vehicle) q
             <> Some (destination vehicle, c)) ->
         plan fuel self conn vehicle avg_deadline = Ret []
         /\ compute_local_target self [] vehicle
            = Ret (current_edge vehicle)).
Proof.
  intros T P. split; [|split].
  - intros dl v L. apply listed_In in L.
    destruct (resolve_returns self dl v T P L) as (r & R).
    exists r. split; [exact R|].
    split; [unfold compute_local_target; rewrite R; reflexivity|].
    now apply resolve_sound.
  - intros vehicles M.
    destruct (make_decisions_returns self vehicles conn avg_deadline T P M)
      as (N & H).
    exists N. intros fuel Le.
    destruct (decide_all fuel self conn avg_deadline vehicles [] (H fuel Le))
      as (m & E & _).
    exists m. exact E.
  - intros v fuel M F No. split.
    + now apply plan_no_route.
    + apply compute_local_target_nil.
Qed.

Lemma C4_failures_recovered_witness :
  (topology_snapshot (connection_info (init two_way)) = true
   /\ positive_lengths (connection_info (init two_way)) = true)
  /\ (resolve (init two_way) [STRAIGHT; LEFT] (car "E" "W" 0 0)
      = Ret {| r_target := "F"%string; r_path_length := 5; r_i := 1;
               r_exit := InvalidDirection |}
      /\ resolve (init two_way) [TURN_AROUND] (car "E" "F" 0 0)
         = Ret {| r_target := "W"%string; r_path_length := 5; r_i := 1;
                  r_exit := NotEnoughDecisions |}
      /\ resolve (init two_way) [TURN_AROUND; TURN_AROUND; STRAIGHT]
                 (car "E" "F" 0 0)
         = Ret {| r_target := "E"%string; r_path_length := 10; r_i := 1;
                  r_exit := TurnaroundLoop |}
      /\ make_decisions 4 (init two_way) [car "F" "E" 0 0] two_way 0
         = Ret [("v0"%string, "F"%string)])
  /\ (forall decision_list vehicle,
      listed (connection_info (init two_way)) (current_edge vehicle) = true ->
      exists r,
        resolve (init two_way) decision_list vehicle = Ret r
        /\ compute_local_target (init two_way) decision_list vehicle
           = Ret (r_target r)
        /\ walk (connection_info (init two_way)) (current_edge vehicle)
                (firstn (consumed r) decision_list)
           = Some (r_target r, r_path_length r)
        /\ exit_justified (init two_way) decision_list vehicle r)
  /\ (forall vehicles,
         forallb (on_the_map (connection_info (init two_way))) vehicles = true ->
         exists N, forall fuel, (N <= fuel)%nat ->
           exists local_targets,
             make_decisions fuel (init two_way) vehicles two_way 0
             = Ret local_targets)
  /\ (forall vehicle fuel,
         on_the_map (connection_info (init two_way)) vehicle = true ->
         (length (edge_list (connection_info (init two_way))) < fuel)%nat ->
         (forall q c,
             walk (connection_info (init two_way)) (current_edge vehicle) q
             <> Some (destination vehicle, c)) ->
         plan fuel (init two_way) two_way vehicle 0 = Ret []
         /\ compute_local_target (init two_way) [] vehicle
            = Ret (current_edge vehicle)).
Proof.
  split; [split; reflexivity|].
  split; [repeat split; reflexivity|].
  apply (C4_failures_recovered (init two_way) two_way 0); reflexivity.
Defined.

(** ** The alternative directions *)


Lemma worth_a_route_spec self vehicle edges out_edge e2 b :
  worth_a_route self vehicle edges out_edge e2 = Ret b ->
  (b = true <->
   ~ In e2 edges
   /\ exists c2 c1,
       Dict.get e2 (edge_vehicle_count (connection_info self)) = Some c2
       /\ Dict.get out_edge (edge_vehicle_count (connection_info self))
          = Some c1
       /\ c2 <= c1
       /\ out_edge <> destination vehicle).
Proof.
  unfold worth_a_route.
  destruct (existsb (eqb e2) edges) eqn:Ex.
  - intros H. inversion H. split; [discriminate|].
    intros [NI _]. apply existsb_eqb_In in Ex. contradiction.
  - assert (NI : ~ In e2 edges).
    { intros I. apply existsb_eqb_In in I. congruence. }
    unfold index.
    destruct (Dict.get e2 (edge_vehicle_count (connection_info self)))
      as [c2|]; cbn [bind]; [|discriminate].
    destruct (Dict.get out_edge (edge_vehicle_count (connection_info self)))
      as [c1|]; cbn [bind]; [|discriminate].
    destruct (c2 <=? c1) eqn:Le.
    + apply Z.leb_le in Le.
      destruct (eqb_spec out_edge (destination vehicle)) as [E|N];
        intros H; inversion H; simpl; split; try discriminate.
      * intros (_ & c2' & c1' & _ & _ & _ & N). contradiction.
      * intros _. split; [exact NI|]. exists c2, c1. auto.
      * reflexivity.
    + apply Z.leb_gt in Le. intros H. inversion H. split; [discriminate|].
      intros (_ & c2' & c1' & E2 & E1 & Le' & _).
      inversion E2; inversion E1; subst. lia.
Qed.



(** ** The deadline is read through one comparison *)

Lemma compute_local_target_loop_reads self decision_list v v' fuel :
  current_speed v = current_speed v' -> destination v = destination v' ->
  forall cur pl i,
    compute_local_target_loop fuel self decision_list v cur pl i
    = compute_local_target_loop fuel self decision_list v' cur pl i.
Proof.
  intros Hs Hd. induction fuel as [|fuel IH]; intros cur pl i; simpl; auto.
  rewrite Hs, Hd.
  destruct (pl <=? Z.max (current_speed v') 20); auto.
  destruct (eqb cur (destination v')); auto.
  destruct (length decision_list <=? i)%nat; auto.
  destruct (item decision_list i); simpl; auto.
  destruct (index (outgoing_edges_dict (connection_info self)) cur);
    simpl; auto.
  destruct (Dict.mem a a0); simpl; auto.
  destruct (index a0 a); simpl; auto.
  destruct (index (edge_length_dict (connection_info self)) a1); simpl; auto.
  destruct (turnaround_twice decision_list i); auto.
Qed.

Lemma compute_local_target_deadline self decision_list v dl :
  compute_local_target self decision_list (with_deadline v dl)
  = compute_local_target self decision_list v.
Proof.
  unfold compute_local_target, resolve.
  rewrite (compute_local_target_loop_reads self decision_list
             (with_deadline v dl) v); reflexivity.
Qed.

Lemma plan_body_deadline fuel self conn v avg dl' avg' p :
  (deadline v >? avg) = (dl' >? avg') ->
  plan_body fuel self conn (with_deadline v dl') avg' p
  = plan_body fuel self conn v avg p.
Proof.
  intros H. unfold plan_body, explore_alternatives.
  cbn [with_deadline deadline destination]. rewrite <- H. reflexivity.
Qed.

Lemma plan_loop_deadline fuel self conn v avg dl' avg' gas :
  (deadline v >? avg) = (dl' >? avg') ->
  forall p,
    plan_loop gas fuel self conn (with_deadline v dl') avg' p
    = plan_loop gas fuel self conn v avg p.
Proof.
  intros H. induction gas as [|gas IH]; intros p; simpl; auto.
  rewrite (plan_body_deadline fuel self conn v avg dl' avg' p H).
  destruct (plan_body fuel self conn v avg p) as [[p'|p']| |]; simpl; auto.
Qed.

Lemma plan_deadline fuel self conn v avg dl' avg' :
  (deadline v >? avg) = (dl' >? avg') ->
  plan fuel self conn (with_deadline v dl') avg' = plan fuel self conn v avg.
Proof.
  intros H. unfold plan.
  rewrite (plan_loop_deadline fuel self conn v avg dl' avg' fuel H).
  reflexivity.
Qed.

(** ** The diamond *)

Lemma every_labelling_checked : every_labelling_goes_through_B = true.
Proof. vm_compute. reflexivity. Qed.

Lemma In_all_directions d : In d all_directions.
Proof. destruct d; simpl; tauto. Qed.

Lemma goes_through_B_spec ci dB dBD :
  goes_through_B ci dB dBD = true ->
  plan 5 (init ci) ci (car "A" "D" 1 5) 0 = Ret [dB; dBD]
  /\ make_decisions 5 (init ci) [car "A" "D" 1 5] ci 0
     = Ret [("v0"%string, "D"%string)].
Proof.
  unfold goes_through_B.
  destruct (plan 5 (init ci) ci (car "A" "D" 1 5) 0)
    as [[|d1 [|d2 [|d3 l]]]| |]; try discriminate.
  destruct (make_decisions 5 (init ci) [car "A" "D" 1 5] ci 0)
    as [[|[id t] [|x m]]| |]; try discriminate.
  rewrite !andb_true_iff, !eqb_eq. intros [[[-> ->] ->] ->]. auto.
Qed.

Lemma diamond_scenario ci dB dBD dl avg fuel :
  goes_through_B ci dB dBD = true ->
  avg < dl -> (5 <= fuel)%nat ->
  plan fuel (init ci) ci (car "A" "D" dl 5) avg = Ret [dB; dBD]
  /\ make_decisions fuel (init ci) [car "A" "D" dl 5] ci avg
     = Ret [("v0"%string, "D"%string)].
Proof.
  intros G Lt Le. apply goes_through_B_spec in G. destruct G as [Pl Md].
  assert (Gate : (deadline (car "A" "D" dl 5) >? avg) = (1 >? 0)).
  { simpl. apply Z.gtb_lt in Lt. rewrite Lt. reflexivity. }
  pose proof (plan_deadline 5%nat (init ci) ci (car "A" "D" dl 5) avg 1 0
                Gate)
    as Pd.
  change (with_deadline (car "A" "D" dl 5) 1) with (car "A" "D" 1 5) in Pd.
  rewrite Pl in Pd. symmetry in Pd.
  assert (Ct : compute_local_target (init ci) [dB; dBD] (car "A" "D" dl 5)
               = Ret "D"%string).
  { rewrite <- (compute_local_target_deadline (init ci) [dB; dBD]
                  (car "A" "D" dl 5) 1).
    change (with_deadline (car "A" "D" dl 5) 1) with (car "A" "D" 1 5).
    unfold make_decisions in Md. cbn [for_each] in Md.
    unfold decide_vehicle in Md. rewrite Pl in Md. cbn [bind] in Md.
    destruct (compute_local_target (init ci) [dB; dBD] (car "A" "D" 1 5))
      as [t| |]; simpl in Md; inversion Md. reflexivity. }
  assert (P5 : plan fuel (init ci) ci (car "A" "D" dl 5) avg = Ret [dB; dBD]).
  { apply (stable_plan (init ci) ci (car "A" "D" dl 5) avg 5%nat fuel); auto.
    discriminate. }
  split; [exact P5|].
  unfold make_decisions. cbn [for_each]. unfold decide_vehicle.
  rewrite P5. cbn [bind]. rewrite Ct. reflexivity.
Qed.

(** C9: on the diamond (A to B by [dB], A to C by [dC], B to D by [dBD],
    C to D by [dCD], every length 10, no vehicle on B and 5 on C), whatever
    the four direction labels (with [dB] and [dC] distinct) and whether B or
    C comes first in the edge list and in the outgoing map of A, a vehicle
    on A bound for D with speed 5 and a deadline above [avg_deadline] gets
    the decision list [dB; dBD], which starts with the direction from A
    toward B, and the local target D. *)
Theorem C9_diamond_prefers_B dB dC dBD dCD dl avg_deadline fuel :
  dB <> dC -> avg_deadline < dl -> (5 <= fuel)%nat ->
  (plan fuel (init (diamond dB dC dBD dCD 0 5)) (diamond dB dC dBD dCD 0 5)
        (car "A" "D" dl 5) avg_deadline = Ret [dB; dBD]
   /\ make_decisions fuel (init (diamond dB dC dBD dCD 0 5))
        [car "A" "D" dl 5] (diamond dB dC dBD dCD 0 5) avg_deadline
      = Ret [("v0"%string, "D"%string)]
   /\ walk (diamond dB dC dBD dCD 0 5) "A" [dB] = Some ("B"%string, 10))
  /\ (plan fuel (init (diamond_c_first dB dC dBD dCD 0 5))
           (diamond_c_first dB dC dBD dCD 0 5) (car "A" "D" dl 5)
           avg_deadline = Ret [dB; dBD]
      /\ make_decisions fuel (init (diamond_c_first dB dC dBD dCD 0 5))
           [car "A" "D" dl 5] (diamond_c_first dB dC dBD dCD 0 5)
           avg_deadline
         = Ret [("v0"%string, "D"%string)]
      /\ walk (diamond_c_first dB dC dBD dCD 0 5) "A" [dB]
         = Some ("B"%string, 10)).
Proof.
  intros Ne Lt Le.
  pose proof every_labelling_checked as All.
  unfold every_labelling_goes_through_B in All.
  rewrite forallb_forall in All.
  specialize (All dB (In_all_directions dB)).
  rewrite forallb_forall in All.
  specialize (All dC (In_all_directions dC)).
  rewrite forallb_forall in All.
  specialize (All dBD (In_all_directions dBD)).
  rewrite forallb_forall in All.
  specialize (All dCD (In_all_directions dCD)).
  apply eqb_neq in Ne. rewrite Ne in All. cbn [orb] in All.
  apply andb_true_iff in All. destruct All as [G1 G2].
  destruct (diamond_scenario _ dB dBD dl avg_deadline fuel G1 Lt Le)
    as [P1 M1].
  destruct (diamond_scenario _ dB dBD dl avg_deadline fuel G2 Lt Le)
    as [P2 M2].
  apply eqb_neq in Ne.
  split; (split; [assumption|split; [assumption|]]).
  - simpl. rewrite eqb_refl. reflexivity.
  - simpl. apply eqb_neq in Ne. rewrite Ne, eqb_refl. reflexivity.
Qed.

Lemma C9_diamond_prefers_B_witness :
  (LEFT <> RIGHT /\ 5 < 10 /\ (5 <= 5)%nat)
  /\ (plan 5 (init (diamond LEFT RIGHT STRAIGHT STRAIGHT 0 5))
           (diamond LEFT RIGHT STRAIGHT STRAIGHT 0 5) (car "A" "D" 10 5) 5
      = Ret [LEFT; STRAIGHT]
      /\ make_decisions 5 (init (diamond LEFT RIGHT STRAIGHT STRAIGHT 0 5))
           [car "A" "D" 10 5] (diamond LEFT RIGHT STRAIGHT STRAIGHT 0 5) 5
         = Ret [("v0"%string, "D"%string)]
      /\ walk (diamond LEFT RIGHT STRAIGHT STRAIGHT 0 5) "A" [LEFT]
         = Some ("B"%string, 10))
  /\ (plan 5 (init (diamond_c_first LEFT RIGHT STRAIGHT STRAIGHT 0 5))
           (diamond_c_first LEFT RIGHT STRAIGHT STRAIGHT 0 5)
           (car "A" "D" 10 5) 5 = Ret [LEFT; STRAIGHT]
      /\ make_decisions 5
           (init (diamond_c_first LEFT RIGHT STRAIGHT STRAIGHT 0 5))
           [car "A" "D" 10 5]
           (diamond_c_first LEFT RIGHT STRAIGHT STRAIGHT 0 5) 5
         = Ret [("v0"%string, "D"%string)]
      /\ walk (diamond_c_first LEFT RIGHT STRAIGHT STRAIGHT 0 5) "A" [LEFT]
         = Some ("B"%string, 10)).
Proof.
  split.
  - split; [discriminate|]. split; [reflexivity|]. apply le_n.
  - apply (C9_diamond_prefers_B LEFT RIGHT STRAIGHT STRAIGHT 10 5 5).
    + discriminate.
    + reflexivity.
    + apply le_n.
Defined.

(** * Following a decision list *)

Lemma follow_app ci e p q :
  follow ci e (p ++ q) =
  match follow ci e p with
  | Some e' => follow ci e' q
  | None => None
  end.
Proof.
  revert e. induction p as [|d p IH]; intros e; simpl; auto.
  destruct (Dict.get e (outgoing_edges_dict ci)) as [out|]; auto.
  destruct (Dict.get d out) as [e1|]; auto.
Qed.

Lemma follow_snoc ci e p d x out y :
  follow ci e p = Some x ->
  Dict.get x (outgoing_edges_dict ci) = Some out ->
  Dict.get d out = Some y ->
  follow ci e (p ++ [d]) = Some y.
Proof.
  intros F O D. rewrite follow_app, F. simpl. now rewrite O, D.
Qed.

Lemma walk_follow ci p : forall e e' c,
  walk ci e p = Some (e', c) -> follow ci e p = Some e'.
Proof.
  induction p as [|d p IH]; intros e e' c W; simpl in *.
  - now inversion W.
  - destruct (Dict.get e (outgoing_edges_dict ci)) as [out|]; [|discriminate].
    destruct (Dict.get d out) as [e1|]; [|discriminate].
    destruct (Dict.get e1 (edge_length_dict ci)) as [len|]; [|discriminate].
    destruct (walk ci e1 p) as [[e2 c2]|] eqn:W1; [|discriminate].
    inversion W; subst. eapply IH; eauto.
Qed.

(** * Further properties of compute_local_target *)

(** More fuel does not change what the loop of lines 56-77 does. *)
Lemma compute_local_target_loop_more self decision_list vehicle fuel :
  forall cur pl i o fuel',
    compute_local_target_loop fuel self decision_list vehicle cur pl i = o ->
    o <> OutOfFuel -> (fuel <= fuel')%nat ->
    compute_local_target_loop fuel' self decision_list vehicle cur pl i = o.
Proof.
  induction fuel as [|fuel IH]; intros cur pl i o fuel' E N Le; simpl in E.
  - congruence.
  - destruct fuel' as [|fuel']; [lia|]. simpl.
    destruct (pl <=? Z.max (current_speed vehicle) 20); auto.
    destruct (eqb cur (destination vehicle)); auto.
    destruct (length decision_list <=? i)%nat; auto.
    destruct (item decision_list i) as [choice| |]; simpl in *; auto.
    destruct (index (outgoing_edges_dict (connection_info self)) cur)
      as [out| |]; simpl in *; auto.
    destruct (Dict.mem choice out); simpl in *; auto.
    destruct (index out choice) as [next| |]; simpl in *; auto.
    destruct (index (edge_length_dict (connection_info self)) next)
      as [len| |]; simpl in *; auto.
    destruct (turnaround_twice decision_list i); auto.
    apply IH; auto. lia.
Qed.

(** [decision_list[i]] is read under the guard of line 59: the loop raises
    no [IndexError], and [i] never passes [len(decision_list)]. *)
Lemma compute_local_target_loop_bounds self decision_list vehicle fuel :
  forall cur pl i,
    (i <= length decision_list)%nat ->
    compute_local_target_loop fuel self decision_list vehicle cur pl i
    <> Raise IndexError
    /\ forall r,
        compute_local_target_loop fuel self decision_list vehicle cur pl i
        = Ret r ->
        (r_i r <= length decision_list)%nat
        /\ (consumed r <= length decision_list)%nat.
Proof.
  induction fuel as [|fuel IH]; intros cur pl i Le; simpl.
  { split; [discriminate|]. intros r E. discriminate. }
  destruct (pl <=? Z.max (current_speed vehicle) 20).
  2:{ split; [discriminate|]. intros r E. inversion E; subst.
      unfold consumed; simpl. auto. }
  destruct (eqb cur (destination vehicle)).
  { split; [discriminate|]. intros r E. inversion E; subst.
    unfold consumed; simpl. auto. }
  destruct (length decision_list <=? i)%nat eqn:Len.
  { split; [discriminate|]. intros r E. inversion E; subst.
    unfold consumed; simpl. auto. }
  apply Nat.leb_gt in Len.
  destruct (nth_error decision_list i) as [choice|] eqn:C.
  2:{ apply nth_error_None in C. lia. }
  unfold item. rewrite C. cbn [bind].
  unfold index.
  destruct (Dict.get cur (outgoing_edges_dict (connection_info self)))
    as [out|]; cbn [bind].
  2:{ split; [discriminate|]. intros r E. discriminate. }
  destruct (Dict.mem choice out); cbn [negb].
  2:{ split; [discriminate|]. intros r E. inversion E; subst.
      unfold consumed; simpl. lia. }
  destruct (Dict.get choice out) as [next|]; cbn [bind].
  2:{ split; [discriminate|]. intros r E. discriminate. }
  destruct (Dict.get next (edge_length_dict (connection_info self)))
    as [len|]; cbn [bind].
  2:{ split; [discriminate|]. intros r E. discriminate. }
  destruct (turnaround_twice decision_list i).
  { split; [discriminate|]. intros r E. inversion E; subst.
    unfold consumed; simpl. lia. }
  apply IH. lia.
Qed.

(** X1: [compute_local_target] ends on every decision list, every vehicle
    and every topology: the loop of lines 56-77 takes at most
    [len(decision_list) + 1] turns, so that any larger bound on its turns
    gives the same outcome.  The outcome is an edge, reached after applying
    at most [len(decision_list)] decisions, or a [KeyError]; it is never an
    [IndexError], the list being read under the guard of line 59. *)
Theorem X1_local_target_ends self decision_list vehicle k :
  compute_local_target_loop (S (length decision_list) + k) self decision_list
                            vehicle (current_edge vehicle) 0 0
  = resolve self decision_list vehicle
  /\ ((exists r,
          resolve self decision_list vehicle = Ret r
          /\ compute_local_target self decision_list vehicle
             = Ret (r_target r)
          /\ (consumed r <= length decision_list)%nat)
      \/ (resolve self decision_list vehicle = Raise KeyError
          /\ compute_local_target self decision_list vehicle
             = Raise KeyError)).
Proof.
  split.
  - apply compute_local_target_loop_more
      with (fuel := S (length decision_list)); [reflexivity| |lia].
    apply resolve_fuel.
  - pose proof (resolve_fuel self decision_list vehicle) as NF.
    destruct (compute_local_target_loop_bounds self decision_list vehicle
                (S (length decision_list)) (current_edge vehicle) 0 0%nat)
      as [NI B]; [lia|].
    fold (resolve self decision_list vehicle) in NI, B.
    unfold compute_local_target.
    destruct (resolve self decision_list vehicle) as [r|[]|].
    + left. exists r. split; [reflexivity|]. split; [reflexivity|].
      now apply B.
    + right. split; reflexivity.
    + congruence.
    + congruence.
Qed.

Lemma compute_local_target_loop_closest self decision_list vehicle fuel :
  forall cur pl i r,
    walk (connection_info self) (current_edge vehicle)
         (firstn i decision_list) = Some (cur, pl) ->
    (forall j, (j < i)%nat -> short_of_target self decision_list vehicle j) ->
    compute_local_target_loop fuel self decision_list vehicle cur pl i
    = Ret r ->
    forall j, (j < consumed r)%nat ->
              short_of_target self decision_list vehicle j.
Proof.
  induction fuel as [|fuel IH]; intros cur pl i r W Before E; simpl in E;
    [discriminate|].
  destruct (pl <=? Z.max (current_speed vehicle) 20) eqn:Look.
  2:{ inversion E; subst; clear E. unfold consumed; simpl. auto. }
  apply Z.leb_le in Look.
  destruct (eqb_spec cur (destination vehicle)) as [Dst|Dst].
  { inversion E; subst; clear E. unfold consumed; simpl. auto. }
  assert (Here : forall j, (j < S i)%nat ->
                           short_of_target self decision_list vehicle j).
  { intros j Lt. destruct (Nat.eq_dec j i) as [->|Ne].
    - exists cur, pl. auto.
    - apply Before. lia. }
  destruct (length decision_list <=? i)%nat.
  { inversion E; subst; clear E. unfold consumed; simpl. auto. }
  apply bind_Ret_inv in E. destruct E as (choice & C & E).
  apply item_Ret in C.
  apply bind_Ret_inv in E. destruct E as (out & O & E).
  apply index_Ret in O.
  destruct (Dict.mem choice out); simpl in E.
  2:{ inversion E; subst; clear E. unfold consumed; simpl. auto. }
  apply bind_Ret_inv in E. destruct E as (next & Nx & E).
  apply index_Ret in Nx.
  apply bind_Ret_inv in E. destruct E as (len & L & E).
  apply index_Ret in L.
  destruct (turnaround_twice decision_list i).
  - inversion E; subst; clear E. unfold consumed; simpl. auto.
  - apply (IH next (pl + len) (S i) r); auto.
    rewrite (firstn_snoc_nth _ _ _ C). eapply walk_snoc; eauto.
Qed.

(** X2: the edge returned by [compute_local_target] is the closest viable
    target along the decision list: before each decision that was applied,
    the edge reached so far was not the destination and its cumulative path
    length did not exceed [max(vehicle.current_speed, 20)]. *)
Theorem X2_local_target_closest self decision_list vehicle r j :
  resolve self decision_list vehicle = Ret r ->
  (j < consumed r)%nat ->
  exists e c,
    walk (connection_info self) (current_edge vehicle)
         (firstn j decision_list) = Some (e, c)
    /\ c <= Z.max (current_speed vehicle) 20
    /\ e <> destination vehicle.
Proof.
  intros R Lt. unfold resolve in R.
  apply (compute_local_target_loop_closest self decision_list vehicle
           (S (length decision_list)) (current_edge vehicle) 0 0%nat r);
    auto.
  intros j' Lt'. lia.
Qed.

Lemma X2_local_target_closest_witness :
  resolve (init (diamond LEFT RIGHT STRAIGHT STRAIGHT 0 5))
          [LEFT; STRAIGHT; STRAIGHT] (car "A" "D" 0 5)
  = Ret {| r_target := "D"%string; r_path_length := 20; r_i := 2;
           r_exit := AtDestination |}
  /\ exists e c,
      walk (connection_info (init (diamond LEFT RIGHT STRAIGHT STRAIGHT 0 5)))
           (current_edge (car "A" "D" 0 5))
           (firstn 1 [LEFT; STRAIGHT; STRAIGHT]) = Some (e, c)
      /\ c <= Z.max (current_speed (car "A" "D" 0 5)) 20
      /\ e <> destination (car "A" "D" 0 5).
Proof.
  split; [reflexivity|].
  apply (X2_local_target_closest
           (init (diamond LEFT RIGHT STRAIGHT STRAIGHT 0 5))
           [LEFT; STRAIGHT; STRAIGHT] (car "A" "D" 0 5)
           {| r_target := "D"%string; r_path_length := 20; r_i := 2;
              r_exit := AtDestination |} 1%nat).
  - reflexivity.
  - unfold consumed; simpl. lia.
Defined.

(** The decisions after the ones applied are not read. *)
Lemma compute_local_target_loop_prefix self decision_list more vehicle fuel :
  forall cur pl i r,
    compute_local_target_loop fuel self decision_list vehicle cur pl i
    = Ret r ->
    r_exit r <> NotEnoughDecisions ->
    compute_local_target_loop fuel self (decision_list ++ more) vehicle
                              cur pl i = Ret r.
Proof.
  induction fuel as [|fuel IH]; intros cur pl i r E N; simpl in E;
    [discriminate|].
  simpl.
  destruct (pl <=? Z.max (current_speed vehicle) 20); auto.
  destruct (eqb cur (destination vehicle)); auto.
  destruct (length decision_list <=? i)%nat eqn:Len.
  { inversion E; subst. simpl in N. congruence. }
  apply Nat.leb_gt in Len.
  assert (Len' : (length (decision_list ++ more) <=? i)%nat = false).
  { apply Nat.leb_gt. rewrite length_app. lia. }
  rewrite Len'.
  assert (It : item (decision_list ++ more) i = item decision_list i).
  { unfold item. now rewrite nth_error_app1. }
  rewrite It.
  destruct (item decision_list i) as [choice| |]; simpl in *; auto.
  destruct (index (outgoing_edges_dict (connection_info self)) cur)
    as [out| |]; simpl in *; auto.
  destruct (Dict.mem choice out); simpl in *; auto.
  destruct (index out choice) as [next| |]; simpl in *; auto.
  destruct (index (edge_length_dict (connection_info self)) next)
    as [len| |]; simpl in *; auto.
  assert (Tw : turnaround_twice (decision_list ++ more) i
               = turnaround_twice decision_list i).
  { unfold turnaround_twice. destruct i as [|j]; auto.
    rewrite !nth_error_app1 by lia. reflexivity. }
  rewrite Tw.
  destruct (turnaround_twice decision_list i); auto.
Qed.

(** X4: not all decisions are consumed: when [compute_local_target] returns
    without running out of decisions (the lookahead is exceeded, the
    destination is reached, a direction is invalid or two turn-arounds
    follow each other), the decisions after the ones applied are not read,
    and any decisions appended to the list leave the result as it is. *)
Theorem X4_later_decisions_ignored self decision_list more vehicle r :
  resolve self decision_list vehicle = Ret r ->
  r_exit r <> NotEnoughDecisions ->
  resolve self (decision_list ++ more) vehicle = Ret r
  /\ compute_local_target self (decision_list ++ more) vehicle
     = compute_local_target self decision_list vehicle.
Proof.
  intros R N.
  assert (R' : resolve self (decision_list ++ more) vehicle = Ret r).
  { unfold resolve in *.
    apply compute_local_target_loop_more
      with (fuel := S (length decision_list));
      [|discriminate|rewrite length_app; lia].
    now apply compute_local_target_loop_prefix. }
  split; [exact R'|].
  unfold compute_local_target. now rewrite R, R'.
Qed.

Lemma X4_later_decisions_ignored_witness :
  resolve (init (diamond LEFT RIGHT STRAIGHT STRAIGHT 0 5))
          ([LEFT; STRAIGHT] ++ [TURN_AROUND; LEFT]) (car "A" "D" 0 5)
  = Ret {| r_target := "D"%string; r_path_length := 20; r_i := 2;
           r_exit := AtDestination |}
  /\ compute_local_target (init (diamond LEFT RIGHT STRAIGHT STRAIGHT 0 5))
       ([LEFT; STRAIGHT] ++ [TURN_AROUND; LEFT]) (car "A" "D" 0 5)
     = compute_local_target (init (diamond LEFT RIGHT STRAIGHT STRAIGHT 0 5))
         [LEFT; STRAIGHT] (car "A" "D" 0 5).
Proof.
  apply (X4_later_decisions_ignored
           (init (diamond LEFT RIGHT STRAIGHT STRAIGHT 0 5))
           [LEFT; STRAIGHT] [TURN_AROUND; LEFT] (car "A" "D" 0 5)
           {| r_target := "D"%string; r_path_length := 20; r_i := 2;
              r_exit := AtDestination |}).
  - reflexivity.
  - discriminate.
Defined.

Lemma compute_local_target_loop_index self decision_list vehicle fuel :
  forall cur pl i r,
    compute_local_target_loop fuel self decision_list vehicle cur pl i
    = Ret r ->
    (i <= r_i r)%nat /\ (r_i r <= consumed r)%nat.
Proof.
  induction fuel as [|fuel IH]; intros cur pl i r E; simpl in E;
    [discriminate|].
  destruct (pl <=? Z.max (current_speed vehicle) 20).
  2:{ inversion E; subst. unfold consumed; simpl. lia. }
  destruct (eqb cur (destination vehicle)).
  { inversion E; subst. unfold consumed; simpl. lia. }
  destruct (length decision_list <=? i)%nat.
  { inversion E; subst. unfold consumed; simpl. lia. }
  apply bind_Ret_inv in E. destruct E as (choice & C & E).
  apply bind_Ret_inv in E. destruct E as (out & O & E).
  destruct (Dict.mem choice out); simpl in E.
  2:{ inversion E; subst. unfold consumed; simpl. lia. }
  apply bind_Ret_inv in E. destruct E as (next & Nx & E).
  apply bind_Ret_inv in E. destruct E as (len & L & E).
  destruct (turnaround_twice decision_list i).
  - inversion E; subst. unfold consumed; simpl. lia.
  - apply IH in E. lia.
Qed.

(** Two vehicles that differ in their speed: the faster one goes on where
    the slower one goes on. *)
Lemma compute_local_target_loop_speed self decision_list v v' fuel :
  destination v = destination v' ->
  current_speed v <= current_speed v' ->
  forall cur pl i r r',
    compute_local_target_loop fuel self decision_list v cur pl i = Ret r ->
    compute_local_target_loop fuel self decision_list v' cur pl i = Ret r' ->
    (consumed r <= consumed r')%nat.
Proof.
  intros Hd Hs.
  induction fuel as [|fuel IH]; intros cur pl i r r' E E'; simpl in E;
    [discriminate|].
  pose proof (compute_local_target_loop_index _ _ _ _ _ _ _ _ E') as Ix.
  simpl in E'.
  destruct (pl <=? Z.max (current_speed v) 20) eqn:Look.
  2:{ inversion E; subst. unfold consumed at 1; simpl. lia. }
  assert (Look' : (pl <=? Z.max (current_speed v') 20) = true).
  { apply Z.leb_le. apply Z.leb_le in Look. lia. }
  rewrite Look' in E'. rewrite <- Hd in E'.
  destruct (eqb cur (destination v)).
  { inversion E; inversion E'; subst. unfold consumed; simpl. lia. }
  destruct (length decision_list <=? i)%nat.
  { inversion E; inversion E'; subst. unfold consumed; simpl. lia. }
  destruct (item decision_list i) as [choice| |]; simpl in *;
    try discriminate.
  destruct (index (outgoing_edges_dict (connection_info self)) cur)
    as [out| |]; simpl in *; try discriminate.
  destruct (Dict.mem choice out); simpl in *.
  2:{ inversion E; inversion E'; subst. unfold consumed; simpl. lia. }
  destruct (index out choice) as [next| |]; simpl in *; try discriminate.
  destruct (index (edge_length_dict (connection_info self)) next)
    as [len| |]; simpl in *; try discriminate.
  destruct (turnaround_twice decision_list i).
  - inversion E; inversion E'; subst. unfold consumed; simpl. lia.
  - eapply IH; eauto.
Qed.

(** X5: the lookahead grows with the speed: of two vehicles on the same
    edge with the same destination and the same decision list, the faster
    one is given a target at least as many decisions ahead as the slower
    one. *)
Theorem X5_faster_looks_further self decision_list v v' r r' :
  current_edge v = current_edge v' ->
  destination v = destination v' ->
  current_speed v <= current_speed v' ->
  resolve self decision_list v = Ret r ->
  resolve self decision_list v' = Ret r' ->
  (consumed r <= consumed r')%nat.
Proof.
  intros Hc Hd Hs R R'. unfold resolve in *. rewrite <- Hc in R'.
  eapply compute_local_target_loop_speed; eauto.
Qed.

Lemma X5_faster_looks_further_witness :
  (resolve (init avenue) [STRAIGHT; STRAIGHT; STRAIGHT] (car "R1" "R4" 0 5)
   = Ret {| r_target := "R3"%string; r_path_length := 30; r_i := 2;
            r_exit := LookaheadReached |}
   /\ resolve (init avenue) [STRAIGHT; STRAIGHT; STRAIGHT]
              (car "R1" "R4" 0 40)
      = Ret {| r_target := "R4"%string; r_path_length := 45; r_i := 3;
               r_exit := LookaheadReached |})
  /\ (2 <= 3)%nat.
Proof.
  split; [split; reflexivity|].
  apply (X5_faster_looks_further
           (init avenue) [STRAIGHT; STRAIGHT; STRAIGHT]
           (car "R1" "R4" 0 5) (car "R1" "R4" 0 40)
           {| r_target := "R3"%string; r_path_length := 30; r_i := 2;
              r_exit := LookaheadReached |}
           {| r_target := "R4"%string; r_path_length := 45; r_i := 3;
              r_exit := LookaheadReached |}); try reflexivity.
  simpl. lia.
Defined.

(** Along a decision list that can be walked to its end, no dict is indexed
    at an absent key and every direction is valid. *)
Lemma compute_local_target_loop_on_walk self decision_list vehicle e c fuel :
  walk (connection_info self) (current_edge vehicle) decision_list
  = Some (e, c) ->
  forall cur pl i,
    walk (connection_info self) (current_edge vehicle)
         (firstn i decision_list) = Some (cur, pl) ->
    (i <= length decision_list < fuel + i)%nat ->
    exists r,
      compute_local_target_loop fuel self decision_list vehicle cur pl i
      = Ret r
      /\ r_exit r <> InvalidDirection
      /\ (r_exit r = NotEnoughDecisions ->
          r_target r = e /\ e <> destination vehicle
          /\ c <= Z.max (current_speed vehicle) 20).
Proof.
  intros Full.
  induction fuel as [|fuel IH]; intros cur pl i W F; [lia|]. simpl.
  destruct (pl <=? Z.max (current_speed vehicle) 20) eqn:Look.
  2:{ eexists. split; [reflexivity|]. simpl. split; discriminate. }
  apply Z.leb_le in Look.
  destruct (eqb_spec cur (destination vehicle)) as [Dst|Dst].
  { eexists. split; [reflexivity|]. simpl. split; discriminate. }
  destruct (length decision_list <=? i)%nat eqn:Len.
  { apply Nat.leb_le in Len.
    rewrite firstn_all2 in W by lia. rewrite Full in W.
    inversion W; subst cur pl.
    eexists. split; [reflexivity|]. simpl. split; [discriminate|]. auto. }
  apply Nat.leb_gt in Len.
  destruct (nth_error decision_list i) as [choice|] eqn:C.
  2:{ apply nth_error_None in C. lia. }
  unfold item. rewrite C. cbn [bind].
  rewrite <- (firstn_all decision_list) in Full.
  destruct (walk_firstn_prefix self decision_list (current_edge vehicle)
              (S i) (length decision_list) e c) as (e' & c' & W');
    [lia | exact Full |].
  rewrite firstn_all in Full.
  pose proof W' as W''.
  rewrite (firstn_snoc_nth _ _ _ C) in W''.
  apply walk_snoc_inv in W''.
  destruct W'' as (x & cx & out & len & Wx & O & D & L & Ec).
  rewrite W in Wx. inversion Wx; subst x cx; clear Wx.
  unfold index. rewrite O. cbn [bind].
  assert (M : Dict.mem choice out = true) by (apply mem_get; eauto).
  rewrite M. cbn [negb]. rewrite D. cbn [bind]. rewrite L. cbn [bind].
  destruct (turnaround_twice decision_list i).
  - eexists. split; [reflexivity|]. simpl. split; discriminate.
  - apply IH; [|lia]. subst c'. exact W'.
Qed.

(** X6: on a decision list that can be walked to its end through the
    outgoing-edges map, [compute_local_target] returns an edge and finds no
    direction invalid; it runs out of decisions only when the end of the
    walk is not the destination and lies within the lookahead, and the end
    of the walk is then the edge returned.  In particular a decision list
    that leads to the destination raises neither of the two warnings. *)
Theorem X6_walkable_list_resolves self decision_list vehicle e c :
  walk (connection_info self) (current_edge vehicle) decision_list
  = Some (e, c) ->
  exists r,
    resolve self decision_list vehicle = Ret r
    /\ compute_local_target self decision_list vehicle = Ret (r_target r)
    /\ r_exit r <> InvalidDirection
    /\ (r_exit r = NotEnoughDecisions ->
        r_target r = e /\ e <> destination vehicle
        /\ c <= Z.max (current_speed vehicle) 20).
Proof.
  intros W.
  destruct (compute_local_target_loop_on_walk self decision_list vehicle e c
              (S (length decision_list)) W (current_edge vehicle) 0 0%nat)
    as (r & R & NI & NE); [reflexivity|lia|].
  exists r. unfold compute_local_target, resolve. rewrite R.
  split; [reflexivity|]. split; [reflexivity|]. auto.
Qed.

Lemma X6_walkable_list_resolves_witness :
  walk (connection_info (init avenue)) (current_edge (car "R1" "R4" 0 40))
       [STRAIGHT; STRAIGHT] = Some ("R3"%string, 30)
  /\ exists r,
      resolve (init avenue) [STRAIGHT; STRAIGHT] (car "R1" "R4" 0 40) = Ret r
      /\ compute_local_target (init avenue) [STRAIGHT; STRAIGHT]
                              (car "R1" "R4" 0 40) = Ret (r_target r)
      /\ r_exit r <> InvalidDirection
      /\ (r_exit r = NotEnoughDecisions ->
          r_target r = "R3"%string
          /\ "R3"%string <> destination (car "R1" "R4" 0 40)
          /\ 30 <= Z.max (current_speed (car "R1" "R4" 0 40)) 20).
Proof.
  split; [reflexivity|].
  apply (X6_walkable_list_resolves (init avenue) [STRAIGHT; STRAIGHT]
           (car "R1" "R4" 0 40) "R3"%string 30).
  reflexivity.
Defined.

(** * Further properties of make_decisions *)

(** An invariant that every turn of a for loop preserves holds when the
    loop is left. *)
Lemma for_each_preserves {A S} (body : S -> A -> outcome S) (I : S -> Prop)
  (l : list A) :
  (forall s a s', In a l -> I s -> body s a = Ret s' -> I s') ->
  forall s0 s, I s0 -> for_each body l s0 = Ret s -> I s.
Proof.
  induction l as [|a l IH]; intros Step s0 s I0 E; simpl in E.
  - inversion E; subst; auto.
  - apply bind_Ret_inv in E. destruct E as (s1 & B & E).
    apply (IH (fun s a' s' Ia => Step s a' s' (or_intror Ia)) s1 s); auto.
    apply (Step s0 a s1); auto. now left.
Qed.

Lemma plan_at_destination fuel self conn vehicle avg_deadline :
  current_edge vehicle = destination vehicle -> (0 < fuel)%nat ->
  plan fuel self conn vehicle avg_deadline = Ret [].
Proof.
  intros E F. destruct fuel as [|gas]; [lia|].
  unfold plan. cbn [plan_loop]. unfold plan_body.
  cbn [p_current_edge]. rewrite E, eqb_refl. reflexivity.
Qed.

Lemma compute_local_target_at_destination self decision_list vehicle :
  current_edge vehicle = destination vehicle ->
  compute_local_target self decision_list vehicle
  = Ret (current_edge vehicle).
Proof.
  intros E. unfold compute_local_target, resolve. simpl.
  assert (L : (0 <=? Z.max (current_speed vehicle) 20) = true)
    by (apply Z.leb_le; lia).
  rewrite L, E, eqb_refl. reflexivity.
Qed.

(** X3: a vehicle that is on its destination edge is left there, whatever
    the topology holds (the edge need not even be on the map): no route is
    searched for it, its decision list is empty, [compute_local_target]
    returns its current edge for every decision list, and
    [make_decisions] maps its identifier to its current edge. *)
Theorem X3_arrived_vehicle_stays fuel self conn avg_deadline vehicle
  decision_list :
  current_edge vehicle = destination vehicle -> (0 < fuel)%nat ->
  plan fuel self conn vehicle avg_deadline = Ret []
  /\ compute_local_target self decision_list vehicle
     = Ret (current_edge vehicle)
  /\ make_decisions fuel self [vehicle] conn avg_deadline
     = Ret [(vehicle_id vehicle, current_edge vehicle)].
Proof.
  intros E F. split; [now apply plan_at_destination|].
  split; [now apply compute_local_target_at_destination|].
  unfold make_decisions. cbn [for_each]. unfold decide_vehicle.
  rewrite plan_at_destination by assumption. cbn [bind].
  rewrite compute_local_target_at_destination by assumption. reflexivity.
Qed.

Lemma X3_arrived_vehicle_stays_witness :
  plan 1 (init two_way) two_way (car "J" "J" 0 0) 0 = Ret []
  /\ compute_local_target (init two_way) [STRAIGHT; LEFT] (car "J" "J" 0 0)
     = Ret (current_edge (car "J" "J" 0 0))
  /\ make_decisions 1 (init two_way) [car "J" "J" 0 0] two_way 0
     = Ret [(vehicle_id (car "J" "J" 0 0), current_edge (car "J" "J" 0 0))].
Proof.
  apply (X3_arrived_vehicle_stays 1%nat (init two_way) two_way 0
           (car "J" "J" 0 0) [STRAIGHT; LEFT]).
  - reflexivity.
  - lia.
Defined.

(** ** The plans can be followed *)

Lemma consider_choice_heads_out fuel self conn vehicle cur edges direct out
  w choice r :
  Dict.get cur (outgoing_edges_dict (connection_info self)) = Some out ->
  heads_out out w ->
  consider_choice fuel self conn vehicle cur edges direct w choice = Ret r ->
  heads_out out (snd r).
Proof.
  intros O H E. unfold consider_choice in E.
  destruct (negb (eqb choice direct)); [|inversion E; subst; exact H].
  apply bind_Ret_inv in E. destruct E as (out' & O' & E).
  apply index_Ret in O'. rewrite O in O'. inversion O'; subst out'.
  apply bind_Ret_inv in E. destruct E as (e2 & C & E).
  apply index_Ret in C.
  apply bind_Ret_inv in E. destruct E as ([|] & _ & E);
    [|inversion E; subst; exact H].
  apply bind_Ret_inv in E. destruct E as ([|] & _ & E);
    [|inversion E; subst; exact H].
  apply bind_Ret_inv in E. destruct E as ([sp2 d2] & _ & E).
  apply bind_Ret_inv in E. destruct E as (c2 & _ & E).
  apply bind_Ret_inv in E. destruct E as (c1 & _ & E).
  destruct (negb (c2 =? c1) || (d2 <? w_distance w));
    inversion E; subst; [|exact H].
  exists choice, sp2. auto.
Qed.

Lemma explore_alternatives_heads_out fuel self conn vehicle avg_deadline cur
  edges direct out w0 w :
  Dict.get cur (outgoing_edges_dict (connection_info self)) = Some out ->
  heads_out out w0 ->
  explore_alternatives fuel self conn vehicle avg_deadline cur edges direct w0
  = Ret w ->
  heads_out out w.
Proof.
  intros O H E. unfold explore_alternatives in E.
  destruct (deadline vehicle >? avg_deadline);
    [|inversion E; subst; exact H].
  apply bind_Ret_inv in E. destruct E as (out' & _ & E).
  apply (for_each_preserves _ (heads_out out) _) with (s0 := w0) (s := w)
    in E; auto.
  intros s a s' _ Hs B.
  apply bind_Ret_inv in B. destruct B as (r & B & B').
  inversion B'; subst.
  eapply consider_choice_heads_out; eauto.
Qed.

(** A turn of the while loop of lines 165-198 that goes on appends to the
    decision list a direction that leads from the current edge to the new
    current edge. *)
Lemma plan_body_Next fuel self conn vehicle avg_deadline p p' :
  plan_body fuel self conn vehicle avg_deadline p = Ret (Next p') ->
  exists out d,
    Dict.get (p_current_edge p) (outgoing_edges_dict (connection_info self))
    = Some out
    /\ Dict.get d out = Some (p_current_edge p')
    /\ p_decision_list p' = p_decision_list p ++ [d]
    /\ p_edges p' = p_edges p ++ [p_current_edge p]
    /\ p_current_edge p <> destination vehicle.
Proof.
  intros E. unfold plan_body in E.
  destruct (eqb_spec (p_current_edge p) (destination vehicle)) as [|Nd];
    [discriminate|].
  cbn [negb] in E.
  apply bind_Ret_inv in E. destruct E as (route & _ & E).
  destruct (fst route) as [|direct rest] eqn:Fr; [discriminate|].
  apply bind_Ret_inv in E. destruct E as (out & O & E).
  apply index_Ret in O.
  apply bind_Ret_inv in E. destruct E as (e1 & D & E).
  apply index_Ret in D.
  apply bind_Ret_inv in E. destruct E as (w & X & E).
  apply bind_Ret_inv in E. destruct E as (final & It & E).
  apply item_Ret in It.
  inversion E; subst p'; clear E. cbn.
  apply (explore_alternatives_heads_out _ _ _ _ _ _ _ _ out) in X; auto.
  2:{ exists direct, rest. cbn. auto. }
  destruct X as (d & rest' & Sp & G).
  rewrite Sp in It. simpl in It. inversion It; subst final.
  exists out, d. auto.
Qed.

(** A turn that leaves the loop: the vehicle is on its destination (line
    165), or no route was cached and the search returned an empty one
    (line 171). *)
Lemma plan_body_Done fuel self conn vehicle avg_deadline p p' :
  plan_body fuel self conn vehicle avg_deadline p = Ret (Done p') ->
  p_decision_list p' = p_decision_list p
  /\ p_current_edge p' = p_current_edge p
  /\ (p_current_edge p = destination vehicle
      \/ exists distance,
          find_route fuel self conn (p_current_edge p) (destination vehicle)
                     (deadline vehicle) = Ret ([], distance)).
Proof.
  intros E. unfold plan_body in E.
  destruct (eqb_spec (p_current_edge p) (destination vehicle)) as [Ed|Nd];
    cbn [negb] in E.
  { inversion E; subst. auto. }
  apply bind_Ret_inv in E. destruct E as ([sp d] & R & E).
  cbn [fst snd] in E.
  destruct sp as [|direct rest].
  - inversion E; subst p'; clear E. cbn. split; [auto|]. split; [auto|].
    right. destruct (p_shortest_path p); [eauto|discriminate].
  - apply bind_Ret_inv in E. destruct E as (out & _ & E).
    apply bind_Ret_inv in E. destruct E as (e1 & _ & E).
    apply bind_Ret_inv in E. destruct E as (w & _ & E).
    apply bind_Ret_inv in E. destruct E as (final & _ & E).
    discriminate.
Qed.

Lemma plan_loop_follow fuel self conn vehicle avg_deadline start gas :
  forall p p',
    follow (connection_info self) start (p_decision_list p)
    = Some (p_current_edge p) ->
    plan_loop gas fuel self conn vehicle avg_deadline p = Ret p' ->
    follow (connection_info self) start (p_decision_list p')
    = Some (p_current_edge p')
    /\ (p_current_edge p' = destination vehicle
        \/ exists distance,
            find_route fuel self conn (p_current_edge p')
                       (destination vehicle) (deadline vehicle)
            = Ret ([], distance)).
Proof.
  induction gas as [|gas IH]; intros p p' F E; simpl in E; [discriminate|].
  apply bind_Ret_inv in E. destruct E as ([p1|p1] & B & E).
  - apply plan_body_Next in B.
    destruct B as (out & d & O & D & Dl & _ & _).
    apply (IH p1 p'); auto.
    rewrite Dl. eapply follow_snoc; eauto.
  - inversion E; subst p1. apply plan_body_Done in B.
    destruct B as (Dl & Ce & End). rewrite Dl, Ce. auto.
Qed.

(** On a decision list that can be followed to its end, no direction is
    found invalid; when it ends on the destination, the decisions do not
    run out. *)
Lemma compute_local_target_loop_on_route self decision_list vehicle e fuel :
  follow (connection_info self) (current_edge vehicle) decision_list
  = Some e ->
  forall cur pl i r,
    follow (connection_info self) (current_edge vehicle)
           (firstn i decision_list) = Some cur ->
    compute_local_target_loop fuel self decision_list vehicle cur pl i
    = Ret r ->
    r_exit r <> InvalidDirection
    /\ (e = destination vehicle -> r_exit r <> NotEnoughDecisions).
Proof.
  intros Full.
  induction fuel as [|fuel IH]; intros cur pl i r F E; simpl in E;
    [discriminate|].
  destruct (pl <=? Z.max (current_speed vehicle) 20).
  2:{ inversion E; subst. simpl. split; discriminate. }
  destruct (eqb_spec cur (destination vehicle)) as [Dst|Dst].
  { inversion E; subst. simpl. split; discriminate. }
  destruct (length decision_list <=? i)%nat eqn:Len.
  { apply Nat.leb_le in Len. inversion E; subst. simpl.
    split; [discriminate|]. intros Ed.
    rewrite firstn_all2 in F by lia. congruence. }
  apply bind_Ret_inv in E. destruct E as (choice & C & E).
  apply item_Ret in C.
  apply bind_Ret_inv in E. destruct E as (out & O & E).
  apply index_Ret in O.
  assert (Nx : exists next, Dict.get choice out = Some next).
  { rewrite <- (firstn_skipn (S i) decision_list) in Full.
    rewrite (firstn_snoc_nth _ _ _ C), <- app_assoc in Full.
    rewrite follow_app, F in Full. simpl in Full. rewrite O in Full.
    destruct (Dict.get choice out) as [next|]; [eauto|discriminate]. }
  destruct Nx as (next & Nx).
  assert (M : Dict.mem choice out = true) by (apply mem_get; eauto).
  rewrite M in E. cbn [negb] in E.
  apply bind_Ret_inv in E. destruct E as (next' & Nx' & E).
  apply index_Ret in Nx'. rewrite Nx in Nx'. inversion Nx'; subst next'.
  apply bind_Ret_inv in E. destruct E as (len & L & E).
  destruct (turnaround_twice decision_list i).
  - inversion E; subst. simpl. split; discriminate.
  - apply (IH next (pl + len) (S i) r); auto.
    rewrite (firstn_snoc_nth _ _ _ C). eapply follow_snoc; eauto.
Qed.

(** X7: every decision list that the planning of [make_decisions] hands to
    [compute_local_target] can be followed from the vehicle's current edge
    through the outgoing-edges map, each direction being a key of the edge
    reached; it ends on the destination, or on an edge from which the
    search returns an empty route (line 171).  So the resolver never finds
    an invalid direction in it (line 66), and it does not run out of
    decisions (line 60) when the list ends on the destination.  This holds
    on every topology, well formed or not. *)
Theorem X7_plans_can_be_followed fuel self conn vehicle avg_deadline
  decision_list :
  plan fuel self conn vehicle avg_deadline = Ret decision_list ->
  exists e,
    follow (connection_info self) (current_edge vehicle) decision_list
    = Some e
    /\ (e = destination vehicle
        \/ exists distance,
            find_route fuel self conn e (destination vehicle)
                       (deadline vehicle) = Ret ([], distance))
    /\ forall r,
        resolve self decision_list vehicle = Ret r ->
        r_exit r <> InvalidDirection
        /\ (e = destination vehicle -> r_exit r <> NotEnoughDecisions).
Proof.
  intros E. unfold plan in E.
  apply bind_Ret_inv in E. destruct E as (p' & L & E).
  inversion E; subst decision_list; clear E.
  apply (plan_loop_follow _ _ _ _ _ (current_edge vehicle)) in L;
    [|reflexivity].
  destruct L as [F End].
  exists (p_current_edge p'). split; [exact F|]. split; [exact End|].
  intros r R. unfold resolve in R.
  eapply compute_local_target_loop_on_route in R; eauto.
Qed.

Lemma X7_plans_can_be_followed_witness :
  plan 5 (init (diamond LEFT RIGHT STRAIGHT STRAIGHT 0 5))
       (diamond LEFT RIGHT STRAIGHT STRAIGHT 0 5) (car "A" "D" 10 5) 5
  = Ret [LEFT; STRAIGHT]
  /\ exists e,
      follow (connection_info (init (diamond LEFT RIGHT STRAIGHT STRAIGHT 0 5)))
             (current_edge (car "A" "D" 10 5)) [LEFT; STRAIGHT] = Some e
      /\ (e = destination (car "A" "D" 10 5)
          \/ exists distance,
              find_route 5 (init (diamond LEFT RIGHT STRAIGHT STRAIGHT 0 5))
                         (diamond LEFT RIGHT STRAIGHT STRAIGHT 0 5) e
                         (destination (car "A" "D" 10 5))
                         (deadline (car "A" "D" 10 5)) = Ret ([], distance))
      /\ forall r,
          resolve (init (diamond LEFT RIGHT STRAIGHT STRAIGHT 0 5))
                  [LEFT; STRAIGHT] (car "A" "D" 10 5) = Ret r ->
          r_exit r <> InvalidDirection
          /\ (e = destination (car "A" "D" 10 5) ->
              r_exit r <> NotEnoughDecisions).
Proof.
  split; [reflexivity|].
  apply (X7_plans_can_be_followed 5%nat
           (init (diamond LEFT RIGHT STRAIGHT STRAIGHT 0 5))
           (diamond LEFT RIGHT STRAIGHT STRAIGHT 0 5) (car "A" "D" 10 5) 5
           [LEFT; STRAIGHT]).
  reflexivity.
Defined.

(** ** The batch *)

Lemma for_each_app {A S} (body : S -> A -> outcome S) (l1 l2 : list A) :
  forall s,
    for_each body (l1 ++ l2) s
    = (s' <- for_each body l1 s ;; for_each body l2 s').
Proof.
  induction l1 as [|a l1 IH]; intros s; simpl; auto.
  destruct (body s a) as [s1| |]; simpl; auto.
Qed.

Lemma plan_unknown_edge fuel self conn vehicle avg_deadline :
  current_edge vehicle <> destination vehicle ->
  Dict.get (current_edge vehicle) (edge_length_dict (connection_info self))
  = None ->
  (0 < fuel)%nat ->
  plan fuel self conn vehicle avg_deadline = Raise KeyError.
Proof.
  intros Nd G F. destruct fuel as [|gas]; [lia|].
  unfold plan. cbn [plan_loop]. unfold plan_body.
  cbn [p_current_edge p_shortest_path].
  apply eqb_neq in Nd. rewrite Nd. cbn [negb].
  unfold find_route, find_route_search, find_route_init, index.
  rewrite G. reflexivity.
Qed.

(** X8: a vehicle that is not on its destination and whose current edge
    has no entry in [edge_length_dict] makes the search raise [KeyError] at
    line 103; nothing catches it, so [make_decisions] raises it and the
    local targets already computed for the vehicles before it in the batch
    are lost. *)
Theorem X8_unknown_edge_aborts_batch fuel self conn avg_deadline before
  vehicle after local_targets :
  make_decisions fuel self before conn avg_deadline = Ret local_targets ->
  current_edge vehicle <> destination vehicle ->
  Dict.get (current_edge vehicle) (edge_length_dict (connection_info self))
  = None ->
  (0 < fuel)%nat ->
  make_decisions fuel self (before ++ vehicle :: after) conn avg_deadline
  = Raise KeyError.
Proof.
  intros E Nd G F. unfold make_decisions in *.
  rewrite for_each_app, E. cbn [bind for_each].
  unfold decide_vehicle at 1.
  rewrite plan_unknown_edge by assumption. reflexivity.
Qed.

Lemma X8_unknown_edge_aborts_batch_witness :
  make_decisions 4 (init two_way) [named_car "v1" "E" "F" 0 0] two_way 0
  = Ret [("v1"%string, "F"%string)]
  /\ make_decisions 4 (init two_way)
       ([named_car "v1" "E" "F" 0 0]
          ++ named_car "v2" "J" "E" 0 0 :: [named_car "v3" "W" "E" 0 0])
       two_way 0
     = Raise KeyError.
Proof.
  split; [reflexivity|].
  apply (X8_unknown_edge_aborts_batch 4%nat (init two_way) two_way 0
           [named_car "v1" "E" "F" 0 0] (named_car "v2" "J" "E" 0 0)
           [named_car "v3" "W" "E" 0 0] [("v1"%string, "F"%string)]).
  - reflexivity.
  - discriminate.
  - reflexivity.
  - lia.
Defined.

Lemma compute_local_target_listed self decision_list vehicle e :
  topology_snapshot (connection_info self) = true ->
  In (current_edge vehicle) (edge_list (connection_info self)) ->
  compute_local_target self decision_list vehicle = Ret e ->
  In e (edge_list (connection_info self)).
Proof.
  intros T I E. apply compute_local_target_resolve in E.
  destruct E as (r & R & <-).
  destruct (resolve_sound _ _ _ _ R) as [W _].
  eapply walk_listed; eauto.
Qed.

(** X9: on a topology snapshot, the local target of a vehicle whose current
    edge is in the edge list is an edge of the edge list, whatever the
    decision list holds; so every target in the mapping returned by
    [make_decisions] is an edge of the topology. *)
Theorem X9_targets_are_edges self conn avg_deadline :
  topology_snapshot (connection_info self) = true ->
  (forall decision_list vehicle e,
      listed (connection_info self) (current_edge vehicle) = true ->
      compute_local_target self decision_list vehicle = Ret e ->
      listed (connection_info self) e = true)
  /\ (forall fuel vehicles local_targets,
         forallb (fun v => listed (connection_info self) (current_edge v))
                 vehicles = true ->
         make_decisions fuel self vehicles conn avg_deadline
         = Ret local_targets ->
         forall id target,
           Dict.get id local_targets = Some target ->
           listed (connection_info self) target = true).
Proof.
  intros T. split.
  - intros dl v e L E. apply listed_In. apply listed_In in L.
    eapply compute_local_target_listed; eauto.
  - intros fuel vehicles m All E.
    rewrite forallb_forall in All.
    unfold make_decisions in E.
    apply (for_each_preserves
             (decide_vehicle fuel self conn avg_deadline)
             (fun m => forall id t, Dict.get id m = Some t ->
                                    listed (connection_info self) t = true)
             vehicles) with (s0 := []); [| |exact E].
    + intros m0 v m1 Iv Inv D id' t' G'.
      unfold decide_vehicle in D.
      apply bind_Ret_inv in D. destruct D as (dl & _ & D).
      apply bind_Ret_inv in D. destruct D as (t1 & Ct & D).
      inversion D; subst m1; clear D.
      rewrite get_set in G'.
      destruct (eqb id' (vehicle_id v)).
      * inversion G'; subst t'. apply listed_In.
        eapply compute_local_target_listed; eauto.
        apply listed_In. now apply All.
      * eapply Inv; eauto.
    + intros id' t' G'. discriminate.
Qed.

Lemma X9_targets_are_edges_witness :
  topology_snapshot (connection_info (init two_way)) = true
  /\ (forall decision_list vehicle e,
      listed (connection_info (init two_way)) (current_edge vehicle) = true ->
      compute_local_target (init two_way) decision_list vehicle = Ret e ->
      listed (connection_info (init two_way)) e = true)
  /\ (forall fuel vehicles local_targets,
         forallb (fun v => listed (connection_info (init two_way))
                                  (current_edge v)) vehicles = true ->
         make_decisions fuel (init two_way) vehicles two_way 0
         = Ret local_targets ->
         forall id target,
           Dict.get id local_targets = Some target ->
           listed (connection_info (init two_way)) target = true).
Proof.
  split; [reflexivity|].
  apply (X9_targets_are_edges (init two_way) two_way 0). reflexivity.
Defined.

(** ** The deadline *)

Lemma decide_vehicle_deadline fuel self conn v avg dl' avg' m :
  (deadline v >? avg) = (dl' >? avg') ->
  decide_vehicle fuel self conn avg' m (with_deadline v dl')
  = decide_vehicle fuel self conn avg m v.
Proof.
  intros H. unfold decide_vehicle.
  rewrite (plan_deadline fuel self conn v avg dl' avg' H).
  destruct (plan fuel self conn v avg) as [dl| |]; simpl; auto.
  now rewrite compute_local_target_deadline.
Qed.

(** X10: a deadline is read through one comparison, [vehicle.deadline >
    avg_deadline] (line 176): replacing the deadlines of the vehicles and
    the average by others that compare in the same way for each vehicle
    leaves the outcome of [make_decisions] as it is. *)
Theorem X10_deadline_read_by_comparison fuel self conn vehicles avg_deadline
  (new_deadline : Vehicle -> Z) avg_deadline' :
  (forall v, In v vehicles ->
             (deadline v >? avg_deadline)
             = (new_deadline v >? avg_deadline')) ->
  make_decisions fuel self
                 (map (fun v => with_deadline v (new_deadline v)) vehicles)
                 conn avg_deadline'
  = make_decisions fuel self vehicles conn avg_deadline.
Proof.
  intros H. unfold make_decisions. generalize (@nil (string * edge)).
  induction vehicles as [|v vs IH]; intros m; simpl; auto.
  rewrite (decide_vehicle_deadline fuel self conn v avg_deadline
             (new_deadline v) avg_deadline' m) by (apply H; now left).
  destruct (decide_vehicle fuel self conn avg_deadline m v) as [m1| |];
    simpl; auto.
  apply IH. intros v' I. apply H. now right.
Qed.

Lemma X10_deadline_read_by_comparison_witness :
  make_decisions 5 (init (diamond LEFT RIGHT STRAIGHT STRAIGHT 5 0))
    (map (fun v => with_deadline v (deadline v + 100))
         [named_car "v1" "A" "D" 10 5; named_car "v2" "A" "D" 3 5])
    (diamond LEFT RIGHT STRAIGHT STRAIGHT 5 0) 105
  = make_decisions 5 (init (diamond LEFT RIGHT STRAIGHT STRAIGHT 5 0))
      [named_car "v1" "A" "D" 10 5; named_car "v2" "A" "D" 3 5]
      (diamond LEFT RIGHT STRAIGHT STRAIGHT 5 0) 5.
Proof.
  apply (X10_deadline_read_by_comparison 5%nat
           (init (diamond LEFT RIGHT STRAIGHT STRAIGHT 5 0))
           (diamond LEFT RIGHT STRAIGHT STRAIGHT 5 0)
           [named_car "v1" "A" "D" 10 5; named_car "v2" "A" "D" 3 5] 5
           (fun v => deadline v + 100) 105).
  intros v [<-|[<-|[]]]; reflexivity.
Defined.

(** ** Identifiers *)

Lemma decide_vehicle_Ret fuel self conn avg_deadline acc v m :
  decide_vehicle fuel self conn avg_deadline acc v = Ret m ->
  exists dl t,
    plan fuel self conn v avg_deadline = Ret dl
    /\ compute_local_target self dl v = Ret t
    /\ m = Dict.set (vehicle_id v) t acc.
Proof.
  intros D. unfold decide_vehicle in D.
  apply bind_Ret_inv in D. destruct D as (dl & Pl & D).
  apply bind_Ret_inv in D. destruct D as (t & Ct & D).
  inversion D. eauto.
Qed.

Lemma decide_all_mem fuel self conn avg_deadline : forall vehicles acc m,
  for_each (decide_vehicle fuel self conn avg_deadline) vehicles acc = Ret m ->
  forall k,
    Dict.mem k m = Dict.mem k acc || existsb (eqb k) (map vehicle_id vehicles).
Proof.
  induction vehicles as [|v vs IH]; intros acc m E k; simpl in E.
  - inversion E; subst. simpl. now rewrite orb_false_r.
  - apply bind_Ret_inv in E. destruct E as (acc' & D & E).
    apply decide_vehicle_Ret in D. destruct D as (dl & t & _ & _ & ->).
    rewrite (IH _ _ E k), mem_set. simpl.
    destruct (eqb k (vehicle_id v)), (Dict.mem k acc); reflexivity.
Qed.

Lemma decide_all_keeps fuel self conn avg_deadline k : forall vehicles acc m,
  for_each (decide_vehicle fuel self conn avg_deadline) vehicles acc = Ret m ->
  (forall v, In v vehicles -> vehicle_id v <> k) ->
  Dict.get k m = Dict.get k acc.
Proof.
  induction vehicles as [|v vs IH]; intros acc m E Other; simpl in E.
  - now inversion E.
  - apply bind_Ret_inv in E. destruct E as (acc' & D & E).
    apply decide_vehicle_Ret in D. destruct D as (dl & t & _ & _ & ->).
    rewrite (IH _ _ E) by (intros v' I; apply Other; now right).
    apply get_set_other. intros Ek. apply (Other v); auto. now left.
Qed.

Lemma decide_all_wf fuel self conn avg_deadline vehicles acc m :
  Dict.wf acc ->
  for_each (decide_vehicle fuel self conn avg_deadline) vehicles acc = Ret m ->
  Dict.wf m.
Proof.
  intros W E.
  apply (for_each_preserves (decide_vehicle fuel self conn avg_deadline)
           (fun m => Dict.wf m) vehicles) with (s0 := acc); auto.
  intros m0 v m1 _ W0 D.
  apply decide_vehicle_Ret in D. destruct D as (dl & t & _ & _ & ->).
  now apply wf_set.
Qed.

(** X11: whatever the identifiers of the batch, repeated or not, the
    mapping returned by [make_decisions] has each identifier of the batch
    as a key, once, and no other key; an identifier carried by several
    vehicles is mapped to the local target of the last of them (line 200
    overwrites the entry). *)
Theorem X11_last_vehicle_of_an_identifier fuel self conn avg_deadline vehicles
  local_targets :
  make_decisions fuel self vehicles conn avg_deadline = Ret local_targets ->
  NoDup (Dict.keys local_targets)
  /\ (forall id, In id (Dict.keys local_targets)
                 <-> In id (map vehicle_id vehicles))
  /\ (forall before v after,
         vehicles = before ++ v :: after ->
         (forall v', In v' after -> vehicle_id v' <> vehicle_id v) ->
         exists decision_list target,
           plan fuel self conn v avg_deadline = Ret decision_list
           /\ compute_local_target self decision_list v = Ret target
           /\ Dict.get (vehicle_id v) local_targets = Some target).
Proof.
  intros E. unfold make_decisions in E. split; [|split].
  - apply (decide_all_wf fuel self conn avg_deadline vehicles [] _); auto.
    constructor.
  - intros id. rewrite <- mem_In, <- existsb_eqb_In.
    rewrite (decide_all_mem _ _ _ _ _ _ _ E id). simpl. tauto.
  - intros before v after -> Last.
    rewrite for_each_app in E.
    apply bind_Ret_inv in E. destruct E as (m1 & _ & E).
    cbn [for_each] in E.
    apply bind_Ret_inv in E. destruct E as (m2 & D & E).
    apply decide_vehicle_Ret in D. destruct D as (dl & t & Pl & Ct & ->).
    exists dl, t. split; [exact Pl|]. split; [exact Ct|].
    rewrite (decide_all_keeps _ _ _ _ (vehicle_id v) _ _ _ E Last).
    apply get_set_same.
Qed.

Lemma X11_last_vehicle_of_an_identifier_witness :
  make_decisions 5 (init (diamond LEFT RIGHT STRAIGHT STRAIGHT 0 5))
    [car "A" "D" 10 5; car "B" "C" 0 5]
    (diamond LEFT RIGHT STRAIGHT STRAIGHT 0 5) 5
  = Ret [("v0"%string, "B"%string)]
  /\ NoDup (Dict.keys [("v0"%string, "B"%string)])
  /\ (forall id, In id (Dict.keys [("v0"%string, "B"%string)])
                 <-> In id (map vehicle_id
                                [car "A" "D" 10 5; car "B" "C" 0 5]))
  /\ (forall before v after,
         [car "A" "D" 10 5; car "B" "C" 0 5] = before ++ v :: after ->
         (forall v', In v' after -> vehicle_id v' <> vehicle_id v) ->
         exists decision_list target,
           plan 5 (init (diamond LEFT RIGHT STRAIGHT STRAIGHT 0 5))
                (diamond LEFT RIGHT STRAIGHT STRAIGHT 0 5) v 5
           = Ret decision_list
           /\ compute_local_target
                (init (diamond LEFT RIGHT STRAIGHT STRAIGHT 0 5))
                decision_list v = Ret target
           /\ Dict.get (vehicle_id v) [("v0"%string, "B"%string)]
              = Some target).
Proof.
  split; [reflexivity|].
  apply (X11_last_vehicle_of_an_identifier 5%nat
           (init (diamond LEFT RIGHT STRAIGHT STRAIGHT 0 5))
           (diamond LEFT RIGHT STRAIGHT STRAIGHT 0 5) 5
           [car "A" "D" 10 5; car "B" "C" 0 5]
           [("v0"%string, "B"%string)]).
  reflexivity.
Defined.

(** X12: the vehicles of a batch are handled independently of each other
    and of their order: for a batch with pairwise distinct identifiers,
    [make_decisions] on any reordering of the batch returns too, and maps
    every identifier to the same local target. *)
Theorem X12_order_of_the_batch fuel self conn avg_deadline vehicles vehicles'
  local_targets :
  distinct (map vehicle_id vehicles) = true ->
  Permutation vehicles vehicles' ->
  make_decisions fuel self vehicles conn avg_deadline = Ret local_targets ->
  exists local_targets',
    make_decisions fuel self vehicles' conn avg_deadline = Ret local_targets'
    /\ forall id, Dict.get id local_targets' = Dict.get id local_targets.
Proof.
  intros D P E. apply distinct_NoDup in D.
  assert (D' : NoDup (map vehicle_id vehicles')).
  { eapply Permutation_NoDup; [|exact D]. now apply Permutation_map. }
  unfold make_decisions in *.
  pose proof (decide_all_inv fuel self conn avg_deadline vehicles [] _ E)
    as All.
  assert (All' : forall v, In v vehicles' ->
            exists dl t, plan fuel self conn v avg_deadline = Ret dl
                         /\ compute_local_target self dl v = Ret t).
  { intros v I. apply All. eapply Permutation_in; [|exact I].
    now apply Permutation_sym. }
  destruct (decide_all fuel self conn avg_deadline vehicles [] All)
    as (m0 & E0 & Out & Each & _).
  rewrite E in E0. inversion E0; subst m0; clear E0.
  destruct (decide_all fuel self conn avg_deadline vehicles' [] All')
    as (m' & E' & Out' & Each' & _).
  exists m'. split; [exact E'|].
  intros id.
  destruct (in_dec string_dec id (map vehicle_id vehicles)) as [I|NI].
  - apply in_map_iff in I. destruct I as (v & <- & Iv).
    destruct (Each D v Iv) as (dl & t & Pl & Ct & G).
    destruct (Each' D' v (Permutation_in _ P Iv))
      as (dl' & t' & Pl' & Ct' & G').
    rewrite Pl in Pl'. inversion Pl'; subst dl'.
    rewrite Ct in Ct'. inversion Ct'; subst t'.
    now rewrite G, G'.
  - rewrite (Out id NI). rewrite Out'; [reflexivity|].
    intros I. apply NI.
    eapply Permutation_in; [|exact I].
    apply Permutation_map. now apply Permutation_sym.
Qed.

Lemma X12_order_of_the_batch_witness :
  make_decisions 5 (init (diamond LEFT RIGHT STRAIGHT STRAIGHT 0 5))
    [named_car "v1" "A" "D" 10 5; named_car "v2" "B" "C" 0 5]
    (diamond LEFT RIGHT STRAIGHT STRAIGHT 0 5) 5
  = Ret [("v1"%string, "D"%string); ("v2"%string, "B"%string)]
  /\ exists local_targets',
      make_decisions 5 (init (diamond LEFT RIGHT STRAIGHT STRAIGHT 0 5))
        [named_car "v2" "B" "C" 0 5; named_car "v1" "A" "D" 10 5]
        (diamond LEFT RIGHT STRAIGHT STRAIGHT 0 5) 5
      = Ret local_targets'
      /\ forall id,
          Dict.get id local_targets'
          = Dict.get id [("v1"%string, "D"%string); ("v2"%string, "B"%string)].
Proof.
  split; [reflexivity|].
  apply (X12_order_of_the_batch 5%nat
           (init (diamond LEFT RIGHT STRAIGHT STRAIGHT 0 5))
           (diamond LEFT RIGHT STRAIGHT STRAIGHT 0 5) 5
           [named_car "v1" "A" "D" 10 5; named_car "v2" "B" "C" 0 5]
           [named_car "v2" "B" "C" 0 5; named_car "v1" "A" "D" 10 5]
           [("v1"%string, "D"%string); ("v2"%string, "B"%string)]).
  - reflexivity.
  - apply perm_swap.
  - reflexivity.
Defined.

(** * Further properties of find_route *)

Lemma walk_pos ci :
  topology_snapshot ci = true -> positive_lengths ci = true ->
  forall p e e' c,
    In e (edge_list ci) -> p <> [] -> walk ci e p = Some (e', c) -> 0 < c.
Proof.
  intros T P [|d p] e e' c I Ne W; [contradiction|]. simpl in W.
  destruct (Dict.get e (outgoing_edges_dict ci)) as [out|] eqn:O;
    [|discriminate].
  destruct (Dict.get d out) as [e1|] eqn:D; [|discriminate].
  destruct (Dict.get e1 (edge_length_dict ci)) as [len|] eqn:L;
    [|discriminate].
  destruct (walk ci e1 p) as [[e2 c2]|] eqn:W1; [|discriminate].
  inversion W; subst.
  assert (I1 : In e1 (edge_list ci))
    by (eapply topology_snapshot_next; eauto).
  destruct (positive_lengths_edge _ _ P I1) as (len' & L' & Pos).
  rewrite L in L'. inversion L'; subst len'.
  pose proof (walk_nonneg _ T P _ _ _ _ I1 W1). lia.
Qed.

(** What a search that returns tells: the destination was not reached, or
    the route is a shortest one. *)
Lemma find_route_shortest self conn start dest dl fuel len0 route distance :
  topology_snapshot (connection_info self) = true ->
  positive_lengths (connection_info self) = true ->
  In start (edge_list (connection_info self)) ->
  In dest (edge_list (connection_info self)) ->
  Dict.get start (edge_length_dict (connection_info self)) = Some len0 ->
  len0 <= unreached ->
  find_route fuel self conn start dest dl = Ret (route, distance) ->
  (route = [] /\ distance = unreached /\ dest <> start)
  \/ shortest (connection_info self) start dest route (distance - len0).
Proof.
  intros T P Ls Ld L0 H E.
  set (big := Nat.max fuel (S (length (edge_list (connection_info self))))).
  destruct (find_route_spec self start len0 T P Ls L0 conn dest dl big Ld)
    as (p' & d' & s1 & E1 & _ & _ & Lab & Opt); [unfold big; lia|].
  rewrite (find_route_more self conn start dest dl fuel big
                           (Ret (route, distance)))
    in E1; auto; [|discriminate|unfold big; lia].
  inversion E1; subst p' d'.
  destruct Lab as [(q & Gq & W)|(Ed & Gq & Ns)];
    rewrite get_set_same in Gq; inversion Gq; subst.
  - right. split; [exact W|].
    intros q' c' W'. pose proof (Opt H q' c' W'). lia.
  - left. auto.
Qed.

Lemma shortest_step ci e dest d rest c out e1 len :
  shortest ci e dest (d :: rest) c ->
  Dict.get e (outgoing_edges_dict ci) = Some out ->
  Dict.get d out = Some e1 ->
  Dict.get e1 (edge_length_dict ci) = Some len ->
  shortest ci e1 dest rest (c - len).
Proof.
  intros [W Opt] O D L. simpl in W. rewrite O, D, L in W.
  destruct (walk ci e1 rest) as [[e2 c2]|] eqn:W1; [|discriminate].
  inversion W; subst. split.
  - rewrite W1. f_equal. f_equal. lia.
  - intros q c' Wq.
    assert (W' : walk ci e (d :: q) = Some (dest, len + c')).
    { simpl. now rewrite O, D, L, Wq. }
    pose proof (Opt _ _ W'). lia.
Qed.

(** A shortest route does not come back to an edge it left. *)
Lemma shortest_no_return ci e dest route c q r x cq :
  topology_snapshot ci = true -> positive_lengths ci = true ->
  In e (edge_list ci) ->
  shortest ci e dest route c ->
  route = q ++ r -> q <> [] ->
  walk ci e q = Some (x, cq) ->
  x <> e.
Proof.
  intros T P I [W Opt] -> Nq Wq Ex. subst x.
  rewrite walk_app, Wq in W.
  destruct (walk ci e r) as [[e2 cr]|] eqn:Wr; [|discriminate].
  inversion W; subst.
  pose proof (walk_pos _ T P _ _ _ _ I Nq Wq).
  pose proof (Opt _ _ Wr). lia.
Qed.

Lemma In_trail ci x : forall path e,
  In x (trail ci e path) ->
  exists q r, path = q ++ r /\ q <> [] /\ follow ci e q = Some x.
Proof.
  induction path as [|d path IH]; intros e I; simpl in I; [contradiction|].
  destruct (Dict.get e (outgoing_edges_dict ci)) as [out|] eqn:O;
    [|contradiction].
  destruct (Dict.get d out) as [e1|] eqn:D; [|contradiction].
  destruct I as [<-|I].
  - exists [d], path. split; [reflexivity|]. split; [discriminate|].
    simpl. now rewrite O, D.
  - destruct (IH e1 I) as (q & r & -> & _ & F).
    exists (d :: q), r. split; [reflexivity|]. split; [discriminate|].
    simpl. now rewrite O, D.
Qed.

Lemma trail_length ci : forall path e e' c,
  walk ci e path = Some (e', c) -> length (trail ci e path) = length path.
Proof.
  induction path as [|d path IH]; intros e e' c W; simpl in *; auto.
  destruct (Dict.get e (outgoing_edges_dict ci)) as [out|]; [|discriminate].
  destruct (Dict.get d out) as [e1|]; [|discriminate].
  destruct (Dict.get e1 (edge_length_dict ci)) as [len|]; [|discriminate].
  destruct (walk ci e1 path) as [[e2 c2]|] eqn:W1; [|discriminate].
  simpl. f_equal. eapply IH; eauto.
Qed.

Lemma trail_listed ci :
  topology_snapshot ci = true ->
  forall path e x,
    In e (edge_list ci) -> In x (trail ci e path) -> In x (edge_list ci).
Proof.
  intros T. induction path as [|d path IH]; intros e x I Ix; simpl in Ix;
    [contradiction|].
  destruct (Dict.get e (outgoing_edges_dict ci)) as [out|] eqn:O;
    [|contradiction].
  destruct (Dict.get d out) as [e1|] eqn:D; [|contradiction].
  assert (I1 : In e1 (edge_list ci))
    by (eapply topology_snapshot_next; eauto).
  destruct Ix as [<-|Ix]; auto. eapply IH; eauto.
Qed.

Lemma shortest_NoDup ci dest :
  topology_snapshot ci = true -> positive_lengths ci = true ->
  forall route e c,
    In e (edge_list ci) ->
    shortest ci e dest route c ->
    NoDup (e :: trail ci e route).
Proof.
  intros T P. induction route as [|d route IH]; intros e c I S.
  - simpl. constructor; [intros []|constructor].
  - constructor.
    + intros Ie. apply In_trail in Ie.
      destruct Ie as (q & r & Eq & Nq & F).
      pose proof S as [W _]. rewrite Eq, walk_app in W.
      destruct (walk ci e q) as [[x cq]|] eqn:Wq; [|discriminate].
      pose proof (walk_follow _ _ _ _ _ Wq) as F'.
      rewrite F in F'. inversion F'; subst x.
      now apply (shortest_no_return ci e dest (d :: route) c q r e cq).
    + pose proof S as [W _]. simpl in W. simpl.
      destruct (Dict.get e (outgoing_edges_dict ci)) as [out|] eqn:O;
        [|discriminate].
      destruct (Dict.get d out) as [e1|] eqn:D; [|discriminate].
      destruct (Dict.get e1 (edge_length_dict ci)) as [len|] eqn:L;
        [|discriminate].
      apply (IH e1 (c - len)).
      * eapply topology_snapshot_next; eauto.
      * eapply shortest_step; eauto.
Qed.

Lemma shortest_length ci dest route e c :
  topology_snapshot ci = true -> positive_lengths ci = true ->
  In e (edge_list ci) ->
  shortest ci e dest route c ->
  (length route < length (edge_list ci))%nat.
Proof.
  intros T P I S.
  pose proof (shortest_NoDup ci dest T P route e c I S) as ND.
  assert (Inc : incl (e :: trail ci e route) (edge_list ci)).
  { intros x [<-|Ix]; auto. eapply trail_listed; eauto. }
  pose proof (NoDup_incl_length ND Inc) as Len.
  destruct S as [W _]. simpl in Len.
  rewrite (trail_length _ _ _ _ _ W) in Len. lia.
Qed.

(** X13: on a topology snapshot with positive edge lengths, the route
    returned by [find_route] never passes twice through the same edge (the
    start edge and the edges entered along the decision list are pairwise
    distinct), so it holds fewer decisions than the topology has edges. *)
Theorem X13_route_visits_no_edge_twice self conn current_edge destination
  deadline fuel len0 decision_list distance :
  topology_snapshot (connection_info self) = true ->
  positive_lengths (connection_info self) = true ->
  listed (connection_info self) current_edge = true ->
  listed (connection_info self) destination = true ->
  Dict.get current_edge (edge_length_dict (connection_info self))
  = Some len0 ->
  len0 <= unreached ->
  find_route fuel self conn current_edge destination deadline
  = Ret (decision_list, distance) ->
  NoDup (current_edge :: trail (connection_info self) current_edge
                               decision_list)
  /\ (length decision_list < length (edge_list (connection_info self)))%nat.
Proof.
  intros T P Ls Ld L0 H E.
  apply listed_In in Ls. apply listed_In in Ld.
  destruct (find_route_shortest self conn current_edge destination deadline
              fuel len0 decision_list distance T P Ls Ld L0 H E)
    as [(-> & _ & _)|S].
  - simpl. split.
    + constructor; [intros []|constructor].
    + destruct (edge_list (connection_info self)); [destruct Ls|simpl; lia].
  - split.
    + apply (shortest_NoDup _ destination T P _ _ (distance - len0) Ls S).
    + apply (shortest_length _ destination _ _ (distance - len0) T P Ls S).
Qed.

Lemma X13_route_visits_no_edge_twice_witness :
  find_route 5 (init (diamond LEFT RIGHT STRAIGHT STRAIGHT 0 5))
             (diamond LEFT RIGHT STRAIGHT STRAIGHT 0 5) "A" "D" 0
  = Ret ([LEFT; STRAIGHT], 30)
  /\ NoDup ("A"%string
              :: trail (connection_info
                          (init (diamond LEFT RIGHT STRAIGHT STRAIGHT 0 5)))
                       "A" [LEFT; STRAIGHT])
  /\ (length [LEFT; STRAIGHT]
      < length (edge_list
                  (connection_info
                     (init (diamond LEFT RIGHT STRAIGHT STRAIGHT 0 5)))))%nat.
Proof.
  split; [reflexivity|].
  apply (X13_route_visits_no_edge_twice
           (init (diamond LEFT RIGHT STRAIGHT STRAIGHT 0 5))
           (diamond LEFT RIGHT STRAIGHT STRAIGHT 0 5) "A" "D" 0 5 10
           [LEFT; STRAIGHT] 30); try reflexivity.
  vm_compute. discriminate.
Defined.

(** X14: on a topology snapshot with positive edge lengths, the route from
    an edge to itself is empty and its distance is the edge's own length.
    ([make_decisions] asks for such a route at line 187 when an alternative
    edge is the destination.) *)
Theorem X14_route_to_itself self conn e deadline fuel len0 :
  topology_snapshot (connection_info self) = true ->
  positive_lengths (connection_info self) = true ->
  listed (connection_info self) e = true ->
  Dict.get e (edge_length_dict (connection_info self)) = Some len0 ->
  len0 <= unreached ->
  (length (edge_list (connection_info self)) < fuel)%nat ->
  find_route fuel self conn e e deadline = Ret ([], len0).
Proof.
  intros T P L L0 H F. apply listed_In in L.
  destruct (find_route_spec self e len0 T P L L0 conn e deadline fuel L F)
    as (p & d & s1 & E & _).
  rewrite E.
  destruct (find_route_shortest self conn e e deadline fuel len0 p d
              T P L L L0 H E) as [(_ & _ & N)|[W Opt]]; [contradiction|].
  assert (W0 : walk (connection_info self) e [] = Some (e, 0)) by reflexivity.
  pose proof (Opt _ _ W0) as Le.
  destruct p as [|x p].
  - simpl in W. inversion W. f_equal. f_equal. lia.
  - assert (Ne : x :: p <> []) by discriminate.
    pose proof (walk_pos _ T P _ _ _ _ L Ne W). lia.
Qed.

Lemma X14_route_to_itself_witness :
  find_route 5 (init (diamond LEFT RIGHT STRAIGHT STRAIGHT 0 5))
             (diamond LEFT RIGHT STRAIGHT STRAIGHT 0 5) "B" "B" 0
  = Ret ([], 10).
Proof.
  apply (X14_route_to_itself
           (init (diamond LEFT RIGHT STRAIGHT STRAIGHT 0 5))
           (diamond LEFT RIGHT STRAIGHT STRAIGHT 0 5) "B" 0 5 10);
    try reflexivity.
  - vm_compute. discriminate.
  - simpl. lia.
Defined.

(** X15: on a topology snapshot with positive edge lengths, [find_route]
    between two edges of the edge list ends within [len(edge_list)] turns
    of its loop: any larger bound on the turns gives the same pair.  When no
    walk leads from the start to the destination, the pair is the empty
    decision list and the initial label 1000000000. *)
Theorem X15_search_ends self conn current_edge destination deadline fuel :
  topology_snapshot (connection_info self) = true ->
  positive_lengths (connection_info self) = true ->
  listed (connection_info self) current_edge = true ->
  listed (connection_info self) destination = true ->
  (length (edge_list (connection_info self)) < fuel)%nat ->
  exists decision_list distance,
    (forall fuel', (fuel <= fuel')%nat ->
                   find_route fuel' self conn current_edge destination
                              deadline = Ret (decision_list, distance))
    /\ ((forall q c, walk (connection_info self) current_edge q
                     <> Some (destination, c)) ->
        decision_list = [] /\ distance = unreached).
Proof.
  intros T P Ls Ld F.
  destruct (find_route_returns self conn current_edge destination deadline
              fuel T P Ls Ld F) as (p & d & E & No).
  exists p, d. split; [|exact No].
  intros fuel' Le.
  apply find_route_more with (fuel := fuel); auto. discriminate.
Qed.

Lemma X15_search_ends_witness :
  exists decision_list distance,
    (forall fuel', (5 <= fuel')%nat ->
                   find_route fuel'
                     (init (diamond LEFT RIGHT STRAIGHT STRAIGHT 0 5))
                     (diamond LEFT RIGHT STRAIGHT STRAIGHT 0 5) "B" "C" 0
                   = Ret (decision_list, distance))
    /\ ((forall q c,
            walk (connection_info
                    (init (diamond LEFT RIGHT STRAIGHT STRAIGHT 0 5)))
                 "B" q <> Some ("C"%string, c)) ->
        decision_list = [] /\ distance = unreached).
Proof.
  apply (X15_search_ends
           (init (diamond LEFT RIGHT STRAIGHT STRAIGHT 0 5))
           (diamond LEFT RIGHT STRAIGHT STRAIGHT 0 5) "B" "C" 0 5);
    try reflexivity.
  simpl. lia.
Defined.

(** ** Vehicles that are not urgent *)

Lemma shortest_straight_to ci e dest route c :
  topology_snapshot ci = true -> positive_lengths ci = true ->
  In dest (edge_list ci) ->
  shortest ci e dest route c ->
  straight_to ci dest e route.
Proof.
  intros T P Id [W Opt]. split; [eauto|].
  intros q r cq -> Nr Wq.
  rewrite walk_app, Wq in W.
  destruct (walk ci dest r) as [[e2 cr]|] eqn:Wr; [|discriminate].
  inversion W; subst.
  pose proof (walk_pos _ T P _ _ _ _ Id Nr Wr).
  pose proof (Opt _ _ Wq). lia.
Qed.

Lemma straight_to_step ci dest e d rest :
  straight_to ci dest e (d :: rest) ->
  e <> dest
  /\ exists out e1,
      Dict.get e (outgoing_edges_dict ci) = Some out
      /\ Dict.get d out = Some e1
      /\ straight_to ci dest e1 rest.
Proof.
  intros [(c & W) Early]. split.
  - intros ->. apply (Early [] (d :: rest) 0); [reflexivity|discriminate|].
    reflexivity.
  - simpl in W.
    destruct (Dict.get e (outgoing_edges_dict ci)) as [out|] eqn:O;
      [|discriminate].
    destruct (Dict.get d out) as [e1|] eqn:D; [|discriminate].
    destruct (Dict.get e1 (edge_length_dict ci)) as [len|] eqn:L;
      [|discriminate].
    destruct (walk ci e1 rest) as [[e2 c2]|] eqn:W1; [|discriminate].
    inversion W; subst.
    exists out, e1. split; [reflexivity|]. split; [exact D|].
    split; [eauto|].
    intros q r cq -> Nr Wq.
    apply (Early (d :: q) r (len + cq)); [reflexivity|exact Nr|].
    simpl. now rewrite O, D, L, Wq.
Qed.

(** A turn of the while loop of lines 165-198 for a vehicle whose deadline
    does not exceed the average: the first decision of the route is
    taken. *)
Lemma plan_body_direct fuel self conn vehicle avg_deadline p d rest distance
  out e1 :
  (deadline vehicle >? avg_deadline) = false ->
  p_current_edge p <> destination vehicle ->
  match p_shortest_path p with
  | [] => find_route fuel self conn (p_current_edge p) (destination vehicle)
                     (deadline vehicle)
  | _ :: _ => Ret (p_shortest_path p, p_distance p)
  end = Ret (d :: rest, distance) ->
  Dict.get (p_current_edge p) (outgoing_edges_dict (connection_info self))
  = Some out ->
  Dict.get d out = Some e1 ->
  plan_body fuel self conn vehicle avg_deadline p
  = Ret (Next {| p_current_edge := e1;
                 p_edges := p_edges p ++ [p_current_edge p];
                 p_decision_list := p_decision_list p ++ [d];
                 p_shortest_path := rest;
                 p_distance := distance |}).
Proof.
  intros Hd Nd R O D. unfold plan_body.
  apply eqb_neq in Nd. rewrite Nd. cbn [negb].
  rewrite R. cbn [bind fst snd].
  unfold index. rewrite O. cbn [bind]. rewrite D. cbn [bind].
  unfold explore_alternatives. rewrite Hd. reflexivity.
Qed.

Lemma plan_loop_along fuel self conn vehicle avg_deadline :
  (deadline vehicle >? avg_deadline) = false ->
  forall rest gas p,
    p_shortest_path p = rest ->
    straight_to (connection_info self) (destination vehicle)
                (p_current_edge p) rest ->
    (length rest < gas)%nat ->
    exists p',
      plan_loop gas fuel self conn vehicle avg_deadline p = Ret p'
      /\ p_decision_list p' = p_decision_list p ++ rest.
Proof.
  intros Hd. induction rest as [|d rest IH]; intros gas p Sp St Lg;
    (destruct gas as [|gas]; [simpl in Lg; lia|]); cbn [plan_loop].
  - destruct St as [(c & W) _]. simpl in W. inversion W.
    exists p. unfold plan_body. rewrite H0, eqb_refl. cbn.
    split; [reflexivity|]. now rewrite app_nil_r.
  - apply straight_to_step in St.
    destruct St as (Nd & out & e1 & O & D & St).
    rewrite (plan_body_direct fuel self conn vehicle avg_deadline p d rest
               (p_distance p) out e1); auto.
    2:{ rewrite Sp. reflexivity. }
    cbn [bind].
    destruct (IH gas {| p_current_edge := e1;
                        p_edges := p_edges p ++ [p_current_edge p];
                        p_decision_list := p_decision_list p ++ [d];
                        p_shortest_path := rest;
                        p_distance := p_distance p |})
      as (p' & E & Dl); auto.
    { simpl in Lg. lia. }
    exists p'. split; [exact E|]. rewrite Dl. cbn.
    now rewrite <- app_assoc.
Qed.

(** X16: a vehicle whose deadline does not exceed [avg_deadline] follows
    the shortest route: on a topology snapshot with positive edge lengths,
    its decision list is the one [find_route] returns from its current edge
    to its destination, searched once (the alternatives of lines 177-193
    are not looked at and the cached route is consumed to its end). *)
Theorem X16_non_urgent_vehicle_takes_shortest_route fuel self conn vehicle
  avg_deadline len0 route distance :
  topology_snapshot (connection_info self) = true ->
  positive_lengths (connection_info self) = true ->
  on_the_map (connection_info self) vehicle = true ->
  Dict.get (current_edge vehicle) (edge_length_dict (connection_info self))
  = Some len0 ->
  len0 <= unreached ->
  deadline vehicle <= avg_deadline ->
  (length (edge_list (connection_info self)) < fuel)%nat ->
  find_route fuel self conn (current_edge vehicle) (destination vehicle)
             (deadline vehicle) = Ret (route, distance) ->
  plan fuel self conn vehicle avg_deadline = Ret route.
Proof.
  intros T P M L0 H Hd F E.
  apply on_the_map_listed in M. destruct M as [Ic Id].
  assert (Hd' : (deadline vehicle >? avg_deadline) = false).
  { rewrite Z.gtb_ltb. apply Z.ltb_ge. exact Hd. }
  destruct (find_route_shortest self conn (current_edge vehicle)
              (destination vehicle) (deadline vehicle) fuel len0 route
              distance T P Ic Id L0 H E) as [(-> & _ & Nd)|S].
  - destruct fuel as [|gas]; [lia|].
    unfold plan. cbn [plan_loop]. unfold plan_body.
    cbn [p_current_edge p_shortest_path].
    assert (Ne : eqb (current_edge vehicle) (destination vehicle) = false)
      by (apply eqb_neq; congruence).
    rewrite Ne. cbn [negb]. rewrite E. reflexivity.
  - pose proof (shortest_length _ _ _ _ _ T P Ic S) as Len.
    apply (shortest_straight_to _ _ _ _ _ T P Id) in S.
    destruct route as [|d rest].
    + destruct S as [(c & W) _]. simpl in W. inversion W.
      apply plan_at_destination; [assumption|lia].
    + apply straight_to_step in S.
      destruct S as (Nd & out & e1 & O & D & St).
      destruct fuel as [|gas]; [lia|].
      unfold plan. cbn [plan_loop].
      rewrite (plan_body_direct (S gas) self conn vehicle avg_deadline _ d
                 rest distance out e1); auto.
      cbn [bind].
      destruct (plan_loop_along (S gas) self conn vehicle avg_deadline Hd'
                  rest gas
                  {| p_current_edge := e1;
                     p_edges := [] ++ [current_edge vehicle];
                     p_decision_list := [] ++ [d];
                     p_shortest_path := rest;
                     p_distance := distance |})
        as (p' & E' & Dl); auto.
      { simpl in Len. lia. }
      cbn [p_current_edge p_edges p_decision_list] in *.
      rewrite E'. cbn [bind]. rewrite Dl. reflexivity.
Qed.

Lemma X16_non_urgent_vehicle_takes_shortest_route_witness :
  find_route 5 (init (diamond LEFT RIGHT STRAIGHT STRAIGHT 5 0))
             (diamond LEFT RIGHT STRAIGHT STRAIGHT 5 0) "A" "D" 3
  = Ret ([LEFT; STRAIGHT], 30)
  /\ plan 5 (init (diamond LEFT RIGHT STRAIGHT STRAIGHT 5 0))
          (diamond LEFT RIGHT STRAIGHT STRAIGHT 5 0) (car "A" "D" 3 5) 5
     = Ret [LEFT; STRAIGHT].
Proof.
  split; [reflexivity|].
  apply (X16_non_urgent_vehicle_takes_shortest_route 5%nat
           (init (diamond LEFT RIGHT STRAIGHT STRAIGHT 5 0))
           (diamond LEFT RIGHT STRAIGHT STRAIGHT 5 0) (car "A" "D" 3 5) 5 10
           [LEFT; STRAIGHT] 30); try reflexivity.
  - vm_compute. discriminate.
  - simpl. lia.
  - simpl. lia.
Defined.

(** ** The plan stops on the destination *)

Lemma plan_loop_stops_on_arrival fuel self conn vehicle avg_deadline start
  gas :
  forall p p',
    follow (connection_info self) start (p_decision_list p)
    = Some (p_current_edge p) ->
    (forall q r, p_decision_list p = q ++ r -> r <> [] ->
                 follow (connection_info self) start q
                 <> Some (destination vehicle)) ->
    plan_loop gas fuel self conn vehicle avg_deadline p = Ret p' ->
    forall q r, p_decision_list p' = q ++ r -> r <> [] ->
                follow (connection_info self) start q
                <> Some (destination vehicle).
Proof.
  induction gas as [|gas IH]; intros p p' F Early E; simpl in E;
    [discriminate|].
  apply bind_Ret_inv in E. destruct E as ([p1|p1] & B & E).
  - apply plan_body_Next in B.
    destruct B as (out & d & O & D & Dl & _ & Nd).
    apply (IH p1 p'); auto.
    + rewrite Dl. eapply follow_snoc; eauto.
    + intros q r Eq Nr. rewrite Dl in Eq.
      destruct (exists_last Nr) as (r' & x & ->).
      rewrite app_assoc in Eq. apply app_inj_tail in Eq.
      destruct Eq as [Eq _].
      destruct r' as [|y r'].
      * rewrite app_nil_r in Eq. subst q. rewrite F. congruence.
      * apply (Early q (y :: r')); [exact Eq|discriminate].
  - inversion E; subst p1. apply plan_body_Done in B.
    destruct B as (Dl & _ & _). rewrite Dl. exact Early.
Qed.

(** X17: the planning of [make_decisions] stops as soon as the vehicle is
    on its destination (line 165): following the decision list it returns,
    the destination is not reached before the last decision.  This holds on
    every topology. *)
Theorem X17_plan_stops_on_arrival fuel self conn vehicle avg_deadline
  decision_list q r :
  plan fuel self conn vehicle avg_deadline = Ret decision_list ->
  decision_list = q ++ r -> r <> [] ->
  follow (connection_info self) (current_edge vehicle) q
  <> Some (destination vehicle).
Proof.
  intros E Eq Nr. unfold plan in E.
  apply bind_Ret_inv in E. destruct E as (p' & L & E).
  inversion E as [Dl]. clear E.
  refine (plan_loop_stops_on_arrival fuel self conn vehicle avg_deadline
            (current_edge vehicle) fuel
            {| p_current_edge := current_edge vehicle; p_edges := [];
               p_decision_list := []; p_shortest_path := [];
               p_distance := 0 |} p' eq_refl _ L q r _ Nr).
  - intros q' r' Eq' Nr'. cbn in Eq'.
    destruct q'; simpl in Eq'; [|discriminate].
    exfalso. apply Nr'. now symmetry.
  - congruence.
Qed.

Lemma X17_plan_stops_on_arrival_witness :
  plan 5 (init (diamond LEFT RIGHT STRAIGHT STRAIGHT 0 5))
       (diamond LEFT RIGHT STRAIGHT STRAIGHT 0 5) (car "A" "D" 10 5) 5
  = Ret ([LEFT] ++ [STRAIGHT])
  /\ follow (connection_info (init (diamond LEFT RIGHT STRAIGHT STRAIGHT 0 5)))
            (current_edge (car "A" "D" 10 5)) [LEFT]
     <> Some (destination (car "A" "D" 10 5)).
Proof.
  split; [reflexivity|].
  apply (X17_plan_stops_on_arrival 5%nat
           (init (diamond LEFT RIGHT STRAIGHT STRAIGHT 0 5))
           (diamond LEFT RIGHT STRAIGHT STRAIGHT 0 5) (car "A" "D" 10 5) 5
           [LEFT; STRAIGHT] [LEFT] [STRAIGHT]).
  - reflexivity.
  - reflexivity.
  - discriminate.
Defined.

(** ** The edges the search settled *)

(** X18: when the search of [find_route] ends on a topology snapshot with
    positive edge lengths, every edge of the edge list is in exactly one of
    [visited] and [unvisited], the start edge is in [visited], and the
    label of every edge in [visited], not only that of the destination, is
    the shortest distance from the start edge (its own length counted);
    unless it is the initial label, the decision list recorded for the edge
    walks to it over that distance. *)
Theorem X18_settled_labels_are_shortest self current_edge destination fuel
  len0 s :
  topology_snapshot (connection_info self) = true ->
  positive_lengths (connection_info self) = true ->
  listed (connection_info self) current_edge = true ->
  listed (connection_info self) destination = true ->
  Dict.get current_edge (edge_length_dict (connection_info self))
  = Some len0 ->
  len0 <= unreached ->
  find_route_search fuel self current_edge destination = Ret s ->
  (forall e, listed (connection_info self) e = true ->
             Dict.mem e (s_visited s) = negb (Dict.mem e (s_unvisited s)))
  /\ Dict.mem current_edge (s_visited s) = true
  /\ forall e d,
      Dict.get e (s_visited s) = Some d ->
      (forall q c,
          walk (connection_info self) current_edge q = Some (e, c) ->
          d <= len0 + c)
      /\ (d <> unreached ->
          exists p c,
            Dict.get e (s_path_lists s) = Some p
            /\ walk (connection_info self) current_edge p = Some (e, c)
            /\ d = len0 + c).
Proof.
  intros T P Ls Ld L0 H E.
  apply listed_In in Ls. apply listed_In in Ld.
  set (big := Nat.max fuel (S (length (edge_list (connection_info self))))).
  destruct (find_route_search_spec self current_edge len0 T P Ls L0
              destination big Ld) as (s1 & E1 & Po & _); [unfold big; lia|].
  rewrite (find_route_search_more self current_edge destination fuel big
             (Ret s)) in E1; auto; [|discriminate|unfold big; lia].
  inversion E1; subst s1; clear E1.
  pose proof (post_frozen _ _ _ _ Po) as F.
  split; [|split].
  - intros e Le. apply listed_In in Le.
    destruct (Dict.mem e (s_unvisited s)) eqn:Mu; cbn [negb].
    + apply (fz_disj _ _ _ _ _ _ F e Mu).
    + destruct (fz_part _ _ _ _ _ _ F e Le); congruence.
  - apply (post_start _ _ _ _ Po).
  - intros e d G. split.
    + intros q c W. apply (fz_opt_settled _ _ _ _ _ _ F H e d q c G W).
    + intros Nu.
      destruct (fz_settled _ _ _ _ _ _ F e d G) as [(p & Gp & W)|(Eu & _)];
        [|contradiction].
      exists p, (d - len0). split; [exact Gp|]. split; [exact W|lia].
Qed.

Lemma X18_settled_labels_are_shortest_witness :
  find_route_search 5 (init (diamond LEFT RIGHT STRAIGHT STRAIGHT 0 5))
                    "A" "D"
  = Ret {| s_unvisited := [];
           s_visited := [("A", 10); ("B", 20); ("C", 20); ("D", 30)]%string;
           s_path_lists :=
             [("A", []); ("B", [LEFT]); ("C", [RIGHT]);
              ("D", [LEFT; STRAIGHT])]%string;
           s_current_edge := "D"%string;
           s_current_distance := 30 |}
  /\ (forall e,
         listed (connection_info
                   (init (diamond LEFT RIGHT STRAIGHT STRAIGHT 0 5))) e
         = true ->
         Dict.mem e [("A", 10); ("B", 20); ("C", 20); ("D", 30)]%string
         = negb (Dict.mem e (@nil (edge * Z))))
  /\ Dict.mem "A"%string [("A", 10); ("B", 20); ("C", 20); ("D", 30)]%string
     = true
  /\ forall e d,
      Dict.get e [("A", 10); ("B", 20); ("C", 20); ("D", 30)]%string
      = Some d ->
      (forall q c,
          walk (connection_info
                  (init (diamond LEFT RIGHT STRAIGHT STRAIGHT 0 5)))
               "A" q = Some (e, c) ->
          d <= 10 + c)
      /\ (d <> unreached ->
          exists p c,
            Dict.get e [("A", []); ("B", [LEFT]); ("C", [RIGHT]);
                        ("D", [LEFT; STRAIGHT])]%string = Some p
            /\ walk (connection_info
                       (init (diamond LEFT RIGHT STRAIGHT STRAIGHT 0 5)))
                    "A" p = Some (e, c)
            /\ d = 10 + c).
Proof.
  split; [reflexivity|].
  apply (X18_settled_labels_are_shortest
           (init (diamond LEFT RIGHT STRAIGHT STRAIGHT 0 5)) "A" "D" 5 10
           {| s_unvisited := [];
              s_visited := [("A", 10); ("B", 20); ("C", 20); ("D", 30)]%string;
              s_path_lists :=
                [("A", []); ("B", [LEFT]); ("C", [RIGHT]);
                 ("D", [LEFT; STRAIGHT])]%string;
              s_current_edge := "D"%string;
              s_current_distance := 30 |}); try reflexivity.
  vm_compute. discriminate.
Defined.

(** ** The alternatives are not more crowded *)

Lemma consider_choice_count fuel self conn vehicle cur edges direct w choice
  r :
  consider_choice fuel self conn vehicle cur edges direct w choice = Ret r ->
  snd r = w
  \/ (~ In (w_out_edge (snd r)) edges
      /\ exists c2 c1,
          Dict.get (w_out_edge (snd r))
                   (edge_vehicle_count (connection_info self)) = Some c2
          /\ Dict.get (w_out_edge w)
                      (edge_vehicle_count (connection_info self)) = Some c1
          /\ c2 <= c1).
Proof.
  intros E. unfold consider_choice in E.
  destruct (negb (eqb choice direct)); [|inversion E; now left].
  apply bind_Ret_inv in E. destruct E as (out & _ & E).
  apply bind_Ret_inv in E. destruct E as (e2 & _ & E).
  apply bind_Ret_inv in E. destruct E as ([|] & _ & E);
    [|inversion E; now left].
  apply bind_Ret_inv in E. destruct E as ([|] & Wo & E);
    [|inversion E; now left].
  apply worth_a_route_spec in Wo. destruct Wo as [Wo _].
  destruct (Wo eq_refl) as (NI & c2 & c1 & G2 & G1 & Le & _).
  apply bind_Ret_inv in E. destruct E as ([sp2 d2] & _ & E).
  apply bind_Ret_inv in E. destruct E as (c2' & _ & E).
  apply bind_Ret_inv in E. destruct E as (c1' & _ & E).
  destruct (negb (c2' =? c1') || (d2 <? w_distance w));
    inversion E; subst; [|now left].
  right. cbn. split; [exact NI|]. exists c2, c1. auto.
Qed.

(** X19: the out edge chosen for an urgent vehicle is never more crowded
    than the first edge of its shortest route: when the for loop of lines
    177-193 ends, the vehicle count of the out edge it leaves is at most
    the count of the out edge it started with, and the out edge is the one
    it started with or an edge the vehicle has not been on in this call. *)
Theorem X19_alternative_is_not_more_crowded fuel self conn vehicle
  avg_deadline current_edge edges direct w0 w count0 :
  Dict.get (w_out_edge w0) (edge_vehicle_count (connection_info self))
  = Some count0 ->
  explore_alternatives fuel self conn vehicle avg_deadline current_edge edges
                       direct w0 = Ret w ->
  (w_out_edge w = w_out_edge w0 \/ ~ In (w_out_edge w) edges)
  /\ exists count,
      Dict.get (w_out_edge w) (edge_vehicle_count (connection_info self))
      = Some count
      /\ count <= count0.
Proof.
  intros G0 E. unfold explore_alternatives in E.
  destruct (deadline vehicle >? avg_deadline).
  2:{ inversion E; subst. split; [now left|]. exists count0. split; auto. lia. }
  apply bind_Ret_inv in E. destruct E as (out & _ & E).
  refine (for_each_preserves _
            (fun w =>
               (w_out_edge w = w_out_edge w0 \/ ~ In (w_out_edge w) edges)
               /\ exists count,
                   Dict.get (w_out_edge w)
                            (edge_vehicle_count (connection_info self))
                   = Some count
                   /\ count <= count0)
            (Dict.keys out) _ w0 w _ E).
  - intros s a s' _ (Where & c & Gc & Le) B.
    apply bind_Ret_inv in B. destruct B as (r & B & B').
    inversion B'; subst s'; clear B'.
    apply consider_choice_count in B.
    destruct B as [->|(NI & c2 & c1 & G2 & G1 & Le')].
    + split; [exact Where|]. exists c. auto.
    + split; [now right|]. exists c2. split; [exact G2|].
      rewrite Gc in G1. inversion G1; subst c1. lia.
  - split; [now left|]. exists count0. split; auto. lia.
Qed.

Lemma X19_alternative_is_not_more_crowded_witness :
  explore_alternatives 5 (init (diamond LEFT RIGHT STRAIGHT STRAIGHT 5 0))
    (diamond LEFT RIGHT STRAIGHT STRAIGHT 5 0) (car "A" "D" 10 5) 5 "A"
    ["A"%string] LEFT
    {| w_distance := 30; w_shortest_path := [LEFT; STRAIGHT];
       w_out_edge := "B"%string |}
  = Ret {| w_distance := 20; w_shortest_path := [RIGHT; STRAIGHT];
           w_out_edge := "C"%string |}
  /\ ("C"%string = "B"%string \/ ~ In "C"%string ["A"%string])
  /\ exists count,
      Dict.get "C"%string
        (edge_vehicle_count
           (connection_info
              (init (diamond LEFT RIGHT STRAIGHT STRAIGHT 5 0))))
      = Some count
      /\ count <= 5.
Proof.
  split; [reflexivity|].
  apply (X19_alternative_is_not_more_crowded 5%nat
           (init (diamond LEFT RIGHT STRAIGHT STRAIGHT 5 0))
           (diamond LEFT RIGHT STRAIGHT STRAIGHT 5 0) (car "A" "D" 10 5) 5
           "A"%string ["A"%string] LEFT
           {| w_distance := 30; w_shortest_path := [LEFT; STRAIGHT];
              w_out_edge := "B"%string |}
           {| w_distance := 20; w_shortest_path := [RIGHT; STRAIGHT];
              w_out_edge := "C"%string |} 5); reflexivity.
Defined.

(** * The recorded distance *)








